(** * Interactive Path Finder: grid model and A* engine

    A shallow embedding of [GridModel] (gridmodel.h / gridmodel.cpp) and of
    [Pathfinder] (pathfinder.h / pathfinder.cpp), with the properties of the
    specification stated and proved over it.

    Conventions of the embedding:
    - [std::uint8_t] is [N]; a conversion from [int] wraps modulo 256 ([u8]);
    - [int] is [Z];
    - the [double]s of the engine are costs, all multiples of 0.5, and are
      counted in halves; the [double]s of a pointer position are arbitrary
      and are binary64 floats ([PrimFloat.float]);
    - [std::vector<std::vector<T>>] is [list (list T)], indexed with stdpp's
      lookup and updated in place with [alter]/[insert];
    - a member function that may throw is a state-and-exception computation
      [M S A] over the object's fields;
    - Qt's [emit] only notifies listeners (the view repaints); it changes no
      field of the model and is left out. *)

From Stdlib Require Import ZArith NArith Lia Bool Permutation.
From Stdlib Require PrimFloat FloatOps SpecFloat Uint63.
From stdpp Require Import base numbers option list.

Local Open Scope N_scope.

(** ** Two-dimensional vectors *)

Section Vec2.
Context {A : Type}.

(** [std::vector<std::vector<A>>(rows, std::vector<A>(cols, x))] *)
Definition make2 (rows cols : N) (x : A) : list (list A) :=
  replicate (N.to_nat rows) (replicate (N.to_nat cols) x).

Definition at2 (v : list (list A)) (r c : N) : option A :=
  match v !! N.to_nat r with
  | Some line => line !! N.to_nat c
  | None => None
  end.

(** [v[r][c]] read.  Indexing outside the vector is undefined behaviour in
    C++; the embedding returns [d] there.  On well-formed states every
    index the program uses is inside: the invariants below carry the shapes
    of the tables and the bounds of every position read or written. *)
Definition get2 (d : A) (v : list (list A)) (r c : N) : A :=
  default d (at2 v r c).

(** [v[r][c] = x] *)
Definition set2 (v : list (list A)) (r c : N) (x : A) : list (list A) :=
  alter (fun line => <[N.to_nat c := x]> line) (N.to_nat r) v.

Definition shape (rows cols : N) (v : list (list A)) : Prop :=
  length v = N.to_nat rows /\
  forall i line, v !! i = Some line -> length line = N.to_nat cols.

End Vec2.

(** ** State-and-exception computations *)

(** [std::out_of_range], the only exception the program throws. *)
Inductive exn := OutOfRange.

Definition M (S A : Type) : Type := S -> (exn + A) * S.

Definition ret {S A} (a : A) : M S A := fun s => (inr a, s).

Definition bind {S A B} (m : M S A) (k : A -> M S B) : M S B :=
  fun s => match m s with
           | (inr a, s') => k a s'
           | (inl e, s') => (inl e, s')
           end.

Definition throw {S A} (e : exn) : M S A := fun s => (inl e, s).

Definition gets {S A} (f : S -> A) : M S A := fun s => (inr (f s), s).

Definition modify {S} (f : S -> S) : M S unit := fun s => (inr tt, f s).

Declare Scope m_scope.
Delimit Scope m_scope with M.
Notation "'let*' x ':=' m 'in' k" := (bind m (fun x => k))
  (at level 10, x name, m at level 100, k at level 200) : m_scope.

(** ** GridModel *)

Inductive CellType := Normal | Wall | Rough | Boost | Start | Goal.

Global Instance CellType_eq_dec : EqDecision CellType.
Proof. solve_decision. Defined.

Definition CellType_eqb (a b : CellType) : bool := bool_decide (a = b).

(** [std::pair<std::uint8_t, std::uint8_t>] *)
Definition position : Type := N * N.

(** [{101, 101}], the value that stands for "no position". *)
Definition no_position : position := (101, 101).

Record GridModel := mkGridModel {
  m_rows : N;
  m_cols : N;
  m_grid : list (list CellType);
  m_start : position;
  m_goal : position
}.

Definition with_grid (v : list (list CellType)) (gm : GridModel) : GridModel :=
  {| m_rows := m_rows gm; m_cols := m_cols gm; m_grid := v;
     m_start := m_start gm; m_goal := m_goal gm |}.

Definition with_start (p : position) (gm : GridModel) : GridModel :=
  {| m_rows := m_rows gm; m_cols := m_cols gm; m_grid := m_grid gm;
     m_start := p; m_goal := m_goal gm |}.

Definition with_goal (p : position) (gm : GridModel) : GridModel :=
  {| m_rows := m_rows gm; m_cols := m_cols gm; m_grid := m_grid gm;
     m_start := m_start gm; m_goal := p |}.

(** [GridModel::GridModel(rows, cols)] *)
Definition GridModel_new (rows cols : N) : GridModel :=
  {| m_rows := rows; m_cols := cols;
     m_grid := make2 rows cols Normal;
     m_start := no_position; m_goal := no_position |}.

Definition rowCount (gm : GridModel) : N := m_rows gm.
Definition colCount (gm : GridModel) : N := m_cols gm.
Definition startPosition (gm : GridModel) : position := m_start gm.
Definition goalPosition (gm : GridModel) : position := m_goal gm.

(** A reference to one of the two tracked positions, as
    [updateSpecialPosition] receives it. *)
Record position_ref := {
  ref_read : GridModel -> position;
  ref_write : position -> GridModel -> GridModel
}.

Definition ref_m_start : position_ref :=
  {| ref_read := m_start; ref_write := with_start |}.
Definition ref_m_goal : position_ref :=
  {| ref_read := m_goal; ref_write := with_goal |}.

(** [m_grid[row][col] = type] *)
Definition write_cell (row col : N) (type : CellType) (gm : GridModel) : GridModel :=
  with_grid (set2 (m_grid gm) row col type) gm.

Definition validateCoordinates (row col : N) : M GridModel unit :=
  fun gm =>
    if (m_rows gm <=? row) || (m_cols gm <=? col)
    then throw OutOfRange gm
    else ret tt gm.

Definition cellState (row col : N) : M GridModel CellType :=
  (let* _ := validateCoordinates row col in
   gets (fun gm => get2 Normal (m_grid gm) row col))%M.

Definition updateSpecialPosition (pos : position_ref) (newRow newCol : N)
    (positionType : CellType) : M GridModel unit :=
  (let* old := gets (ref_read pos) in
   let '(oldRow, oldCol) := old in
   let* _ := (if negb (oldRow =? 101) || negb (oldCol =? 101)
              then modify (write_cell oldRow oldCol Normal)
              else ret tt) in
   let* _ := modify (ref_write pos (newRow, newCol)) in
   modify (write_cell newRow newCol positionType))%M.

Definition setCellState (row col : N) (type : CellType) : M GridModel unit :=
  (let* _ := validateCoordinates row col in
   if CellType_eqb type Start || CellType_eqb type Goal
   then if CellType_eqb type Start
        then updateSpecialPosition ref_m_start row col type
        else updateSpecialPosition ref_m_goal row col type
   else modify (write_cell row col type))%M.

Definition clearGrid : M GridModel unit :=
  modify (fun gm =>
    {| m_rows := m_rows gm; m_cols := m_cols gm;
       m_grid := map (map (fun _ : CellType => Normal)) (m_grid gm);
       m_start := no_position; m_goal := no_position |}).

(** The state a call leaves behind, whether it returned or threw. *)
Definition exec {S A} (m : M S A) (s : S) : S := snd (m s).

(** A sequence of [setCellState] calls; a call that throws leaves the model
    as it was and the next call goes on from there. *)
Definition call : Type := N * N * CellType.

Definition run_calls (cs : list call) (gm : GridModel) : GridModel :=
  fold_left (fun g '(r, c, t) => exec (setCellState r c t) g) cs gm.

(** ** Pathfinder *)

(** [double].  The engine only ever forms 0.0, -1.0, the step costs 0.5, 1.0
    and 2.0, sums of step costs, Manhattan distances times 0.5, and
    +infinity.  All of these are multiples of 0.5 of magnitude far below
    2^53, or +infinity, and on such doubles IEEE addition and comparison are
    exact.  [Half h] is the double [h * 0.5]. *)
Inductive double := Half (h : Z) | Infinity.

Definition dadd (a b : double) : double :=
  match a, b with
  | Half x, Half y => Half (x + y)
  | _, _ => Infinity
  end.

Definition dlt (a b : double) : bool :=
  match a, b with
  | Half x, Half y => (x <? y)%Z
  | Half _, Infinity => true
  | Infinity, _ => false
  end.

(** [n * 0.5] for an [int] n *)
Definition times_half (n : Z) : double := Half n.

(** conversion of an [int] to [std::uint8_t] *)
Definition u8 (z : Z) : N := Z.to_N (z mod 256).

Record PathResult := mkPathResult {
  path : list position;
  totalCost : double
}.

Module Node.
Record t := mk { row : N; col : N; g : double; f : double }.

(** [operator>] *)
Definition gt (a b : t) : bool := dlt (f b) (f a).
End Node.

(** [std::priority_queue<Node, std::vector<Node>, std::greater<Node>>].
    The queue is the collection of the entries pushed and not yet popped;
    [push] adds one.  [top] followed by [pop] takes out an entry that no
    other entry is smaller than under [std::greater]; which one, among
    entries of equal [f], depends on the heap of the standard library in
    use, so the engine is stated over every policy with these laws. *)
Class PriorityQueue := {
  top_pop : list Node.t -> option (Node.t * list Node.t);
  top_pop_empty : top_pop [] = None;
  top_pop_nonempty : forall q, q <> [] -> top_pop q <> None;
  top_pop_perm : forall q n q',
    top_pop q = Some (n, q') -> Permutation q (n :: q');
  top_pop_least : forall q n q',
    top_pop q = Some (n, q') -> forall m, In m q' -> Node.gt n m = false
}.

Definition push (n : Node.t) (q : list Node.t) : list Node.t := n :: q.

(** One policy: among the entries of least [f], the one pushed last. *)
Fixpoint extract_min (q : list Node.t) : option (Node.t * list Node.t) :=
  match q with
  | [] => None
  | n :: q' =>
      match extract_min q' with
      | None => Some (n, [])
      | Some (m, rest) =>
          if Node.gt n m then Some (m, n :: rest) else Some (n, q')
      end
  end.

Record Pathfinder := mkPathfinder {
  m_model : GridModel;
  m_costGrid : list (list double);
  m_visited : list (list bool);
  m_previous : list (list position);
  m_queue : list Node.t
}.

(** [Pathfinder::Pathfinder(model)] *)
Definition Pathfinder_new (model : GridModel) : Pathfinder :=
  {| m_model := model; m_costGrid := []; m_visited := [];
     m_previous := []; m_queue := [] |}.

Definition with_costGrid (v : list (list double)) (pf : Pathfinder) : Pathfinder :=
  {| m_model := m_model pf; m_costGrid := v; m_visited := m_visited pf;
     m_previous := m_previous pf; m_queue := m_queue pf |}.

Definition with_visited (v : list (list bool)) (pf : Pathfinder) : Pathfinder :=
  {| m_model := m_model pf; m_costGrid := m_costGrid pf; m_visited := v;
     m_previous := m_previous pf; m_queue := m_queue pf |}.

Definition with_previous (v : list (list position)) (pf : Pathfinder) : Pathfinder :=
  {| m_model := m_model pf; m_costGrid := m_costGrid pf;
     m_visited := m_visited pf; m_previous := v; m_queue := m_queue pf |}.

Definition with_queue (q : list Node.t) (pf : Pathfinder) : Pathfinder :=
  {| m_model := m_model pf; m_costGrid := m_costGrid pf;
     m_visited := m_visited pf; m_previous := m_previous pf; m_queue := q |}.

(** A call of a [const] member of the model through [m_model]. *)
Definition call_model {A} (m : M GridModel A) : M Pathfinder A :=
  fun pf => (fst (m (m_model pf)), pf).

(** [Pathfinder::initialize]; [m_queue] is not touched. *)
Definition initialize (pf : Pathfinder) : Pathfinder :=
  let rows := rowCount (m_model pf) in
  let cols := colCount (m_model pf) in
  with_previous (make2 rows cols no_position)
    (with_visited (make2 rows cols false)
       (with_costGrid (make2 rows cols Infinity) pf)).

Definition getCost (type : CellType) : double :=
  match type with
  | Wall => Half (-2)
  | Rough => Half 4
  | Boost => Half 1
  | _ => Half 2
  end.

Definition heuristic (pf : Pathfinder) (row col : N) : double :=
  let goal := goalPosition (m_model pf) in
  times_half (Z.abs (Z.of_N row - Z.of_N (fst goal))
              + Z.abs (Z.of_N col - Z.of_N (snd goal))).

(** The loop of [reconstructPath]; [None] when [fuel] iterations were not
    enough. *)
Fixpoint follow_parents (fuel : nat) (pf : Pathfinder) (current : position)
    (path : list position) : option (list position) :=
  match fuel with
  | O => None
  | S fuel' =>
      if negb (fst current =? 101)
      then follow_parents fuel' pf
             (get2 no_position (m_previous pf) (fst current) (snd current))
             (path ++ [current])
      else Some path
  end.

Definition reconstructPath (fuel : nat) (pf : Pathfinder) (goal : position)
    : option (list position) :=
  option_map (@rev position) (follow_parents fuel pf goal []).

Definition dr (i : nat) : Z := nth i [-1; 1; 0; 0]%Z 0%Z.
Definition dc (i : nat) : Z := nth i [0; 0; -1; 1]%Z 0%Z.

(** The body of the [for] loop over the four directions, for direction [i]. *)
Definition visit_neighbour (current : Node.t) (i : nat) : M Pathfinder unit :=
  fun pf =>
    let nr : Z := (Z.of_N (Node.row current) + dr i)%Z in
    let nc : Z := (Z.of_N (Node.col current) + dc i)%Z in
    if (nr <? 0)%Z || (Z.of_N (rowCount (m_model pf)) <=? nr)%Z
       || (nc <? 0)%Z || (Z.of_N (colCount (m_model pf)) <=? nc)%Z
    then ret tt pf
    else
      (let* cellType := call_model (cellState (u8 nr) (u8 nc)) in
       let stepCost := getCost cellType in
       if dlt stepCost (Half 0) then ret tt
       else
         let newCost := dadd (Node.g current) stepCost in
         let* known := gets (fun pf => get2 Infinity (m_costGrid pf) (Z.to_N nr) (Z.to_N nc)) in
         if dlt newCost known
         then
           modify (fun pf =>
             let pf := with_previous
                         (set2 (m_previous pf) (Z.to_N nr) (Z.to_N nc)
                               (Node.row current, Node.col current)) pf in
             let pf := with_costGrid
                         (set2 (m_costGrid pf) (Z.to_N nr) (Z.to_N nc) newCost) pf in
             let h := heuristic pf (u8 nr) (u8 nc) in
             with_queue
               (push (Node.mk (u8 nr) (u8 nc) newCost (dadd newCost h))
                     (m_queue pf)) pf)
         else ret tt)%M pf.

Fixpoint for_each {S} (body : nat -> M S unit) (dirs : list nat) : M S unit :=
  match dirs with
  | [] => ret tt
  | i :: dirs' => (let* _ := body i in for_each body dirs')%M
  end.

(** How a piece of [findPath] ends: by falling through to the next
    statement, by [return], by an exception, or (in the embedding only) by
    running out of fuel. *)
Inductive signal :=
| Fallthrough
| Return (r : PathResult)
| Throw (e : exn)
| Timeout.

Section Engine.
Context {PQ : PriorityQueue}.

(** The body of the [while] loop, after [top] and [pop]. *)
Definition loop_body (fuel : nat) (goal : position) (current : Node.t)
    (pf : Pathfinder) : signal * Pathfinder :=
  if get2 false (m_visited pf) (Node.row current) (Node.col current)
  then (Fallthrough, pf)
  else
    let pf := with_visited
                (set2 (m_visited pf) (Node.row current) (Node.col current) true)
                pf in
    if (Node.row current =? fst goal) && (Node.col current =? snd goal)
    then
      match reconstructPath fuel pf goal with
      | None => (Timeout, pf)
      | Some p =>
          (Return {| path := p;
                     totalCost := get2 Infinity (m_costGrid pf)
                                       (fst goal) (snd goal) |}, pf)
      end
    else
      match for_each (visit_neighbour current) [0; 1; 2; 3]%nat pf with
      | (inl e, pf') => (Throw e, pf')
      | (inr _, pf') => (Fallthrough, pf')
      end.

(** [while (!m_queue.empty()) { ... }] *)
Fixpoint while_queue (fuel fuel_path : nat) (goal : position)
    (pf : Pathfinder) : signal * Pathfinder :=
  match fuel with
  | O => (Timeout, pf)
  | S fuel' =>
      match top_pop (m_queue pf) with
      | None => (Fallthrough, pf)
      | Some (current, rest) =>
          match loop_body fuel_path goal current (with_queue rest pf) with
          | (Fallthrough, pf') => while_queue fuel' fuel_path goal pf'
          | stop => stop
          end
      end
  end.

(** The statements of [findPath] between the test for unset positions and
    the [while] loop: [initialize()], the cost of the start cell, and the
    first entry of the queue. *)
Definition seeded (pf : Pathfinder) : Pathfinder :=
  let start := startPosition (m_model pf) in
  let pf := initialize pf in
  let start_row := fst start in
  let start_col := snd start in
  let pf := with_costGrid
              (set2 (m_costGrid pf) start_row start_col (Half 0)) pf in
  with_queue
    (push (Node.mk start_row start_col (Half 0)
                   (heuristic pf start_row start_col))
          (m_queue pf)) pf.

(** [findPath] with the iteration budgets of its two loops given. *)
Definition findPath_fuel (fuel fuel_path : nat) (pf : Pathfinder)
    : signal * Pathfinder :=
  let start := startPosition (m_model pf) in
  let goal := goalPosition (m_model pf) in
  if (fst start =? 101) || (fst goal =? 101)
  then (Return {| path := []; totalCost := Half 0 |}, pf)
  else
    match while_queue fuel fuel_path goal (seeded pf) with
    | (Fallthrough, pf') =>
        (Return {| path := []; totalCost := Half (-2) |}, pf')
    | stop => stop
    end.

Definition cells (gm : GridModel) : nat :=
  N.to_nat (m_rows gm) * N.to_nat (m_cols gm).

(** [Pathfinder::findPath].  The budgets are bounds on the number of
    iterations: every iteration of the [while] loop pops an entry, and a
    cell is expanded (pushing at most four entries) at most once; the
    parent chain visits a cell at most once. *)
Definition findPath (pf : Pathfinder) : signal * Pathfinder :=
  findPath_fuel (S (S (length (m_queue pf)) + 4 * cells (m_model pf)))
                (S (cells (m_model pf))) pf.
End Engine.

(** ** Vocabulary of the specification *)

Definition in_bounds (gm : GridModel) (p : position) : Prop :=
  fst p < m_rows gm /\ snd p < m_cols gm.

(** The type of the cell at [p]. *)
Definition cell (gm : GridModel) (p : position) : CellType :=
  get2 Normal (m_grid gm) (fst p) (snd p).

(** What the constructor establishes and every member function keeps: the
    dimensions fit [std::uint8_t], [m_grid] is [m_rows] by [m_cols], and a
    tracked position is [{101, 101}] or the coordinates of a cell. *)
Definition well_formed (gm : GridModel) : Prop :=
  m_rows gm < 256 /\ m_cols gm < 256 /\
  shape (m_rows gm) (m_cols gm) (m_grid gm) /\
  (m_start gm = no_position \/ in_bounds gm (m_start gm)) /\
  (m_goal gm = no_position \/ in_bounds gm (m_goal gm)).

(** The grid has its start (goal): the tracked position is a cell, and that
    cell has type [Start] ([Goal]). *)
Definition start_set (gm : GridModel) : Prop :=
  in_bounds gm (m_start gm) /\ cell gm (m_start gm) = Start.

Definition goal_set (gm : GridModel) : Prop :=
  in_bounds gm (m_goal gm) /\ cell gm (m_goal gm) = Goal.

Definition at_most_one (gm : GridModel) (t : CellType) : Prop :=
  forall p q, in_bounds gm p -> in_bounds gm q ->
    cell gm p = t -> cell gm q = t -> p = q.

(** The tracked position [pos] agrees with the cells of type [t]: absent
    exactly when there is none, and otherwise at a cell of that type. *)
Definition tracks (gm : GridModel) (pos : position) (t : CellType) : Prop :=
  (pos = no_position <-> forall p, in_bounds gm p -> cell gm p <> t) /\
  (pos <> no_position -> in_bounds gm pos /\ cell gm pos = t).

Definition special_positions_consistent (gm : GridModel) : Prop :=
  at_most_one gm Start /\ at_most_one gm Goal /\
  tracks gm (startPosition gm) Start /\ tracks gm (goalPosition gm) Goal.

(** Four-directional neighbours. *)
Definition adjacent (p q : position) : Prop :=
  (Z.abs (Z.of_N (fst p) - Z.of_N (fst q))
   + Z.abs (Z.of_N (snd p) - Z.of_N (snd q)) = 1)%Z.

Definition passable (gm : GridModel) (q : position) : Prop :=
  in_bounds gm q /\ cell gm q <> Wall.

(** [linked gm p l]: the cells of [l] continue a walk standing at [p], each
    one a passable neighbour of the one before. *)
Fixpoint linked (gm : GridModel) (p : position) (l : list position) : Prop :=
  match l with
  | [] => True
  | q :: l' => adjacent p q /\ passable gm q /\ linked gm q l'
  end.

(** A four-directionally connected path from [a] to [b]. *)
Definition is_path (gm : GridModel) (a b : position) (p : list position) : Prop :=
  exists l, p = a :: l /\ linked gm a l /\ List.last l a = b.

(** The sum of the step costs of the cells of [l], each keyed by its type. *)
Definition sum_costs (gm : GridModel) (l : list position) : double :=
  fold_right (fun q acc => dadd (getCost (cell gm q)) acc) (Half 0) l.

(** The cost of the path [p0, p1, ..., pn]: the step costs of [p1 .. pn]. *)
Definition path_cost (gm : GridModel) (p : list position) : double :=
  sum_costs gm (tl p).

(** The result of [findPath] on a freshly constructed [Pathfinder], as
    [MainWindow] calls it. *)
Definition find (PQ : PriorityQueue) (gm : GridModel) : signal :=
  fst (findPath (Pathfinder_new gm)).

(** ** Vocabulary of the proofs *)

Definition pos_of (e : Node.t) : position := (Node.row e, Node.col e).

Definition cost_at (pf : Pathfinder) (n : position) : double :=
  get2 Infinity (m_costGrid pf) (fst n) (snd n).

Definition visited_at (pf : Pathfinder) (n : position) : bool :=
  get2 false (m_visited pf) (fst n) (snd n).

Definition parent_at (pf : Pathfinder) (n : position) : position :=
  get2 no_position (m_previous pf) (fst n) (snd n).

(** A finite double, counted in halves. *)
Definition halves (d : double) : Z :=
  match d with Half h => h | Infinity => 0%Z end.

(** The cost of a step onto [n], in halves. *)
Definition step (gm : GridModel) (n : position) : Z :=
  halves (getCost (cell gm n)).

Definition manhattan (p q : position) : Z :=
  (Z.abs (Z.of_N (fst p) - Z.of_N (fst q))
   + Z.abs (Z.of_N (snd p) - Z.of_N (snd q)))%Z.

(** [n] is the neighbour of [u] in direction [i]. *)
Definition is_neighbour (u : position) (i : nat) (n : position) : Prop :=
  Z.of_N (fst n) = (Z.of_N (fst u) + dr i)%Z /\
  Z.of_N (snd n) = (Z.of_N (snd u) + dc i)%Z.

(** [walk gm a b k]: some path from [a] to [b] costs [k] halves. *)
Inductive walk (gm : GridModel) (a : position) : position -> Z -> Prop :=
| walk_here : walk gm a a 0
| walk_step p q k :
    walk gm a p k -> adjacent p q -> passable gm q ->
    walk gm a q (k + step gm q).

(** The sum of the step costs of [l], in halves. *)
Definition sum_steps (gm : GridModel) (l : list position) : Z :=
  fold_right (fun q acc => (step gm q + acc)%Z) 0%Z l.

(** Cells not yet visited. *)
Fixpoint unvisited_in (line : list bool) : nat :=
  match line with
  | [] => 0
  | b :: line' => (if b then 0 else 1) + unvisited_in line'
  end.

Fixpoint unvisited (v : list (list bool)) : nat :=
  match v with
  | [] => 0
  | line :: v' => unvisited_in line + unvisited v'
  end.

(** The model after [updateSpecialPosition], in one expression. *)
Definition moved (pos : position_ref) (r c : N) (t : CellType) (gm : GridModel) : GridModel :=
  write_cell r c t
    (ref_write pos (r, c)
       (if decide (ref_read pos gm = no_position) then gm
        else write_cell (fst (ref_read pos gm)) (snd (ref_read pos gm)) Normal gm)).

(** No cell has the coordinates [{101, 101}]. *)
Definition sentinel_outside (gm : GridModel) : Prop :=
  m_rows gm <= 101 \/ m_cols gm <= 101.

(** Every cell of type [Start] ([Goal]) is the tracked one. *)
Definition special_cells_tracked (gm : GridModel) : Prop :=
  (forall p, in_bounds gm p -> cell gm p = Start -> p = startPosition gm) /\
  (forall p, in_bounds gm p -> cell gm p = Goal -> p = goalPosition gm).

(** The invariant of [setCellState] on a grid without a cell at
    [{101, 101}]. *)
Definition tracked_inv (gm : GridModel) : Prop :=
  shape (m_rows gm) (m_cols gm) (m_grid gm) /\
  (m_start gm = no_position \/ in_bounds gm (m_start gm)) /\
  (m_goal gm = no_position \/ in_bounds gm (m_goal gm)) /\
  sentinel_outside gm /\ special_cells_tracked gm.

(** A grid without a wall, checked cell by cell. *)
Definition wall_free (gm : GridModel) : bool :=
  forallb (forallb (fun c => negb (CellType_eqb c Wall))) (m_grid gm).

(** The part of a parent chain that [reconstructPath] collects: it stops at
    the first position whose row is 101. *)
Fixpoint cut (l : list position) : list position :=
  match l with
  | [] => []
  | m :: l' => if fst m =? 101 then [] else m :: cut l'
  end.

(** The quantity that every iteration of the [while] loop lowers. *)
Definition measure (pf : Pathfinder) : nat :=
  length (m_queue pf) + 4 * unvisited (m_visited pf).

(** ** The invariants of the search *)

Section Invariants.
Context {PQ : PriorityQueue}.
Variable gm : GridModel.

Local Abbreviation s := (m_start gm).
Local Abbreviation t := (m_goal gm).

(** The cost table and the parent table form a tree rooted at the start:
    a cell with a finite cost other than the start has a parent, one step
    cheaper by the cell's own step cost. *)
Record tree (pf : Pathfinder) : Prop := {
  tree_model : m_model pf = gm;
  tree_cost_shape : shape (m_rows gm) (m_cols gm) (m_costGrid pf);
  tree_prev_shape : shape (m_rows gm) (m_cols gm) (m_previous pf);
  tree_start : cost_at pf s = Half 0;
  tree_start_parent : parent_at pf s = no_position;
  tree_nonneg : forall n c,
    in_bounds gm n -> cost_at pf n = Half c -> (0 <= c)%Z;
  tree_parent : forall n c,
    in_bounds gm n -> cost_at pf n = Half c -> n <> s ->
    in_bounds gm (parent_at pf n) /\ adjacent (parent_at pf n) n /\
    passable gm n /\
    exists cp, cost_at pf (parent_at pf n) = Half cp /\ c = (cp + step gm n)%Z
}.

(** The invariant of the [while] loop.  While the cell [u] is being
    expanded, [D] holds of the neighbours already looked at; between
    iterations [D] is everything. *)
Record inv (u : position) (D : position -> Prop) (pf : Pathfinder) : Prop := {
  inv_tree : tree pf;
  inv_visited_shape : shape (m_rows gm) (m_cols gm) (m_visited pf);
  inv_queue : forall e, In e (m_queue pf) ->
    in_bounds gm (pos_of e) /\
    exists ge c, Node.g e = Half ge /\
      Node.f e = Half (ge + manhattan (pos_of e) t) /\
      cost_at pf (pos_of e) = Half c /\ (c <= ge)%Z;
  inv_optimal : forall n, in_bounds gm n -> visited_at pf n = true ->
    exists c, cost_at pf n = Half c /\ forall k, walk gm s n k -> (c <= k)%Z;
  inv_expanded : forall v n,
    in_bounds gm v -> visited_at pf v = true ->
    adjacent v n -> passable gm n -> (v <> u \/ D n) ->
    exists cv cn, cost_at pf v = Half cv /\ cost_at pf n = Half cn /\
                  (cn <= cv + step gm n)%Z;
  inv_frontier : forall n c,
    in_bounds gm n -> visited_at pf n = false -> cost_at pf n = Half c ->
    exists e, In e (m_queue pf) /\ pos_of e = n /\ Node.g e = Half c;
  inv_goal : visited_at pf t = false;
  inv_parent_visited : forall n c,
    in_bounds gm n -> cost_at pf n = Half c -> n <> s ->
    visited_at pf (parent_at pf n) = true
}.

Definition loop_inv (pf : Pathfinder) : Prop := inv s (fun _ => True) pf.

(** The parent chain of a cell, from the cell back to the start. *)
Inductive chain (pf : Pathfinder) : position -> list position -> Prop :=
| chain_start : chain pf s [s]
| chain_step n l :
    n <> s -> chain pf (parent_at pf n) l -> chain pf n (n :: l).

(** What an iteration that finds the goal leaves behind. *)
Definition found (fuel_path : nat) (r : PathResult) (pf : Pathfinder) : Prop :=
  tree pf /\
  exists c, cost_at pf t = Half c /\ totalCost r = Half c /\
            (forall k, walk gm s t k -> (c <= k)%Z) /\
            reconstructPath fuel_path pf t = Some (path r).

(** The parent chain of the goal was longer than the budget. *)
Definition chain_too_long (fuel_path : nat) (pf : Pathfinder) : Prop :=
  tree pf /\ (exists c, cost_at pf t = Half c) /\
  reconstructPath fuel_path pf t = None.

(** Every cell of the grid, row by row. *)
Definition all_cells : list position :=
  flat_map (fun r => map (fun c => (N.of_nat r, N.of_nat c))
                         (seq 0 (N.to_nat (m_cols gm))))
           (seq 0 (N.to_nat (m_rows gm))).

(** The states in which the condition of the [while] loop is evaluated,
    from the state [pf] in which the loop is entered. *)
Inductive loop_head (fuel_path : nat) (pf : Pathfinder) : Pathfinder -> Prop :=
| loop_head_first : loop_head fuel_path pf pf
| loop_head_next pf' cur rest pf'' :
    loop_head fuel_path pf pf' ->
    top_pop (m_queue pf') = Some (cur, rest) ->
    loop_body fuel_path t cur (with_queue rest pf') = (Fallthrough, pf'') ->
    loop_head fuel_path pf pf''.

End Invariants.

Arguments tree_model {gm pf}.
Arguments tree_cost_shape {gm pf}.
Arguments tree_prev_shape {gm pf}.
Arguments tree_start {gm pf}.
Arguments tree_start_parent {gm pf}.
Arguments tree_nonneg {gm pf}.
Arguments tree_parent {gm pf}.
Arguments inv_tree {gm u D pf}.
Arguments inv_visited_shape {gm u D pf}.
Arguments inv_queue {gm u D pf}.
Arguments inv_optimal {gm u D pf}.
Arguments inv_expanded {gm u D pf}.
Arguments inv_frontier {gm u D pf}.
Arguments inv_goal {gm u D pf}.
Arguments inv_parent_visited {gm u D pf}.

(** ** GridView and MainWindow: the callers of the model and the engine *)

(** [std::size_t] counters are [nat]: the only one in the program,
    [m_currentAnimationStep], is incremented only while it is below the
    size of a vector, so it never wraps.  [QTimer] is its [isActive] flag;
    each [timeout] signal of an active timer runs the connected slot.
    [update()] only schedules a repaint and is left out. *)
Record GridView := mkGridView {
  m_currentPath : list position;
  m_animatingPath : list position;
  m_currentAnimationStep : nat;
  m_animationTimer : bool
}.

Definition GridView_new : GridView :=
  {| m_currentPath := []; m_animatingPath := [];
     m_currentAnimationStep := 0; m_animationTimer := false |}.

(** [GridView::setPath] *)
Definition setPath (p : list position) (v : GridView) : GridView :=
  {| m_currentPath := p; m_animatingPath := p;
     m_currentAnimationStep := 0; m_animationTimer := true |}.

(** [GridView::advanceAnimation] *)
Definition advanceAnimation (v : GridView) : GridView :=
  if (m_currentAnimationStep v <? length (m_animatingPath v))%nat
  then {| m_currentPath := m_currentPath v;
          m_animatingPath := m_animatingPath v;
          m_currentAnimationStep := S (m_currentAnimationStep v);
          m_animationTimer := m_animationTimer v |}
  else {| m_currentPath := m_currentPath v;
          m_animatingPath := m_animatingPath v;
          m_currentAnimationStep := m_currentAnimationStep v;
          m_animationTimer := false |}.

(** One [timeout] of [m_animationTimer], connected to [advanceAnimation]. *)
Definition timeout (v : GridView) : GridView :=
  if m_animationTimer v then advanceAnimation v else v.

(** The slot connected to [GridModel::gridReset] in [makeConnections]. *)
Definition on_gridReset (v : GridView) : GridView :=
  {| m_currentPath := []; m_animatingPath := [];
     m_currentAnimationStep := m_currentAnimationStep v;
     m_animationTimer := m_animationTimer v |}.

(** [m_cellSize], set to 10 by the constructor. *)
Definition m_cellSize : Z := 10.

(** [QPoint(p.second * cs + cs/2, p.first * cs + cs/2)] *)
Definition centre (p : position) : Z * Z :=
  (Z.of_N (snd p) * m_cellSize + m_cellSize / 2,
   Z.of_N (fst p) * m_cellSize + m_cellSize / 2)%Z.

(** The [for] loop of [paintEvent] over the path, from index [i]: the
    points it passes to [lineTo]. *)
Fixpoint line_loop (fuel i : nat) (v : GridView) : list (Z * Z) :=
  match fuel with
  | O => []
  | S fuel' =>
      if (i <? m_currentAnimationStep v)%nat && (i <? length (m_animatingPath v))%nat
      then centre (nth i (m_animatingPath v) no_position)
             :: line_loop fuel' (S i) v
      else []
  end.

(** The points of the polyline that [paintEvent] draws: [moveTo] the first
    cell of the path, then the [lineTo] of the loop; nothing when the path
    is empty or no step has been animated. *)
Definition painted_path (v : GridView) : list (Z * Z) :=
  match m_animatingPath v with
  | first :: _ =>
      if (0 <? m_currentAnimationStep v)%nat
      then centre first :: line_loop (length (m_animatingPath v)) 1 v
      else []
  | [] => []
  end.

(** The fill colours of [paintEvent]: Qt's global colours by name, and
    [QColor(139, 69, 19)]. *)
Inductive QColor :=
| Qt_white
| Qt_darkGray
| Qt_yellow
| Qt_green
| Qt_red
| rgb (r g b : N).

Definition color_map : list (CellType * QColor) :=
  [(Normal, Qt_white); (Wall, Qt_darkGray); (Rough, rgb 139 69 19);
   (Boost, Qt_yellow); (Start, Qt_green); (Goal, Qt_red)].

(** [color_map.find(type)]; [None] for [end()]. *)
Fixpoint find_color (type : CellType) (m : list (CellType * QColor))
    : option QColor :=
  match m with
  | [] => None
  | (k, c) :: m' => if CellType_eqb k type then Some c else find_color type m'
  end.

(** [QRect(x, y, width, height)] *)
Definition QRect : Type := Z * Z * Z * Z.

(** The body of the inner loop over the cells: the rectangle it fills and
    the colour it fills it with. *)
Definition fill_cell (row col : Z) : M GridModel (QRect * QColor) :=
  (let* type := cellState (u8 row) (u8 col) in
   ret ((col * m_cellSize, row * m_cellSize, m_cellSize, m_cellSize)%Z,
        match find_color type color_map with
        | Some c => c
        | None => Qt_white
        end))%M.

(** [for (int i = from; i < from + n; ++i)], collecting what the body
    gives. *)
Fixpoint for_int {S A} (n : nat) (i : Z) (body : Z -> M S A) : M S (list A) :=
  match n with
  | O => ret []
  | S n' =>
      (let* x := body i in
       let* xs := for_int n' (i + 1)%Z body in
       ret (x :: xs))%M
  end.

(** The two loops of [paintEvent] over the cells: the fills, row by row. *)
Definition paint_cells : M GridModel (list (list (QRect * QColor))) :=
  fun gm =>
    for_int (N.to_nat (rowCount gm)) 0%Z
      (fun row => for_int (N.to_nat (colCount gm)) 0%Z (fun col => fill_cell row col))
      gm.

(** [qreal] is [double], and a pointer position is any [double]: a
    binary64 float.  Conversion of an [int] to [double] (exact, every
    [int] is a binary64). *)
Definition int_to_double (z : Z) : PrimFloat.float :=
  if (z <? 0)%Z
  then PrimFloat.opp (PrimFloat.of_uint63 (Uint63.of_Z (- z)))
  else PrimFloat.of_uint63 (Uint63.of_Z z).

(** Conversion of a [double] to [int]: the value truncated toward zero;
    [None] where C++ leaves the conversion undefined (a NaN, an infinity,
    or a truncated value outside the 32 bits of [int]). *)
Definition double_to_int (d : PrimFloat.float) : option Z :=
  match FloatOps.Prim2SF d with
  | SpecFloat.S754_zero _ => Some 0%Z
  | SpecFloat.S754_finite s m e =>
      let a := (if (0 <=? e)%Z then Z.pos m * 2 ^ e else Z.pos m / 2 ^ (- e))%Z in
      let v := (if s then - a else a)%Z in
      if ((- 2 ^ 31 <=? v)%Z && (v <? 2 ^ 31)%Z)%bool then Some v else None
  | _ => None
  end.

(** The row and the column that [handleMouseEvent] computes for a pointer
    at ([x], [y]): [int col = position().x() / m_cellSize] and
    [int row = position().y() / m_cellSize], divisions of [double]s
    converted to [int]. *)
Definition pointer_cell (x y : PrimFloat.float) : option (Z * Z) :=
  match double_to_int (PrimFloat.div x (int_to_double m_cellSize)),
        double_to_int (PrimFloat.div y (int_to_double m_cellSize)) with
  | Some col, Some row => Some (row, col)
  | _, _ => None
  end.

(** The [if] of [handleMouseEvent] on the [int] row and column: the
    arguments of the [cellClicked] signal it emits, if it emits one.  The
    signal's parameters are [uint8_t]. *)
Definition clicked_cell (row col : Z) (gm : GridModel) : option (N * N) :=
  if (0 <=? row)%Z && (row <? Z.of_N (rowCount gm))%Z
     && (0 <=? col)%Z && (col <? Z.of_N (colCount gm))%Z
  then Some (u8 row, u8 col)
  else None.

(** [GridView::handleMouseEvent] for a pointer at ([x], [y]): the signal it
    emits, if any; the outer [None] is undefined behaviour. *)
Definition handleMouseEvent (x y : PrimFloat.float) (gm : GridModel)
    : option (option (N * N)) :=
  match pointer_cell x y with
  | Some (row, col) => Some (clicked_cell row col gm)
  | None => None
  end.

(** The text of [m_costLabel]: "Path cost: --", "Optimal path cost: c" or
    "No valid path found!". *)
Inductive label :=
| PathCostNone
| OptimalPathCost (c : double)
| NoValidPathFound.

Record MainWindow := mkMainWindow {
  mw_model : GridModel;
  mw_view : GridView;
  m_currentTool : CellType;
  m_costLabel : label
}.

(** [MainWindow::MainWindow] *)
Definition MainWindow_new : MainWindow :=
  {| mw_model := GridModel_new 100 100; mw_view := GridView_new;
     m_currentTool := Normal; m_costLabel := PathCostNone |}.

(** A pointer event for which [handleMouseEvent] computed the [int] row
    and column [row], [col]: its test, and the slot [MainWindow] connects
    to [cellClicked]. *)
Definition mouse_event (row col : Z) : M MainWindow unit :=
  fun w =>
    match clicked_cell row col (mw_model w) with
    | Some (r, c) =>
        let '(res, gm') := setCellState r c (m_currentTool w) (mw_model w) in
        (res, {| mw_model := gm'; mw_view := mw_view w;
                 m_currentTool := m_currentTool w;
                 m_costLabel := m_costLabel w |})
    | None => (inr tt, w)
    end.

(** A pointer event at ([x], [y]) (a press, or a move with the left button
    held): [handleMouseEvent], and the slot [MainWindow] connects to
    [cellClicked]; [None] where the behaviour is undefined. *)
Definition pointer_event (x y : PrimFloat.float) (w : MainWindow)
    : option ((exn + unit) * MainWindow) :=
  match handleMouseEvent x y (mw_model w) with
  | Some (Some (r, c)) =>
      let '(res, gm') := setCellState r c (m_currentTool w) (mw_model w) in
      Some (res, {| mw_model := gm'; mw_view := mw_view w;
                    m_currentTool := m_currentTool w;
                    m_costLabel := m_costLabel w |})
  | Some None => Some (inr tt, w)
  | None => None
  end.

(** A tool radio button toggled on. *)
Definition select_tool (type : CellType) (w : MainWindow) : MainWindow :=
  {| mw_model := mw_model w; mw_view := mw_view w;
     m_currentTool := type; m_costLabel := m_costLabel w |}.

(** The "Clear Grid" button; [clearGrid] emits [gridReset], which the view
    is connected to. *)
Definition on_clear (w : MainWindow) : MainWindow :=
  {| mw_model := exec clearGrid (mw_model w);
     mw_view := on_gridReset (mw_view w);
     m_currentTool := m_currentTool w;
     m_costLabel := PathCostNone |}.

(** [a >= b] *)
Definition dge (a b : double) : bool := negb (dlt a b).

(** How a click on "Find Path" ends: with the warning box, with a result
    shown, or by the way [findPath] ended when it did not return. *)
Inductive find_click :=
| Warned
| Shown
| Aborted (how : signal).

(** The "Find Path" button. *)
Definition on_find_path {PQ : PriorityQueue} (w : MainWindow)
    : find_click * MainWindow :=
  let start := startPosition (mw_model w) in
  let goal := goalPosition (mw_model w) in
  if (fst start =? 101) || (fst goal =? 101)
  then (Warned, w)
  else
    match fst (findPath (Pathfinder_new (mw_model w))) with
    | Return result =>
        (Shown,
         {| mw_model := mw_model w;
            mw_view := setPath (path result) (mw_view w);
            m_currentTool := m_currentTool w;
            m_costLabel := if dge (totalCost result) (Half 0)
                           then OptimalPathCost (totalCost result)
                           else NoValidPathFound |})
    | how => (Aborted how, w)
    end.

(** What the window reacts to: a pointer event on the grid (a press, or a
    move with the left button held) with the row and column computed from
    it, a tool button toggled on, the two push buttons, and a [timeout] of
    the animation timer. *)
Inductive event :=
| Pointer (row col : Z)
| Toggle (type : CellType)
| ClearGrid
| FindPath
| Tick.

(** The slot run for an event; [None] when an exception leaves the slot or
    [findPath] does not return. *)
Definition handle {PQ : PriorityQueue} (e : event) (w : MainWindow)
    : option MainWindow :=
  match e with
  | Pointer row col =>
      match mouse_event row col w with
      | (inr _, w') => Some w'
      | (inl _, _) => None
      end
  | Toggle type => Some (select_tool type w)
  | ClearGrid => Some (on_clear w)
  | FindPath =>
      match on_find_path w with
      | (Aborted _, _) => None
      | (_, w') => Some w'
      end
  | Tick =>
      Some {| mw_model := mw_model w; mw_view := timeout (mw_view w);
              m_currentTool := m_currentTool w; m_costLabel := m_costLabel w |}
  end.

Fixpoint run_events {PQ : PriorityQueue} (es : list event) (w : MainWindow)
    : option MainWindow :=
  match es with
  | [] => Some w
  | e :: es' =>
      match handle e w with
      | Some w' => run_events es' w'
      | None => None
      end
  end.

(** [m_model] is a reference to the model of the window: an engine that
    is kept reads the model as its owner has changed it since. *)
Definition with_model (gm : GridModel) (pf : Pathfinder) : Pathfinder :=
  {| m_model := gm; m_costGrid := m_costGrid pf; m_visited := m_visited pf;
     m_previous := m_previous pf; m_queue := m_queue pf |}.

(** ** Vocabulary of the further properties *)

(** The invariant of [setCellState] with both directions of the agreement
    between tracked positions and cells. *)
Definition agreeing (gm : GridModel) : Prop :=
  tracked_inv gm /\
  (m_start gm <> no_position -> cell gm (m_start gm) = Start) /\
  (m_goal gm <> no_position -> cell gm (m_goal gm) = Goal).

(** A call that does not paint over a special cell with another type: a
    plain type goes to a cell that is neither the tracked start nor the
    tracked goal, [Start] does not go to the tracked goal, and [Goal] does
    not go to the tracked start. *)
Definition spares_special (gm : GridModel) (c : call) : Prop :=
  let '(row, col, type) := c in
  match type with
  | Start => (row, col) <> m_goal gm
  | Goal => (row, col) <> m_start gm
  | _ => (row, col) <> m_start gm /\ (row, col) <> m_goal gm
  end.

Fixpoint sparing (cs : list call) (gm : GridModel) : Prop :=
  match cs with
  | [] => True
  | c :: cs' =>
      spares_special gm c /\
      sparing cs' (let '(row, col, type) := c in exec (setCellState row col type) gm)
  end.

(** What a call of [setCellState] inside the grid does, cell by cell. *)
Definition after_set (gm : GridModel) (row col : N) (type : CellType)
    (p : position) : CellType :=
  if decide (p = (row, col)) then type
  else if decide (type = Start /\ m_start gm <> no_position /\ p = m_start gm)
       then Normal
  else if decide (type = Goal /\ m_goal gm <> no_position /\ p = m_goal gm)
       then Normal
  else cell gm p.

(** The path of a result, for a search that returned. *)
Definition path_of (sig : signal) : list position :=
  match sig with Return r => path r | _ => [] end.

(** Another queue policy: among the entries of least [f], the one pushed
    first. *)
Definition extract_min_oldest (q : list Node.t) : option (Node.t * list Node.t) :=
  match extract_min (rev q) with
  | Some (n, rest) => Some (n, rev rest)
  | None => None
  end.

(** * Properties *)

Ltac conjs := repeat match goal with |- _ /\ _ => split end.

(** ** Two-dimensional vectors *)

Section Vec2_facts.
Context {A : Type}.
Implicit Types (v : list (list A)) (x d : A) (r c : N).

Lemma shape_make2 rows cols x : shape rows cols (make2 rows cols x).
Proof.
  split.
  - apply length_replicate.
  - intros i line H. apply lookup_replicate in H as [-> _].
    apply length_replicate.
Qed.

Lemma shape_set2 rows cols v r c x :
  shape rows cols v -> shape rows cols (set2 v r c x).
Proof.
  intros [Hl Hr]. split.
  - unfold set2. rewrite length_alter. exact Hl.
  - intros i line. unfold set2.
    destruct (decide (N.to_nat r = i)) as [<-|Hne].
    + rewrite list_lookup_alter_eq.
      destruct (v !! N.to_nat r) as [l0|] eqn:E; simpl; [|discriminate].
      intros [= <-]. rewrite length_insert. eauto.
    + rewrite list_lookup_alter_ne by exact Hne. eauto.
Qed.

Lemma at2_make2 rows cols x r c :
  r < rows -> c < cols -> at2 (make2 rows cols x) r c = Some x.
Proof.
  intros Hr Hc. unfold at2, make2.
  rewrite lookup_replicate_2 by lia.
  apply lookup_replicate_2. lia.
Qed.

Lemma at2_inside rows cols v r c :
  shape rows cols v -> r < rows -> c < cols -> is_Some (at2 v r c).
Proof.
  intros [Hl Hr] Hrr Hcc. unfold at2.
  destruct (lookup_lt_is_Some_2 v (N.to_nat r)) as [line E]; [lia|].
  rewrite E. apply lookup_lt_is_Some_2. rewrite (Hr _ _ E). lia.
Qed.

Lemma at2_bounds rows cols v r c x :
  shape rows cols v -> at2 v r c = Some x -> r < rows /\ c < cols.
Proof.
  intros [Hl Hr]. unfold at2.
  destruct (v !! N.to_nat r) as [line|] eqn:E; [|discriminate].
  intros H. apply lookup_lt_Some in H. apply lookup_lt_Some in E as E'.
  rewrite (Hr _ _ E) in H. lia.
Qed.

Lemma at2_set2_eq rows cols v r c x :
  shape rows cols v -> r < rows -> c < cols ->
  at2 (set2 v r c x) r c = Some x.
Proof.
  intros [Hl Hr] Hrr Hcc. unfold at2, set2.
  rewrite list_lookup_alter_eq.
  destruct (lookup_lt_is_Some_2 v (N.to_nat r)) as [line E]; [lia|].
  rewrite E. simpl. apply list_lookup_insert_eq.
  rewrite (Hr _ _ E). lia.
Qed.

Lemma at2_set2_ne v r c x r' c' :
  (r, c) <> (r', c') -> at2 (set2 v r c x) r' c' = at2 v r' c'.
Proof.
  intros Hne. unfold at2, set2.
  destruct (decide (N.to_nat r = N.to_nat r')) as [E|E].
  - rewrite <- E, list_lookup_alter_eq.
    destruct (v !! N.to_nat r) as [line|]; simpl; [|reflexivity].
    apply list_lookup_insert_ne. intros E'.
    apply Hne. f_equal; lia.
  - rewrite list_lookup_alter_ne by exact E. reflexivity.
Qed.

Lemma get2_set2_eq rows cols d v r c x :
  shape rows cols v -> r < rows -> c < cols ->
  get2 d (set2 v r c x) r c = x.
Proof.
  intros. unfold get2. erewrite at2_set2_eq; eauto.
Qed.

Lemma get2_set2_ne d v r c x r' c' :
  (r, c) <> (r', c') -> get2 d (set2 v r c x) r' c' = get2 d v r' c'.
Proof.
  intros. unfold get2. rewrite at2_set2_ne; auto.
Qed.

Lemma get2_make2 d rows cols x r c :
  r < rows -> c < cols -> get2 d (make2 rows cols x) r c = x.
Proof.
  intros. unfold get2. rewrite at2_make2; auto.
Qed.

Lemma get2_at2 rows cols d v r c :
  shape rows cols v -> r < rows -> c < cols ->
  at2 v r c = Some (get2 d v r c).
Proof.
  intros Hs Hr Hc. unfold get2.
  destruct (at2_inside _ _ _ _ _ Hs Hr Hc) as [x ->]. reflexivity.
Qed.
End Vec2_facts.

(** ** GridModel *)

Lemma cell_write_cell gm r c t p :
  shape (m_rows gm) (m_cols gm) (m_grid gm) ->
  r < m_rows gm -> c < m_cols gm ->
  cell (write_cell r c t gm) p = if decide (p = (r, c)) then t else cell gm p.
Proof.
  intros Hs Hr Hc. unfold cell, write_cell. simpl.
  destruct (decide (p = (r, c))) as [->|Hne].
  - simpl. eapply get2_set2_eq; eauto.
  - apply get2_set2_ne. destruct p. simpl. congruence.
Qed.

Lemma validateCoordinates_throws gm row col :
  m_rows gm <= row \/ m_cols gm <= col ->
  validateCoordinates row col gm = (inl OutOfRange, gm).
Proof.
  intros H. unfold validateCoordinates.
  destruct (orb_true_iff (m_rows gm <=? row) (m_cols gm <=? col)) as [_ ->];
    [reflexivity|].
  rewrite !N.leb_le. exact H.
Qed.

Lemma validateCoordinates_passes gm row col :
  row < m_rows gm -> col < m_cols gm ->
  validateCoordinates row col gm = (inr tt, gm).
Proof.
  intros Hr Hc. unfold validateCoordinates.
  destruct (N.leb_spec (m_rows gm) row); [lia|].
  destruct (N.leb_spec (m_cols gm) col); [lia|]. reflexivity.
Qed.

Lemma cellState_inside gm row col :
  row < m_rows gm -> col < m_cols gm ->
  cellState row col gm = (inr (cell gm (row, col)), gm).
Proof.
  intros Hr Hc. unfold cellState, bind.
  rewrite validateCoordinates_passes by assumption. reflexivity.
Qed.

Lemma setCellState_inside gm row col type :
  row < m_rows gm -> col < m_cols gm ->
  exists gm', setCellState row col type gm = (inr tt, gm').
Proof.
  intros Hr Hc. unfold setCellState, bind.
  rewrite validateCoordinates_passes by assumption.
  destruct type; simpl; unfold updateSpecialPosition, bind, gets, modify, ret;
    simpl; try (eexists; reflexivity).
  - destruct (m_start gm) as [r0 c0].
    destruct (negb (r0 =? 101) || negb (c0 =? 101)); eexists; reflexivity.
  - destruct (m_goal gm) as [r0 c0].
    destruct (negb (r0 =? 101) || negb (c0 =? 101)); eexists; reflexivity.
Qed.

(** A plain type written over a cell leaves both tracked positions as they
    were, whatever the cell held. *)
Lemma setCellState_plain gm row col type :
  row < m_rows gm -> col < m_cols gm ->
  type <> Start -> type <> Goal ->
  setCellState row col type gm = (inr tt, write_cell row col type gm).
Proof.
  intros Hr Hc H1 H2. unfold setCellState, bind.
  rewrite validateCoordinates_passes by assumption.
  destruct type; try congruence; reflexivity.
Qed.

(** C8 (confirmed): [cellState] and [setCellState] throw [OutOfRange]
    exactly when [row >= rows] or [col >= cols]; a call that throws leaves
    the whole model, both tracked positions included, as it was; and a call
    that does not throw reads the cell at [row], [col] itself (no coordinate
    is clamped into range). *)
Theorem C8_out_of_range_exactly_outside (gm : GridModel) (row col : N) (type : CellType) :
  (fst (cellState row col gm) = inl OutOfRange
     <-> (m_rows gm <= row \/ m_cols gm <= col)) /\
  (fst (setCellState row col type gm) = inl OutOfRange
     <-> (m_rows gm <= row \/ m_cols gm <= col)) /\
  (m_rows gm <= row \/ m_cols gm <= col ->
     cellState row col gm = (inl OutOfRange, gm) /\
     setCellState row col type gm = (inl OutOfRange, gm)) /\
  (row < m_rows gm /\ col < m_cols gm ->
     cellState row col gm = (inr (get2 Normal (m_grid gm) row col), gm) /\
     fst (setCellState row col type gm) = inr tt).
Proof.
  assert (Hout : m_rows gm <= row \/ m_cols gm <= col ->
     cellState row col gm = (inl OutOfRange, gm) /\
     setCellState row col type gm = (inl OutOfRange, gm)).
  { intros H. unfold cellState, setCellState, bind.
    rewrite validateCoordinates_throws by exact H. split; reflexivity. }
  assert (Hin : row < m_rows gm /\ col < m_cols gm ->
     cellState row col gm = (inr (get2 Normal (m_grid gm) row col), gm) /\
     fst (setCellState row col type gm) = inr tt).
  { intros [Hr Hc]. split.
    - apply cellState_inside; assumption.
    - destruct (setCellState_inside gm row col type Hr Hc) as [gm' ->].
      reflexivity. }
  repeat split; try (apply Hout; assumption); try (apply Hin; assumption).
  - intros H.
    destruct (N.le_gt_cases (m_rows gm) row) as [?|Hr]; [auto|].
    destruct (N.le_gt_cases (m_cols gm) col) as [?|Hc]; [auto|].
    destruct Hin as [E _]; [split; assumption|]. rewrite E in H. discriminate.
  - intros H. destruct (Hout H) as [-> _]. reflexivity.
  - intros H.
    destruct (N.le_gt_cases (m_rows gm) row) as [?|Hr]; [auto|].
    destruct (N.le_gt_cases (m_cols gm) col) as [?|Hc]; [auto|].
    destruct Hin as [_ E]; [split; assumption|]. rewrite E in H. discriminate.
  - intros H. destruct (Hout H) as [_ ->]. reflexivity.
Qed.

(** C3 (the code departs from the claim): on a 2 by 2 grid whose cell (0,0)
    is the start, [setCellState(0, 0, Wall)] makes the cell a wall but
    leaves the tracked start position at (0,0); it is not reset to
    [{101, 101}]. *)
Theorem C3_overwritten_start_stays_tracked :
  let gm := run_calls [(0, 0, Start)] (GridModel_new 2 2) in
  let gm' := exec (setCellState 0 0 Wall) gm in
  cell gm (0, 0) = Start /\ startPosition gm = (0, 0) /\
  cell gm' (0, 0) = Wall /\ startPosition gm' = (0, 0) /\
  startPosition gm' <> no_position.
Proof. vm_compute. repeat split; congruence. Qed.

(** What the stale position leads to: after a wall is painted over the
    start of a 1 by 2 grid, [startPosition()] still names the wall, and a
    later [setCellState(0, 1, Start)] reverts that wall to [Normal]. *)
Example stale_start_erases_wall :
  let gm := run_calls [(0, 0, Start); (0, 0, Wall)] (GridModel_new 1 2) in
  cell gm (0, 0) = Wall /\
  cell (exec (setCellState 0 1 Start) gm) (0, 0) = Normal.
Proof. vm_compute. auto. Qed.

Lemma updateSpecialPosition_moved pos r c t gm :
  updateSpecialPosition pos r c t gm = (inr tt, moved pos r c t gm).
Proof.
  unfold updateSpecialPosition, moved, bind, gets, modify, ret, no_position.
  destruct (ref_read pos gm) as [r0 c0]. simpl.
  destruct (N.eqb_spec r0 101) as [->|Hr]; destruct (N.eqb_spec c0 101) as [->|Hc];
    simpl; try case_decide; try congruence; try reflexivity.
Qed.

Lemma exec_setCellState gm r c t :
  exec (setCellState r c t) gm =
    if decide (r < m_rows gm /\ c < m_cols gm) then
      match t with
      | Start => moved ref_m_start r c t gm
      | Goal => moved ref_m_goal r c t gm
      | _ => write_cell r c t gm
      end
    else gm.
Proof.
  unfold exec, setCellState, bind.
  destruct (decide (r < m_rows gm /\ c < m_cols gm)) as [[Hr Hc]|Hn].
  - rewrite validateCoordinates_passes by assumption.
    destruct t; simpl; try reflexivity; rewrite updateSpecialPosition_moved; reflexivity.
  - rewrite validateCoordinates_throws by lia. reflexivity.
Qed.

Lemma well_formed_new rows cols :
  rows < 256 -> cols < 256 -> well_formed (GridModel_new rows cols).
Proof.
  intros Hr Hc. unfold well_formed. simpl.
  repeat split; auto; apply shape_make2.
Qed.

Lemma well_formed_setCellState gm r c t :
  well_formed gm -> well_formed (exec (setCellState r c t) gm).
Proof.
  intros (Hr & Hc & Hs & Hst & Hgo). rewrite exec_setCellState.
  destruct (decide (r < m_rows gm /\ c < m_cols gm)) as [[Hrr Hcc]|_];
    [|unfold well_formed; tauto].
  unfold well_formed, in_bounds, moved.
  destruct t; simpl; try case_decide; simpl;
    refine (conj _ (conj _ (conj _ (conj _ _)))); try assumption;
    auto using shape_set2.
Qed.

Lemma run_calls_keeps (P : GridModel -> Prop) :
  (forall gm r c t, P gm -> P (exec (setCellState r c t) gm)) ->
  forall cs gm, P gm -> P (run_calls cs gm).
Proof.
  intros Hstep cs. induction cs as [|[[r c] t] cs IH]; intros gm H; simpl; [exact H|].
  apply IH, Hstep, H.
Qed.

Lemma well_formed_run_calls rows cols cs :
  rows < 256 -> cols < 256 -> well_formed (run_calls cs (GridModel_new rows cols)).
Proof.
  intros Hr Hc. apply run_calls_keeps.
  - intros; apply well_formed_setCellState; assumption.
  - apply well_formed_new; assumption.
Qed.

Lemma shape_clear rows cols (v : list (list CellType)) :
  shape rows cols v -> shape rows cols (map (map (fun _ : CellType => Normal)) v).
Proof.
  intros [Hl Hr]. split.
  - rewrite length_map. exact Hl.
  - intros i line H. change map with (@fmap list _) in H.
    rewrite list_lookup_fmap in H.
    destruct (v !! i) as [l0|] eqn:E; [|discriminate].
    injection H as <-. rewrite length_map. eauto.
Qed.

Lemma well_formed_clearGrid gm :
  well_formed gm -> well_formed (exec clearGrid gm).
Proof.
  intros (Hr & Hc & Hs & _ & _). unfold exec, clearGrid, modify. simpl.
  refine (conj _ (conj _ (conj _ (conj _ _)))); simpl; auto using shape_clear.
Qed.

Lemma cell_cleared gm pos p :
  shape (m_rows gm) (m_cols gm) (m_grid gm) ->
  pos = no_position \/ in_bounds gm pos ->
  cell (if decide (pos = no_position) then gm
        else write_cell (fst pos) (snd pos) Normal gm) p
  = if decide (pos <> no_position /\ p = pos) then Normal else cell gm p.
Proof.
  intros Hs Hpos. destruct (decide (pos = no_position)) as [E|E].
  - case_decide; [tauto|reflexivity].
  - destruct Hpos as [?|[H1 H2]]; [congruence|].
    rewrite cell_write_cell by assumption.
    rewrite <- surjective_pairing.
    destruct (decide (p = pos)); case_decide; tauto.
Qed.

Lemma tracked_inv_setCellState gm r c t :
  tracked_inv gm -> tracked_inv (exec (setCellState r c t) gm).
Proof.
  intros (Hs & Hst & Hgo & Hout & HS & HG).
  rewrite exec_setCellState.
  destruct (decide (r < m_rows gm /\ c < m_cols gm)) as [[Hrr Hcc]|_];
    [|unfold tracked_inv, special_cells_tracked; tauto].
  assert (Hno : ~ in_bounds gm no_position).
  { unfold in_bounds, no_position, sentinel_outside in *. simpl. lia. }
  unfold startPosition, goalPosition in *.
  assert (Hplain : t <> Start -> t <> Goal -> tracked_inv (write_cell r c t gm)).
  { intros H1 H2.
    refine (conj _ (conj _ (conj _ (conj _ (conj _ _))))); simpl; auto using shape_set2.
    - intros p Hp. change (in_bounds gm p) in Hp.
      rewrite cell_write_cell by assumption.
      case_decide; [congruence|]. apply HS; assumption.
    - intros p Hp. change (in_bounds gm p) in Hp.
      rewrite cell_write_cell by assumption.
      case_decide; [congruence|]. apply HG; assumption. }
  destruct t; try (apply Hplain; congruence).
  - (* Start *)
    unfold moved. simpl.
    set (g1 := if decide (m_start gm = no_position) then gm
               else write_cell (fst (m_start gm)) (snd (m_start gm)) Normal gm).
    assert (Hd : m_rows g1 = m_rows gm /\ m_cols g1 = m_cols gm /\
                 m_start g1 = m_start gm /\ m_goal g1 = m_goal gm /\
                 shape (m_rows gm) (m_cols gm) (m_grid g1)).
    { subst g1. case_decide; simpl; auto 10 using shape_set2. }
    destruct Hd as (Hd1 & Hd2 & Hd3 & Hd4 & Hd5).
    assert (Hc : forall p, cell g1 p =
              if decide (m_start gm <> no_position /\ p = m_start gm)
              then Normal else cell gm p).
    { intros p. apply cell_cleared; assumption. }
    assert (Hib : forall p, in_bounds (write_cell r c Start (with_start (r, c) g1)) p
                            <-> in_bounds gm p).
    { intros p. unfold in_bounds. simpl. rewrite Hd1, Hd2. tauto. }
    refine (conj _ (conj _ (conj _ (conj _ (conj _ _))))).
    + simpl. rewrite Hd1, Hd2. apply shape_set2. assumption.
    + simpl (m_start _). rewrite ?Hd3.
      first [ right; apply Hib; split; assumption
            | destruct Hst; [left|right; apply Hib]; assumption ].
    + simpl (m_goal _). rewrite ?Hd4.
      first [ right; apply Hib; split; assumption
            | destruct Hgo; [left|right; apply Hib]; assumption ].
    + unfold sentinel_outside. simpl. rewrite Hd1, Hd2. exact Hout.
    + intros p Hp. apply Hib in Hp. unfold startPosition, goalPosition.
      simpl (m_start _). simpl (m_goal _). rewrite ?Hd3, ?Hd4.
      change (cell (write_cell r c Start (with_start (r, c) g1)) p = Start -> p = (r, c)).
      rewrite cell_write_cell by (simpl; rewrite ?Hd1, ?Hd2; assumption).
      destruct (decide (p = (r, c))) as [->|Hne]; [reflexivity|].
      change (cell g1 p = Start -> p = (r, c)). rewrite Hc.
      destruct (decide (m_start gm <> no_position /\ p = m_start gm)) as [?|Hn]; [congruence|]. intros Hcp.
      apply HS in Hcp; [|assumption].
      destruct (decide (m_start gm = no_position)) as [E|E]; [|tauto].
      rewrite E in Hcp. subst p. contradiction.
    + intros p Hp. apply Hib in Hp. unfold startPosition, goalPosition.
      simpl (m_start _). simpl (m_goal _). rewrite ?Hd3, ?Hd4.
      change (cell (write_cell r c Start (with_start (r, c) g1)) p = Goal -> p = m_goal gm).
      rewrite cell_write_cell by (simpl; rewrite ?Hd1, ?Hd2; assumption).
      destruct (decide (p = (r, c))) as [->|Hne]; [discriminate|].
      change (cell g1 p = Goal -> p = m_goal gm). rewrite Hc.
      destruct (decide (m_start gm <> no_position /\ p = m_start gm)) as [?|Hn]; [congruence|]. apply HG; assumption.
  - (* Goal *)
    unfold moved. simpl.
    set (g1 := if decide (m_goal gm = no_position) then gm
               else write_cell (fst (m_goal gm)) (snd (m_goal gm)) Normal gm).
    assert (Hd : m_rows g1 = m_rows gm /\ m_cols g1 = m_cols gm /\
                 m_start g1 = m_start gm /\ m_goal g1 = m_goal gm /\
                 shape (m_rows gm) (m_cols gm) (m_grid g1)).
    { subst g1. case_decide; simpl; auto 10 using shape_set2. }
    destruct Hd as (Hd1 & Hd2 & Hd3 & Hd4 & Hd5).
    assert (Hc : forall p, cell g1 p =
              if decide (m_goal gm <> no_position /\ p = m_goal gm)
              then Normal else cell gm p).
    { intros p. apply cell_cleared; assumption. }
    assert (Hib : forall p, in_bounds (write_cell r c Goal (with_goal (r, c) g1)) p
                            <-> in_bounds gm p).
    { intros p. unfold in_bounds. simpl. rewrite Hd1, Hd2. tauto. }
    refine (conj _ (conj _ (conj _ (conj _ (conj _ _))))).
    + simpl. rewrite Hd1, Hd2. apply shape_set2. assumption.
    + simpl (m_start _). rewrite ?Hd3.
      first [ right; apply Hib; split; assumption
            | destruct Hst; [left|right; apply Hib]; assumption ].
    + simpl (m_goal _). rewrite ?Hd4.
      first [ right; apply Hib; split; assumption
            | destruct Hgo; [left|right; apply Hib]; assumption ].
    + unfold sentinel_outside. simpl. rewrite Hd1, Hd2. exact Hout.
    + intros p Hp. apply Hib in Hp. unfold startPosition, goalPosition.
      simpl (m_start _). simpl (m_goal _). rewrite ?Hd3, ?Hd4.
      change (cell (write_cell r c Goal (with_goal (r, c) g1)) p = Start -> p = m_start gm).
      rewrite cell_write_cell by (simpl; rewrite ?Hd1, ?Hd2; assumption).
      destruct (decide (p = (r, c))) as [->|Hne]; [discriminate|].
      change (cell g1 p = Start -> p = m_start gm). rewrite Hc.
      destruct (decide (m_goal gm <> no_position /\ p = m_goal gm)) as [?|Hn]; [congruence|]. apply HS; assumption.
    + intros p Hp. apply Hib in Hp. unfold startPosition, goalPosition.
      simpl (m_start _). simpl (m_goal _). rewrite ?Hd3, ?Hd4.
      change (cell (write_cell r c Goal (with_goal (r, c) g1)) p = Goal -> p = (r, c)).
      rewrite cell_write_cell by (simpl; rewrite ?Hd1, ?Hd2; assumption).
      destruct (decide (p = (r, c))) as [->|Hne]; [reflexivity|].
      change (cell g1 p = Goal -> p = (r, c)). rewrite Hc.
      destruct (decide (m_goal gm <> no_position /\ p = m_goal gm)) as [?|Hn]; [congruence|]. intros Hcp.
      apply HG in Hcp; [|assumption].
      destruct (decide (m_goal gm = no_position)) as [E|E]; [|tauto].
      rewrite E in Hcp. subst p. contradiction.
Qed.

Lemma tracked_inv_new rows cols :
  rows <= 101 \/ cols <= 101 -> tracked_inv (GridModel_new rows cols).
Proof.
  intros H.
  refine (conj _ (conj _ (conj _ (conj _ (conj _ _))))); simpl; auto using shape_make2.
  - intros p [Hr Hc]. unfold cell. simpl in *. rewrite get2_make2 by assumption. discriminate.
  - intros p [Hr Hc]. unfold cell. simpl in *. rewrite get2_make2 by assumption. discriminate.
Qed.

(** C2 (amended): on a grid that has no cell at [{101, 101}] (at most 101
    rows or at most 101 columns), after any sequence of [setCellState] calls
    on a freshly constructed grid there is at most one cell of type [Start]
    and at most one of type [Goal], every cell of type [Start] ([Goal]) is
    the one at [startPosition()] ([goalPosition()]), and when the tracked
    position is [{101, 101}] no cell has the corresponding type. *)
Theorem C2_special_cells_unique_and_tracked (rows cols : N) (cs : list call) :
  rows <= 101 \/ cols <= 101 ->
  let gm := run_calls cs (GridModel_new rows cols) in
  at_most_one gm Start /\ at_most_one gm Goal /\
  special_cells_tracked gm /\
  (startPosition gm = no_position -> forall p, in_bounds gm p -> cell gm p <> Start) /\
  (goalPosition gm = no_position -> forall p, in_bounds gm p -> cell gm p <> Goal).
Proof.
  intros Hg gm.
  assert (Hinv : tracked_inv gm).
  { apply run_calls_keeps.
    - intros; apply tracked_inv_setCellState; assumption.
    - apply tracked_inv_new; assumption. }
  destruct Hinv as (Hs & Hst & Hgo & Hout & HS & HG).
  assert (Hno : ~ in_bounds gm no_position).
  { unfold in_bounds, no_position, sentinel_outside in *. simpl. lia. }
  repeat split.
  - intros p q Hp Hq Hcp Hcq. rewrite (HS p), (HS q); auto.
  - intros p q Hp Hq Hcp Hcq. rewrite (HG p), (HG q); auto.
  - exact HS.
  - exact HG.
  - intros E p Hp Hc. apply HS in Hc; [|assumption]. rewrite E in Hc. subst p. auto.
  - intros E p Hp Hc. apply HG in Hc; [|assumption]. rewrite E in Hc. subst p. auto.
Qed.

Lemma C2_special_cells_unique_and_tracked_witness :
  let gm := run_calls [(0, 0, Start); (1, 1, Goal); (0, 1, Start)] (GridModel_new 2 2) in
  at_most_one gm Start /\ at_most_one gm Goal /\
  special_cells_tracked gm /\
  (startPosition gm = no_position -> forall p, in_bounds gm p -> cell gm p <> Start) /\
  (goalPosition gm = no_position -> forall p, in_bounds gm p -> cell gm p <> Goal).
Proof.
  apply (C2_special_cells_unique_and_tracked 2 2). left. lia.
Defined.

(** C2 as the specification words it fails in two ways: on a 102 by 102
    grid, a start placed at (101,101) is not reverted when the start moves
    to (0,0), so two cells have type [Start]; and on a 2 by 2 grid, a wall
    painted over the start leaves [startPosition()] at a cell that is not of
    type [Start]. *)
Lemma C2_counterexample :
  ~ special_positions_consistent
      (run_calls [(101, 101, Start); (0, 0, Start)] (GridModel_new 102 102)) /\
  ~ special_positions_consistent
      (run_calls [(0, 0, Start); (0, 0, Wall)] (GridModel_new 2 2)).
Proof.
  split.
  - intros (H & _). specialize (H (101, 101) (0, 0)).
    assert (E : (101, 101) = (0, 0) :> position); [|discriminate].
    apply H; try (split; reflexivity); vm_compute; reflexivity.
  - intros (_ & _ & (_ & H) & _).
    destruct H as [_ H]; [vm_compute; congruence|].
    vm_compute in H. discriminate.
Qed.

(** ** The priority queue policy *)

Lemma dlt_irrefl a : dlt a a = false.
Proof. destruct a; simpl; auto. apply Z.ltb_irrefl. Qed.

Lemma dlt_asym a b : dlt a b = true -> dlt b a = false.
Proof. destruct a, b; simpl; auto; lia. Qed.

Lemma dlt_not_lt_trans a b c :
  dlt b a = false -> dlt c b = false -> dlt c a = false.
Proof. destruct a, b, c; simpl; auto; try lia; discriminate. Qed.

Lemma extract_min_none q : extract_min q = None -> q = [].
Proof.
  destruct q as [|n q]; [reflexivity|]. simpl.
  destruct (extract_min q) as [[m rest]|]; [destruct (Node.gt n m)|]; discriminate.
Qed.

Lemma extract_min_perm q n q' :
  extract_min q = Some (n, q') -> Permutation q (n :: q').
Proof.
  revert n q'. induction q as [|a q IH]; intros n q'; simpl; [discriminate|].
  destruct (extract_min q) as [[m rest]|] eqn:E.
  - destruct (Node.gt a m); intros [= <- <-].
    + rewrite (IH _ _ eq_refl). apply perm_swap.
    + reflexivity.
  - apply extract_min_none in E. subst q. intros [= <- <-]. reflexivity.
Qed.

Lemma extract_min_least q n q' :
  extract_min q = Some (n, q') -> forall m, In m q' -> Node.gt n m = false.
Proof.
  revert n q'. induction q as [|a q IH]; intros n q'; simpl; [discriminate|].
  destruct (extract_min q) as [[m rest]|] eqn:E.
  - destruct (Node.gt a m) eqn:G; intros [= <- <-] x Hx.
    + destruct Hx as [<-|Hx]; [|eapply IH; eauto].
      unfold Node.gt in *. apply dlt_asym. exact G.
    + apply (Permutation_in _ (extract_min_perm _ _ _ E)) in Hx.
      destruct Hx as [<-|Hx]; [exact G|].
      specialize (IH _ _ eq_refl x Hx). unfold Node.gt in *.
      eapply dlt_not_lt_trans; eauto.
  - intros [= <- <-] x [].
Qed.

(** The policy used where a result is computed on a concrete grid. *)
Definition last_pushed_first : PriorityQueue :=
  {| top_pop := extract_min;
     top_pop_empty := eq_refl;
     top_pop_nonempty := fun q Hq E => Hq (extract_min_none q E);
     top_pop_perm := extract_min_perm;
     top_pop_least := extract_min_least |}.

(** ** findPath: the test for unset positions *)

(** [initialize()] resets the three tables and leaves the queue as it is:
    entries left by an earlier call on the same engine would still be there.
    [MainWindow] constructs a new engine for every search, and the claims
    below are about [findPath] on a new engine. *)
Lemma initialize_keeps_queue pf : m_queue (initialize pf) = m_queue pf.
Proof. reflexivity. Qed.

(** Whatever the state of the engine, a tracked start or goal whose row is
    101 makes [findPath] return at once, touching nothing, with an empty
    path and the cost of a value-initialised [PathResult], 0.0. *)
Lemma findPath_row_101 (PQ : PriorityQueue) (pf : Pathfinder) :
  fst (startPosition (m_model pf)) = 101 \/ fst (goalPosition (m_model pf)) = 101 ->
  findPath pf = (Return {| path := []; totalCost := Half 0 |}, pf).
Proof.
  intros H. unfold findPath, findPath_fuel.
  destruct (orb_true_iff (fst (startPosition (m_model pf)) =? 101)
                         (fst (goalPosition (m_model pf)) =? 101)) as [_ ->];
    [reflexivity|].
  rewrite !N.eqb_eq. exact H.
Qed.

(** C1 (the code departs from the claim): on a freshly constructed 2 by 2
    grid, where neither start nor goal is set, [findPath] returns an empty
    path without searching, but the cost it returns is 0.0, not -1. *)
Theorem C1_unset_returns_cost_zero :
  find last_pushed_first (GridModel_new 2 2)
    = Return {| path := []; totalCost := Half 0 |} /\
  Half 0 <> Half (-2).
Proof. split; [vm_compute; reflexivity|discriminate]. Qed.

Lemma getCost_Half t : getCost t = Half (halves (getCost t)).
Proof. destruct t; reflexivity. Qed.

Lemma step_passable gm n : cell gm n <> Wall -> (1 <= step gm n)%Z.
Proof. unfold step. destruct (cell gm n); simpl; intros; try lia; congruence. Qed.

Lemma getCost_wall t : dlt (getCost t) (Half 0) = true <-> t = Wall.
Proof. destruct t; simpl; split; intros; try reflexivity; try discriminate. Qed.

Lemma sum_costs_steps gm l : sum_costs gm l = Half (sum_steps gm l).
Proof.
  unfold sum_costs, sum_steps.
  induction l as [|q l IH]; cbn [fold_right]; [reflexivity|].
  rewrite IH. unfold step. rewrite (getCost_Half (cell gm q)) at 1. reflexivity.
Qed.

Lemma sum_steps_app gm l l' :
  sum_steps gm (l ++ l') = (sum_steps gm l + sum_steps gm l')%Z.
Proof.
  unfold sum_steps.
  induction l as [|q l IH]; cbn [fold_right app]; [reflexivity|]. rewrite IH. lia.
Qed.

Lemma sum_steps_rev gm l : sum_steps gm (rev l) = sum_steps gm l.
Proof.
  induction l as [|q l IH]; [reflexivity|].
  cbn [rev]. rewrite sum_steps_app, IH. unfold sum_steps. cbn [fold_right]. lia.
Qed.

Lemma manhattan_adjacent p q t : adjacent p q -> (manhattan p t <= 1 + manhattan q t)%Z.
Proof. unfold adjacent, manhattan. lia. Qed.

Lemma adjacent_is_neighbour u n :
  adjacent u n -> exists i, In i [0; 1; 2; 3]%nat /\ is_neighbour u i n.
Proof.
  unfold adjacent, is_neighbour. intros H.
  destruct (Z.eq_dec (Z.of_N (fst n)) (Z.of_N (fst u) - 1)%Z) as [E|E];
    [exists 0%nat; split; [simpl; auto|split; cbv [dr dc nth]; lia]|].
  destruct (Z.eq_dec (Z.of_N (fst n)) (Z.of_N (fst u) + 1)%Z) as [E1|E1];
    [exists 1%nat; split; [simpl; auto|split; cbv [dr dc nth]; lia]|].
  destruct (Z.eq_dec (Z.of_N (snd n)) (Z.of_N (snd u) - 1)%Z) as [E2|E2];
    [exists 2%nat; split; [simpl; auto|split; cbv [dr dc nth]; lia]|].
  exists 3%nat; split; [simpl; auto 6|split; cbv [dr dc nth]; lia].
Qed.

Lemma is_neighbour_adjacent u i n :
  In i [0; 1; 2; 3]%nat -> is_neighbour u i n -> adjacent u n.
Proof.
  unfold adjacent, is_neighbour. simpl.
  intros [<-|[<-|[<-|[<-|[]]]]] [H1 H2]; cbv [dr dc nth] in *; lia.
Qed.

Lemma walk_nonneg gm a b k : walk gm a b k -> (0 <= k)%Z.
Proof.
  induction 1 as [|p q k _ IH _ [_ Hq]]; [lia|].
  pose proof (step_passable gm q Hq). lia.
Qed.

(** A walk and a path are the same thing. *)
Lemma last_cons_default {A} (q a : A) l : List.last (q :: l) a = List.last l q.
Proof.
  revert q a. induction l as [|p l IH]; intros q a; [reflexivity|].
  change (List.last (p :: l) a = List.last (p :: l) q).
  rewrite (IH p a), (IH p q). reflexivity.
Qed.

Lemma linked_app gm a l l' :
  linked gm a (l ++ l') <-> linked gm a l /\ linked gm (List.last l a) l'.
Proof.
  revert a. induction l as [|q l IH]; intros a; [simpl; tauto|].
  rewrite last_cons_default. cbn [app linked]. rewrite IH. tauto.
Qed.

Lemma walk_is_path gm a b k :
  walk gm a b k -> exists p, is_path gm a b p /\ path_cost gm p = Half k.
Proof.
  induction 1 as [|p q k _ (pth & (l & -> & Hl & Hlast) & Hc) Hadj Hq].
  - exists [a]. split; [exists []; simpl; auto|]. reflexivity.
  - exists (a :: l ++ [q]). split.
    + exists (l ++ [q]). split; [reflexivity|]. split.
      * apply linked_app. split; [assumption|]. rewrite Hlast. simpl. auto.
      * apply last_last.
    + unfold path_cost in *. simpl in *.
      rewrite sum_costs_steps in *. injection Hc as Hc.
      rewrite sum_steps_app. simpl. f_equal. lia.
Qed.

Lemma is_path_walk gm a b p :
  is_path gm a b p -> walk gm a b (halves (path_cost gm p)).
Proof.
  intros (l & -> & Hl & Hlast). unfold path_cost. simpl.
  rewrite sum_costs_steps. simpl. revert b Hl Hlast.
  induction l as [|q l IH] using rev_ind; intros b Hl Hlast.
  - simpl in *. subst b. constructor.
  - rewrite last_last in Hlast. subst b.
    apply linked_app in Hl as [Hl (Hadj & Hq & _)].
    rewrite sum_steps_app. simpl. rewrite Z.add_0_r.
    eapply walk_step; eauto.
Qed.

(** ** The search: invariants *)

Section Search.
Context {PQ : PriorityQueue}.
Variable gm : GridModel.
Hypothesis Hrows : m_rows gm < 256.
Hypothesis Hcols : m_cols gm < 256.
Hypothesis Hshape : shape (m_rows gm) (m_cols gm) (m_grid gm).
Hypothesis Hstart : in_bounds gm (m_start gm).
Hypothesis Hgoal : in_bounds gm (m_goal gm).

Local Abbreviation s := (m_start gm).
Local Abbreviation t := (m_goal gm).
Local Abbreviation tree := (tree gm).
Local Abbreviation inv := (inv gm).
Local Abbreviation loop_inv := (loop_inv gm).
Local Abbreviation chain := (chain gm).
Local Abbreviation found := (found gm).
Local Abbreviation chain_too_long := (chain_too_long gm).
Local Abbreviation all_cells := (all_cells gm).
Local Abbreviation loop_head := (loop_head gm).

Lemma position_eq_dec (p q : position) : {p = q} + {p <> q}.
Proof. apply (decide (p = q)). Qed.

Lemma tree_chain pf :
  tree pf ->
  forall n c, in_bounds gm n -> cost_at pf n = Half c ->
  exists l, chain pf n l /\
    Forall (fun m => in_bounds gm m /\
                     exists cm, cost_at pf m = Half cm /\ (cm <= c)%Z) l /\
    List.NoDup l /\
    is_path gm s n (rev l) /\
    sum_steps gm (tl (rev l)) = c /\
    Forall (fun m => m = s \/ passable gm m) l.
Proof.
  intros T n c. remember (Z.to_nat c) as k eqn:Ek.
  revert n c Ek. induction k as [k IH] using lt_wf_ind. intros n c Ek Hn Hc.
  destruct (position_eq_dec n s) as [->|Hne].
  - rewrite (tree_start T) in Hc. injection Hc as <-.
    exists [s]. conjs.
    + constructor.
    + constructor; [|constructor]. split; [assumption|].
      exists 0%Z. split; [apply (tree_start T)|lia].
    + apply List.NoDup_cons; [intros []|apply List.NoDup_nil].
    + exists []. simpl. auto.
    + reflexivity.
    + constructor; [left; reflexivity|constructor].
  - destruct (tree_parent T n c Hn Hc Hne) as (Hp & Hadj & Hpass & cp & Hcp & ->).
    pose proof (tree_nonneg T _ _ Hp Hcp) as Hcp0.
    pose proof (step_passable gm n (proj2 Hpass)) as Hst.
    destruct (IH (Z.to_nat cp) ltac:(lia) _ cp eq_refl Hp Hcp)
      as (l & Hch & Hall & Hnd & (l0 & Hrev & Hl0 & Hlast) & Hsum & Hpw).
    exists (n :: l). conjs.
    + constructor; assumption.
    + constructor.
      * split; [assumption|]. exists (cp + step gm n)%Z. split; [assumption|lia].
      * eapply List.Forall_impl; [|exact Hall]. simpl.
        intros m (Hm & cm & Hcm & Hle). split; [assumption|].
        exists cm. split; [assumption|lia].
    + apply List.NoDup_cons; [|assumption]. intros Hin.
      rewrite List.Forall_forall in Hall. destruct (Hall _ Hin) as (_ & cm & Hcm & Hle).
      rewrite Hc in Hcm. injection Hcm as <-. lia.
    + exists (l0 ++ [n]). simpl. rewrite Hrev. split; [reflexivity|]. split.
      * apply linked_app. split; [assumption|]. rewrite Hlast. simpl. auto.
      * apply last_last.
    + simpl. rewrite Hrev in *. simpl in *.
      rewrite sum_steps_app, Hsum. unfold sum_steps. simpl. lia.
    + constructor; [right; assumption|assumption].
Qed.

Lemma tree_walk pf n c :
  tree pf -> in_bounds gm n -> cost_at pf n = Half c -> walk gm s n c.
Proof.
  intros T Hn Hc.
  destruct (tree_chain pf T n c Hn Hc) as (l & _ & _ & _ & Hp & Hsum & _).
  apply is_path_walk in Hp. unfold path_cost in Hp.
  rewrite sum_costs_steps in Hp. simpl in Hp. rewrite Hsum in Hp. exact Hp.
Qed.

Lemma follow_parents_chain pf n l :
  parent_at pf s = no_position ->
  chain pf n l ->
  forall fuel acc, (length l < fuel)%nat ->
  follow_parents fuel pf n acc = Some (acc ++ cut l).
Proof.
  intros Hs. induction 1 as [|n l Hne Hch IH]; intros fuel acc Hf.
  - destruct fuel as [|[|fuel]]; simpl in Hf; try lia.
    simpl. destruct (fst s =? 101) eqn:E; simpl.
    + rewrite app_nil_r. reflexivity.
    + fold (parent_at pf s). rewrite Hs. simpl. reflexivity.
  - destruct fuel as [|fuel]; simpl in Hf; [lia|].
    simpl. destruct (fst n =? 101) eqn:E; simpl.
    + rewrite app_nil_r. reflexivity.
    + fold (parent_at pf n). rewrite IH by lia.
      rewrite <- app_assoc. reflexivity.
Qed.

Lemma cut_incl l m : In m (cut l) -> In m l.
Proof.
  induction l as [|a l IH]; simpl; [auto|].
  destruct (fst a =? 101); simpl; [intros []|]. intros [?|?]; auto.
Qed.

Lemma cut_all l : Forall (fun m => fst m <> 101) l -> cut l = l.
Proof.
  induction 1 as [|a l Ha _ IH]; simpl; [reflexivity|].
  destruct (N.eqb_spec (fst a) 101); [contradiction|]. rewrite IH. reflexivity.
Qed.

(** *** The state in which the loop is entered *)

Lemma heuristic_manhattan pf r c :
  m_model pf = gm -> heuristic pf r c = Half (manhattan (r, c) t).
Proof. intros E. unfold heuristic, goalPosition, times_half, manhattan. rewrite E. reflexivity. Qed.

Lemma seeded_cost pf n :
  m_model pf = gm -> in_bounds gm n ->
  cost_at (seeded pf) n = if decide (n = s) then Half 0 else Infinity.
Proof.
  intros E [Hr Hc]. unfold cost_at, seeded, initialize, startPosition, rowCount, colCount.
  simpl. rewrite E. destruct Hstart as [Hsr Hsc].
  destruct (decide (n = s)) as [->|Hne].
  - eapply get2_set2_eq; eauto using shape_make2.
  - rewrite get2_set2_ne by (destruct n, s; simpl in *; congruence).
    apply get2_make2; assumption.
Qed.

Lemma seeded_inv pf :
  m_model pf = gm -> m_queue pf = [] -> loop_inv (seeded pf).
Proof.
  intros E Eq.
  assert (Hvis : forall n, in_bounds gm n -> visited_at (seeded pf) n = false).
  { intros n [Hr Hc]. unfold visited_at, seeded, initialize, rowCount, colCount.
    simpl. rewrite E. apply get2_make2; assumption. }
  assert (Hpar : forall n, in_bounds gm n -> parent_at (seeded pf) n = no_position).
  { intros n [Hr Hc]. unfold parent_at, seeded, initialize, rowCount, colCount.
    simpl. rewrite E. apply get2_make2; assumption. }
  assert (Hfin : forall n c, in_bounds gm n -> cost_at (seeded pf) n = Half c ->
                             n = s /\ c = 0%Z).
  { intros n c Hn. rewrite seeded_cost by assumption.
    destruct (decide (n = s)); [|discriminate]. intros [= <-]. auto. }
  constructor.
  - constructor.
    + exact E.
    + unfold seeded, initialize, rowCount, colCount, startPosition. simpl. rewrite E.
      apply shape_set2, shape_make2.
    + unfold seeded, initialize, rowCount, colCount. simpl. rewrite E.
      apply shape_make2.
    + rewrite seeded_cost by assumption. destruct (decide (s = s)); congruence.
    + apply Hpar. assumption.
    + intros n c Hn Hc. destruct (Hfin n c Hn Hc) as [_ ->]. lia.
    + intros n c Hn Hc Hne. destruct (Hfin n c Hn Hc) as [? _]. contradiction.
  - unfold seeded, initialize, rowCount, colCount. simpl. rewrite E. apply shape_make2.
  - intros e He. unfold seeded in He. simpl in He. rewrite Eq in He.
    destruct He as [<-|[]]. unfold pos_of. simpl. unfold startPosition. rewrite E.
    rewrite <- surjective_pairing. split; [assumption|].
    exists 0%Z, 0%Z. conjs; try reflexivity; try lia.
    + rewrite heuristic_manhattan by (simpl; exact E).
      rewrite <- surjective_pairing. reflexivity.
    + rewrite seeded_cost by assumption. destruct (decide (s = s)); congruence.
  - intros n Hn Hv. rewrite Hvis in Hv by assumption. discriminate.
  - intros v n Hv Hvv. rewrite Hvis in Hvv by assumption. discriminate.
  - intros n c Hn _ Hc. destruct (Hfin n c Hn Hc) as [-> ->].
    eexists. split; [unfold seeded; simpl; left; reflexivity|].
    unfold pos_of, startPosition. simpl. rewrite E, <- surjective_pairing. auto.
  - apply Hvis. assumption.
  - intros n c Hn Hc Hne. destruct (Hfin n c Hn Hc) as [? _]. contradiction.
Qed.

(** *** The frontier lemma *)

(** Between iterations, any walk from the start ends in a visited cell whose
    recorded cost is no more than the walk's, or the queue holds an entry
    whose [f] is no more than the walk's cost plus the heuristic of its
    end. *)
Lemma frontier pf n k :
  loop_inv pf -> walk gm s n k ->
  (visited_at pf n = true /\ exists c, cost_at pf n = Half c /\ (c <= k)%Z) \/
  (exists e fe, In e (m_queue pf) /\ Node.f e = Half fe /\
                (fe <= k + manhattan n t)%Z).
Proof.
  intros I W. induction W as [|p q k W IH Hadj Hq].
  - destruct (visited_at pf s) eqn:V.
    + left. split; [reflexivity|]. exists 0%Z.
      split; [apply (tree_start (inv_tree I))|lia].
    + right.
      destruct (inv_frontier I s 0%Z Hstart V
                  (tree_start (inv_tree I))) as (e & He & Hpos & Hg).
      destruct (inv_queue I e He) as (_ & ge & c & Hge & Hf & _ & _).
      rewrite Hg in Hge. injection Hge as <-.
      exists e, (0 + manhattan (pos_of e) t)%Z. rewrite Hpos in *.
      conjs; [assumption|assumption|lia].
  - assert (Hqb : in_bounds gm q) by apply Hq.
    assert (Hpb : walk gm s p k -> in_bounds gm p).
    { clear -Hstart. intros W. inversion W; subst; [assumption|].
      match goal with H : passable _ _ |- _ => apply H end. }
    specialize (Hpb W).
    destruct (visited_at pf q) eqn:V.
    + left. split; [reflexivity|].
      destruct (inv_optimal I q Hqb V) as (c & Hc & Hmin).
      exists c. split; [assumption|]. apply Hmin. econstructor; eauto.
    + right. destruct IH as [(Vp & cp & Hcp & Hle)|(e & fe & He & Hf & Hle)].
      * destruct (inv_expanded I p q Hpb Vp Hadj Hq (or_intror Logic.I))
          as (cv & cn & Hcv & Hcn & Hrel).
        rewrite Hcp in Hcv. injection Hcv as <-.
        destruct (inv_frontier I q cn Hqb V Hcn) as (e & He & Hpos & Hg).
        destruct (inv_queue I e He) as (_ & ge & c & Hge & Hf & _ & _).
        rewrite Hg in Hge. injection Hge as <-.
        exists e, (cn + manhattan (pos_of e) t)%Z. rewrite Hpos in *.
        conjs; [assumption|assumption|lia].
      * exists e, fe. conjs; [assumption|assumption|].
        pose proof (manhattan_adjacent p q t Hadj).
        pose proof (step_passable gm q (proj2 Hq)). lia.
Qed.

(** *** Popping an entry *)

Lemma top_pop_in q cur rest e :
  top_pop q = Some (cur, rest) -> In e q <-> e = cur \/ In e rest.
Proof.
  intros H. apply top_pop_perm in H. split.
  - intros Hin. apply (Permutation_in _ H) in Hin. destruct Hin; auto.
  - intros Hin. apply (Permutation_in _ (Permutation_sym H)).
    destruct Hin; [left|right]; auto.
Qed.

Lemma top_pop_length q cur rest :
  top_pop q = Some (cur, rest) -> length q = S (length rest).
Proof. intros H. apply top_pop_perm, Permutation_length in H. exact H. Qed.

Lemma tree_ext pf pf' :
  m_model pf' = m_model pf -> m_costGrid pf' = m_costGrid pf ->
  m_previous pf' = m_previous pf -> tree pf -> tree pf'.
Proof.
  intros E1 E2 E3 [T1 T2 T3 T4 T5 T6 T7].
  constructor; unfold cost_at, parent_at in *; rewrite ?E1, ?E2, ?E3; assumption.
Qed.

(** The popped entry was visited before: [continue]. *)
Lemma pop_visited pf cur rest :
  loop_inv pf -> top_pop (m_queue pf) = Some (cur, rest) ->
  visited_at pf (pos_of cur) = true ->
  loop_inv (with_queue rest pf).
Proof.
  intros I Hpop V. destruct I as [I1 I2 I3 I4 I5 I6 I7 I8].
  constructor; try assumption.
  - apply (tree_ext pf); [reflexivity..|assumption].
  - intros e He. apply I3. apply (top_pop_in _ _ _ e Hpop). auto.
  - intros n c Hn Vn Hc. destruct (I6 n c Hn Vn Hc) as (e & He & Hpos & Hg).
    exists e. conjs; try assumption.
    apply (top_pop_in _ _ _ e Hpop) in He. destruct He as [->|He]; [|assumption].
    rewrite Hpos in V. change (visited_at pf n = false) in Vn. congruence.
Qed.

Lemma visited_at_mark pf u n :
  shape (m_rows gm) (m_cols gm) (m_visited pf) -> in_bounds gm u ->
  visited_at (with_visited (set2 (m_visited pf) (fst u) (snd u) true) pf) n
  = if decide (n = u) then true else visited_at pf n.
Proof.
  intros Hs [Hr Hc]. unfold visited_at. simpl.
  destruct (decide (n = u)) as [->|Hne].
  - eapply get2_set2_eq; eauto.
  - apply get2_set2_ne. destruct n, u; simpl in *; congruence.
Qed.

(** The popped entry is for a cell not visited before: its [g] is the cost
    recorded for the cell, and no walk from the start reaches the cell more
    cheaply. *)
Lemma pop_optimal pf cur rest :
  loop_inv pf -> top_pop (m_queue pf) = Some (cur, rest) ->
  visited_at pf (pos_of cur) = false ->
  in_bounds gm (pos_of cur) /\
  exists gu, Node.g cur = Half gu /\ cost_at pf (pos_of cur) = Half gu /\
             forall k, walk gm s (pos_of cur) k -> (gu <= k)%Z.
Proof.
  intros I Hpop V.
  assert (Hcur : In cur (m_queue pf)) by (apply (top_pop_in _ _ _ cur Hpop); auto).
  destruct (inv_queue I cur Hcur) as (Hb & gu & c & Hg & Hf & Hc & Hle).
  split; [assumption|].
  assert (Hmin : forall k, walk gm s (pos_of cur) k -> (gu <= k)%Z).
  { intros k W. destruct (frontier pf _ k I W) as [(V' & _)|(e & fe & He & Hfe & Hle')];
      [congruence|].
    assert (Hcmp : dlt (Node.f e) (Node.f cur) = false).
    { apply (top_pop_in _ _ _ e Hpop) in He. destruct He as [->|He].
      - apply dlt_irrefl.
      - apply (top_pop_least _ _ _ Hpop e He). }
    rewrite Hf, Hfe in Hcmp. simpl in Hcmp. lia. }
  exists gu. conjs; [assumption| |assumption].
  pose proof (Hmin c (tree_walk pf _ c (inv_tree I) Hb Hc)).
  rewrite Hc. f_equal. lia.
Qed.

(** Marking the popped cell visited opens its expansion. *)
Lemma pop_unvisited pf cur rest :
  loop_inv pf -> top_pop (m_queue pf) = Some (cur, rest) ->
  visited_at pf (pos_of cur) = false ->
  pos_of cur <> t ->
  inv (pos_of cur) (fun _ => False)
      (with_visited (set2 (m_visited pf) (Node.row cur) (Node.col cur) true)
                    (with_queue rest pf)).
Proof.
  intros I Hpop V Hne.
  destruct (pop_optimal pf cur rest I Hpop V) as (Hb & gu & Hg & Hc & Hmin).
  set (u := pos_of cur) in *.
  set (pf1 := with_visited _ _).
  assert (Hv : forall n, visited_at pf1 n
                         = if decide (n = u) then true else visited_at pf n).
  { intros n. apply (visited_at_mark (with_queue rest pf) u n);
      [apply (inv_visited_shape I)|assumption]. }
  destruct I as [I1 I2 I3 I4 I5 I6 I7 I8].
  constructor.
  - apply (tree_ext pf); [reflexivity..|assumption].
  - apply shape_set2. assumption.
  - intros e He. apply I3. apply (top_pop_in _ _ _ e Hpop). auto.
  - intros n Hn. rewrite Hv. destruct (decide (n = u)) as [->|Hnu].
    + intros _. exists gu. split; assumption.
    + apply I4. assumption.
  - intros v n Hvb. rewrite Hv. destruct (decide (v = u)) as [->|Hvu].
    + intros _ _ _ [?|[]]. contradiction.
    + intros Vv Hadj Hp _. apply (I5 v n); auto.
  - intros n c Hn. rewrite Hv. destruct (decide (n = u)) as [->|Hnu]; [discriminate|].
    intros Vn Hcn. destruct (I6 n c Hn Vn Hcn) as (e & He & Hpos & Hge).
    exists e. conjs; try assumption.
    apply (top_pop_in _ _ _ e Hpop) in He. destruct He as [->|He]; [|assumption].
    exfalso. apply Hnu. symmetry. exact Hpos.
  - rewrite Hv. destruct (decide (t = u)) as [E|_]; [congruence|assumption].
  - intros n c Hn Hcn Hns. rewrite Hv.
    destruct (decide (parent_at pf1 n = u)); [reflexivity|].
    apply (I8 n c); assumption.
Qed.

(** *** The measure of the loop *)

Lemma unvisited_in_mark line c :
  line !! c = Some false ->
  S (unvisited_in (<[c := true]> line)) = unvisited_in line.
Proof.
  revert c. induction line as [|b line IH]; intros [|c]; simpl; try discriminate.
  - intros [= ->]. reflexivity.
  - intros H. rewrite <- (IH c H). destruct b; simpl; lia.
Qed.

Lemma unvisited_mark (v : list (list bool)) r c :
  at2 v r c = Some false -> S (unvisited (set2 v r c true)) = unvisited v.
Proof.
  unfold at2, set2. generalize (N.to_nat r) as i. generalize (N.to_nat c) as j.
  intros j. induction v as [|line v IH]; intros [|i]; simpl; try discriminate.
  - intros H. rewrite <- (unvisited_in_mark line j H). simpl. lia.
  - intros H. rewrite <- (IH i H). simpl. rewrite <- plus_n_Sm. reflexivity.
Qed.

Lemma unvisited_in_replicate n : unvisited_in (replicate n false) = n.
Proof. induction n; simpl; auto. Qed.

Lemma unvisited_make2 rows cols :
  unvisited (make2 rows cols false) = (N.to_nat rows * N.to_nat cols)%nat.
Proof.
  unfold make2. induction (N.to_nat rows) as [|n IH]; simpl; [reflexivity|].
  rewrite IH, unvisited_in_replicate. reflexivity.
Qed.

(** *** Looking at one neighbour *)

Lemma is_neighbour_inj u i m n : is_neighbour u i m -> is_neighbour u i n -> m = n.
Proof.
  unfold is_neighbour. intros [H1 H2] [H3 H4].
  destruct m, n; simpl in *; f_equal; lia.
Qed.

(** A neighbour that needs no update. *)
Lemma inv_extend u D i pf :
  inv u D pf ->
  (forall n, is_neighbour u i n -> passable gm n ->
     exists cv cn, cost_at pf u = Half cv /\ cost_at pf n = Half cn /\
                   (cn <= cv + step gm n)%Z) ->
  inv u (fun n => D n \/ is_neighbour u i n) pf.
Proof.
  intros [I1 I2 I3 I4 I5 I6 I7 I8] H. constructor; try assumption.
  intros v n Hvb Vv Hadj Hp [Hne|[HD|Hnb]].
  - apply I5; auto.
  - apply I5; auto.
  - destruct (position_eq_dec v u) as [->|Hvu]; [apply H; assumption|apply I5; auto].
Qed.

(** A neighbour whose cost improves. *)
Lemma relax_inv u D i pf pf' n gu e :
  inv u D pf -> in_bounds gm u -> visited_at pf u = true ->
  cost_at pf u = Half gu ->
  In i [0; 1; 2; 3]%nat -> is_neighbour u i n -> passable gm n ->
  dlt (Half (gu + step gm n)) (cost_at pf n) = true ->
  m_model pf' = gm ->
  shape (m_rows gm) (m_cols gm) (m_costGrid pf') ->
  shape (m_rows gm) (m_cols gm) (m_previous pf') ->
  m_visited pf' = m_visited pf ->
  (forall m, cost_at pf' m
             = if decide (m = n) then Half (gu + step gm n) else cost_at pf m) ->
  (forall m, parent_at pf' m = if decide (m = n) then u else parent_at pf m) ->
  m_queue pf' = e :: m_queue pf ->
  pos_of e = n -> Node.g e = Half (gu + step gm n) ->
  Node.f e = Half (gu + step gm n + manhattan n t) ->
  inv u (fun m => D m \/ is_neighbour u i m) pf'.
Proof.
  intros I Hub Vu Hcu Hi Hnb Hpass Hlt Em Sc Sp Ev Hc' Hp' Eq Epos Eg Ef.
  assert (Hv' : forall m, visited_at pf' m = visited_at pf m).
  { intros m. unfold visited_at. rewrite Ev. reflexivity. }
  assert (Hadj : adjacent u n) by (eapply is_neighbour_adjacent; eauto).
  assert (Hgu0 : (0 <= gu)%Z)
    by (eapply (tree_nonneg (inv_tree I)); eauto).
  assert (Hst : (1 <= step gm n)%Z) by (apply step_passable, Hpass).
  assert (Wn : walk gm s n (gu + step gm n)).
  { econstructor; eauto. eapply tree_walk; eauto. apply (inv_tree I). }
  assert (Hold : forall c, cost_at pf n = Half c -> (gu + step gm n < c)%Z).
  { intros c Hc. rewrite Hc in Hlt. simpl in Hlt. lia. }
  assert (Vn : visited_at pf n = false).
  { destruct (visited_at pf n) eqn:V; [|reflexivity].
    destruct (inv_optimal I n (proj1 Hpass) V) as (c & Hc & Hmin).
    specialize (Hmin _ Wn). specialize (Hold _ Hc). lia. }
  assert (Hns : n <> s).
  { intros ->. specialize (Hold _ (tree_start (inv_tree I))). lia. }
  assert (Hnu : n <> u) by (intros ->; congruence).
  destruct I as [[T1 T2 T3 T4 T5 T6 T7] I2 I3 I4 I5 I6 I7 I8].
  constructor; [constructor|..].
  - exact Em.
  - exact Sc.
  - exact Sp.
  - rewrite Hc'. destruct (decide (s = n)); [congruence|assumption].
  - rewrite Hp'. destruct (decide (s = n)); [congruence|assumption].
  - intros m c Hm. rewrite Hc'. destruct (decide (m = n)).
    + intros [= <-]. lia.
    + apply T6; assumption.
  - intros m c Hm. rewrite Hc', Hp'. destruct (decide (m = n)) as [->|Hmn].
    + intros [= <-] _. conjs; auto. exists gu. split; [|reflexivity].
      rewrite Hc'. destruct (decide (u = n)); [congruence|assumption].
    + intros Hc Hms.
      destruct (T7 m c Hm Hc Hms) as (Hpb & Hadjm & Hpm & cp & Hcp & Hceq).
      conjs; auto. exists cp. split; [|assumption].
      rewrite Hc'. destruct (decide (parent_at pf m = n)) as [E|_]; [|assumption].
      pose proof (I8 m c Hm Hc Hms) as Vp. rewrite E in Vp. congruence.
  - rewrite Ev. assumption.
  - intros e' He'. rewrite Eq in He'. destruct He' as [<-|He'].
    + rewrite Epos. split; [apply Hpass|].
      exists (gu + step gm n)%Z, (gu + step gm n)%Z. conjs; auto; [|lia].
      rewrite Hc'. destruct (decide (n = n)); congruence.
    + destruct (I3 e' He') as (Hb & ge & c & Hg & Hf & Hc & Hle).
      split; [assumption|]. rewrite Hc'.
      destruct (decide (pos_of e' = n)) as [E|_].
      * exists ge, (gu + step gm n)%Z. conjs; auto.
        rewrite E in Hc. specialize (Hold _ Hc). lia.
      * exists ge, c. auto.
  - intros m Hm. rewrite Hv', Hc'. intros Vm.
    destruct (decide (m = n)) as [->|_]; [congruence|]. apply I4; assumption.
  - intros v m Hvb. rewrite Hv'. intros Vv Hadjvm Hpm Hcond. rewrite !Hc'.
    destruct (decide (v = n)) as [->|Hvn]; [congruence|].
    destruct (decide (m = n)) as [->|Hmn].
    + destruct (position_eq_dec v u) as [->|Hvu].
      * exists gu, (gu + step gm n)%Z. conjs; auto; lia.
      * destruct (I5 v n Hvb Vv Hadjvm Hpm (or_introl Hvu))
          as (cv & cn & Hcv & Hcn & Hrel).
        exists cv, (gu + step gm n)%Z. conjs; auto.
        specialize (Hold _ Hcn). lia.
    + apply I5; try assumption. destruct Hcond as [?|[?|Hnb']]; auto.
      exfalso. apply Hmn. eapply is_neighbour_inj; eauto.
  - intros m c Hm. rewrite Hv', Hc', Eq. destruct (decide (m = n)) as [->|Hmn].
    + intros _ [= <-]. exists e. conjs; auto. left. reflexivity.
    + intros Vm Hc. destruct (I6 m c Hm Vm Hc) as (e' & He' & ? & ?).
      exists e'. conjs; auto. right. assumption.
  - rewrite Hv'. assumption.
  - intros m c Hm. rewrite Hv', Hc', Hp'. destruct (decide (m = n)).
    + intros. assumption.
    + apply I8; assumption.
Qed.

Lemma u8_small z : (0 <= z < 256)%Z -> u8 z = Z.to_N z.
Proof. intros H. unfold u8. rewrite Z.mod_small by assumption. reflexivity. Qed.

Lemma visit_neighbour_inv cur u gu D i pf :
  inv u D pf -> pos_of cur = u -> in_bounds gm u -> visited_at pf u = true ->
  Node.g cur = Half gu -> cost_at pf u = Half gu -> In i [0; 1; 2; 3]%nat ->
  exists pf', visit_neighbour cur i pf = (inr tt, pf') /\
    inv u (fun m => D m \/ is_neighbour u i m) pf' /\
    m_visited pf' = m_visited pf /\
    (length (m_queue pf') <= S (length (m_queue pf)))%nat /\
    cost_at pf' u = Half gu.
Proof.
  intros I Epos Hub Vu Hg Hcu Hi.
  pose proof (tree_model (inv_tree I)) as Em.
  unfold visit_neighbour. rewrite Em. unfold rowCount, colCount.
  set (nr := (Z.of_N (Node.row cur) + dr i)%Z).
  set (nc := (Z.of_N (Node.col cur) + dc i)%Z).
  assert (Hnbr : forall n, is_neighbour u i n <->
            Z.of_N (fst n) = nr /\ Z.of_N (snd n) = nc).
  { intros n. subst u nr nc. unfold is_neighbour, pos_of. simpl. tauto. }
  destruct ((nr <? 0)%Z || (Z.of_N (m_rows gm) <=? nr)%Z
            || (nc <? 0)%Z || (Z.of_N (m_cols gm) <=? nc)%Z) eqn:B.
  - (* outside the grid *)
    exists pf. conjs; auto. apply inv_extend; [assumption|].
    intros n Hn [[Hr Hc] _]. exfalso. apply Hnbr in Hn as [H1 H2].
    rewrite !orb_true_iff, !Z.ltb_lt, !Z.leb_le in B. lia.
  - rewrite !orb_false_iff, !Z.ltb_ge, !Z.leb_gt in B.
    destruct B as [[[B1 B2] B3] B4].
    set (n := (Z.to_N nr, Z.to_N nc)).
    assert (Hnb : is_neighbour u i n).
    { apply Hnbr. subst n. simpl. lia. }
    assert (Hnin : in_bounds gm n).
    { subst n. unfold in_bounds. simpl. lia. }
    rewrite !u8_small by lia.
    unfold bind at 1. unfold call_model. rewrite Em.
    rewrite cellState_inside by apply Hnin.
    cbn [fst]. cbv beta iota.
    change (cell gm (Z.to_N nr, Z.to_N nc)) with (cell gm n).
    destruct (dlt (getCost (cell gm n)) (Half 0)) eqn:W.
    + (* a wall *)
      apply getCost_wall in W.
      exists pf. conjs; auto. apply inv_extend; [assumption|].
      intros n' Hn' [_ Hw]. rewrite (is_neighbour_inj _ _ _ _ Hn' Hnb) in Hw.
      contradiction.
    + assert (Hpass : passable gm n).
      { split; [assumption|]. intros E. apply getCost_wall in E. congruence. }
      rewrite Hg, (getCost_Half (cell gm n)).
      change (halves (getCost (cell gm n))) with (step gm n).
      unfold bind, gets. cbv beta iota. cbn [dadd].
      change (get2 Infinity (m_costGrid pf) (Z.to_N nr) (Z.to_N nc))
        with (cost_at pf n).
      destruct (dlt (Half (gu + step gm n)) (cost_at pf n)) eqn:L.
      * (* the cost improves *)
        unfold modify. eexists. split; [reflexivity|].
        pose proof (tree_cost_shape (inv_tree I)) as Sc.
        pose proof (tree_prev_shape (inv_tree I)) as Sp.
        assert (Hun : u <> n).
        { intros E. rewrite E in Hcu. rewrite Hcu in L. simpl in L.
          pose proof (step_passable gm n (proj2 Hpass)). lia. }
        conjs.
        -- eapply (relax_inv u D i pf _ n gu _ I Hub Vu Hcu Hi Hnb Hpass L).
           ++ exact Em.
           ++ simpl. apply shape_set2. assumption.
           ++ simpl. apply shape_set2. assumption.
           ++ reflexivity.
           ++ intros m. unfold cost_at. simpl.
              destruct (decide (m = n)) as [->|Hmn].
              ** eapply get2_set2_eq; eauto; apply Hnin.
              ** apply get2_set2_ne. destruct m. subst n. simpl in *. congruence.
           ++ intros m. unfold parent_at. simpl.
              destruct (decide (m = n)) as [->|Hmn].
              ** rewrite <- Epos. eapply get2_set2_eq; eauto; apply Hnin.
              ** apply get2_set2_ne. destruct m. subst n. simpl in *. congruence.
           ++ reflexivity.
           ++ reflexivity.
           ++ reflexivity.
           ++ cbn [Node.f]. rewrite heuristic_manhattan by exact Em.
              reflexivity.
        -- reflexivity.
        -- simpl. lia.
        -- unfold cost_at. simpl. rewrite get2_set2_ne; [exact Hcu|].
           destruct u. subst n. simpl in *. congruence.
      * (* the recorded cost is at least as good *)
        unfold ret. exists pf. conjs; auto. apply inv_extend; [assumption|].
        intros n' Hn' _. rewrite (is_neighbour_inj _ _ _ _ Hn' Hnb).
        destruct (cost_at pf n) as [cn|] eqn:Hcn; simpl in L; [|discriminate].
        exists gu, cn. conjs; auto. lia.
Qed.

(** *** Expanding a cell *)

Lemma inv_mono u (D D' : position -> Prop) pf :
  inv u D pf -> (forall m, D' m -> D m) -> inv u D' pf.
Proof.
  intros [I1 I2 I3 I4 I5 I6 I7 I8] H. constructor; try assumption.
  intros v n Hvb Vv Hadj Hp [Hne|HD]; apply I5; auto.
Qed.

Lemma inv_close u D pf :
  inv u D pf -> (forall n, adjacent u n -> D n) -> loop_inv pf.
Proof.
  intros [I1 I2 I3 I4 I5 I6 I7 I8] H. constructor; try assumption.
  intros v n Hvb Vv Hadj Hp _. apply I5; try assumption.
  destruct (position_eq_dec v u) as [->|Hvu]; auto.
Qed.

Lemma for_each_inv cur u gu dirs :
  pos_of cur = u -> in_bounds gm u -> Node.g cur = Half gu ->
  forall D pf,
  incl dirs [0; 1; 2; 3]%nat ->
  inv u D pf -> visited_at pf u = true -> cost_at pf u = Half gu ->
  exists pf', for_each (visit_neighbour cur) dirs pf = (inr tt, pf') /\
    inv u (fun m => D m \/ exists j, In j dirs /\ is_neighbour u j m) pf' /\
    m_visited pf' = m_visited pf /\
    (length (m_queue pf') <= length dirs + length (m_queue pf))%nat.
Proof.
  intros Epos Hub Hg. induction dirs as [|i dirs IH]; intros D pf Hincl I Vu Hcu.
  - exists pf. conjs; auto.
    eapply inv_mono; [exact I|]. intros m [?|(j & [] & _)]. assumption.
  - destruct (visit_neighbour_inv cur u gu D i pf I Epos Hub Vu Hg Hcu)
      as (pf1 & E1 & I1 & V1 & L1 & C1); [apply Hincl; left; reflexivity|].
    destruct (IH (fun m => D m \/ is_neighbour u i m) pf1)
      as (pf' & E' & I' & V' & L'); auto.
    { intros j Hj. apply Hincl. right. assumption. }
    { unfold visited_at. rewrite V1. exact Vu. }
    exists pf'. conjs.
    + cbn [for_each]. unfold bind. rewrite E1. exact E'.
    + eapply inv_mono; [exact I'|]. intros m [?|(j & [<-|Hj] & Hnb)]; eauto.
    + congruence.
    + simpl. lia.
Qed.

Lemma expand_inv cur u gu pf :
  pos_of cur = u -> in_bounds gm u -> Node.g cur = Half gu ->
  inv u (fun _ => False) pf -> visited_at pf u = true -> cost_at pf u = Half gu ->
  exists pf', for_each (visit_neighbour cur) [0; 1; 2; 3]%nat pf = (inr tt, pf') /\
    loop_inv pf' /\ m_visited pf' = m_visited pf /\
    (length (m_queue pf') <= 4 + length (m_queue pf))%nat.
Proof.
  intros Epos Hub Hg I Vu Hcu.
  destruct (for_each_inv cur u gu [0; 1; 2; 3]%nat Epos Hub Hg _ pf
              (incl_refl _) I Vu Hcu) as (pf' & E & I' & V & L).
  exists pf'. conjs; auto.
  eapply inv_close; [exact I'|]. intros n Hadj. right.
  apply adjacent_is_neighbour. assumption.
Qed.

(** *** One iteration *)

Lemma loop_body_step fuel_path pf cur rest :
  loop_inv pf -> top_pop (m_queue pf) = Some (cur, rest) ->
  match loop_body fuel_path t cur (with_queue rest pf) with
  | (Fallthrough, pf') => loop_inv pf' /\ (measure pf' < measure pf)%nat
  | (Return r, pf') => found fuel_path r pf'
  | (Throw _, _) => False
  | (Timeout, pf') => chain_too_long fuel_path pf'
  end.
Proof.
  intros I Hpop. unfold loop_body.
  pose proof (top_pop_length _ _ _ Hpop) as Hlen.
  change (get2 false (m_visited (with_queue rest pf)) (Node.row cur) (Node.col cur))
    with (visited_at pf (pos_of cur)).
  destruct (visited_at pf (pos_of cur)) eqn:V.
  - split; [eapply pop_visited; eauto|]. unfold measure. simpl. lia.
  - destruct (pop_optimal pf cur rest I Hpop V) as (Hb & gu & Hg & Hc & Hmin).
    set (pf1 := with_visited _ _).
    assert (T1 : tree pf1).
    { apply (tree_ext pf); [reflexivity..|apply (inv_tree I)]. }
    destruct ((Node.row cur =? fst t) && (Node.col cur =? snd t)) eqn:G.
    + apply andb_true_iff in G as [G1 G2]. apply N.eqb_eq in G1, G2.
      assert (Et : pos_of cur = t).
      { unfold pos_of. rewrite G1, G2. symmetry. apply surjective_pairing. }
      rewrite Et in *.
      destruct (reconstructPath fuel_path pf1 t) as [p|] eqn:R.
      * split; [assumption|]. exists gu. conjs; auto.
      * split; [assumption|]. split; [exists gu; assumption|assumption].
    + assert (Hne : pos_of cur <> t).
      { intros E. apply andb_false_iff in G.
        unfold pos_of in E. rewrite <- E in G. simpl in G.
        rewrite !N.eqb_refl in G. destruct G; discriminate. }
      pose proof (pop_unvisited pf cur rest I Hpop V Hne) as I1.
      fold pf1 in I1.
      assert (V1 : visited_at pf1 (pos_of cur) = true).
      { unfold pf1. change (Node.row cur) with (fst (pos_of cur)).
        change (Node.col cur) with (snd (pos_of cur)).
        rewrite (visited_at_mark (with_queue rest pf));
          [|apply (inv_visited_shape I)|assumption].
        destruct (decide (pos_of cur = pos_of cur)); congruence. }
      destruct (expand_inv cur (pos_of cur) gu pf1 eq_refl Hb Hg I1 V1 Hc)
        as (pf' & E & I' & V' & L').
      rewrite E. split; [assumption|].
      unfold measure. rewrite V'. unfold pf1 at 1. cbn [m_visited with_visited].
      assert (Hat : at2 (m_visited pf) (Node.row cur) (Node.col cur) = Some false).
      { erewrite (get2_at2 _ _ false); [|apply (inv_visited_shape I)|apply Hb..].
        f_equal. exact V. }
      pose proof (unvisited_mark _ _ _ Hat) as Hm.
      unfold pf1 in L'. cbn [m_queue with_visited with_queue] in L'.
      cbn [m_visited with_queue]. lia.
Qed.

(** *** The whole loop *)

Lemma while_queue_spec fuel_path fuel :
  forall pf, loop_inv pf -> (measure pf < fuel)%nat ->
  match while_queue fuel fuel_path t pf with
  | (Fallthrough, pf') => loop_inv pf' /\ m_queue pf' = []
  | (Return r, pf') => found fuel_path r pf'
  | (Throw _, _) => False
  | (Timeout, pf') => chain_too_long fuel_path pf'
  end.
Proof.
  induction fuel as [|fuel IH]; intros pf I Hm; [lia|].
  cbn [while_queue].
  destruct (top_pop (m_queue pf)) as [[cur rest]|] eqn:Hpop.
  - pose proof (loop_body_step fuel_path pf cur rest I Hpop) as Hstep.
    destruct (loop_body fuel_path t cur (with_queue rest pf)) as [[|r|e|] pf'];
      try exact Hstep.
    destruct Hstep as [I' Hm']. apply IH; [assumption|lia].
  - split; [assumption|].
    destruct (m_queue pf) as [|e q] eqn:Eq; [reflexivity|].
    exfalso. apply (top_pop_nonempty (e :: q)); [discriminate|assumption].
Qed.

(** When the queue runs empty, the goal cannot be reached. *)
Lemma exhausted_unreachable pf k :
  loop_inv pf -> m_queue pf = [] -> ~ walk gm s t k.
Proof.
  intros I Eq W.
  destruct (frontier pf t k I W) as [(V & _)|(e & _ & He & _)].
  - rewrite (inv_goal I) in V. discriminate.
  - rewrite Eq in He. destruct He.
Qed.

(** *** The parent chain fits the budget of [reconstructPath] *)

Lemma length_flat_map_const {A B} (f : A -> list B) k l :
  (forall x, length (f x) = k) -> length (flat_map f l) = (length l * k)%nat.
Proof.
  intros H. induction l as [|a l IH]; simpl; [reflexivity|].
  rewrite length_app, IH, H. reflexivity.
Qed.

Lemma length_all_cells : length all_cells = cells gm.
Proof.
  unfold all_cells, cells.
  rewrite (length_flat_map_const _ (N.to_nat (m_cols gm))).
  - rewrite length_seq. reflexivity.
  - intros r. rewrite length_map, length_seq. reflexivity.
Qed.

Lemma in_all_cells n : in_bounds gm n -> In n all_cells.
Proof.
  intros [Hr Hc]. unfold all_cells. apply in_flat_map.
  exists (N.to_nat (fst n)). split; [apply in_seq; lia|].
  apply in_map_iff. exists (N.to_nat (snd n)). split; [|apply in_seq; lia].
  rewrite !N2Nat.id. symmetry. apply surjective_pairing.
Qed.

Lemma chain_fits l :
  List.NoDup l -> Forall (in_bounds gm) l -> (length l <= cells gm)%nat.
Proof.
  intros Hnd Hall. rewrite <- length_all_cells.
  apply NoDup_incl_length; [assumption|].
  intros n Hn. rewrite List.Forall_forall in Hall. apply in_all_cells, Hall, Hn.
Qed.

(** The path [reconstructPath] returns for a cell with a finite cost. *)
Lemma reconstructPath_chain pf fuel_path c :
  tree pf -> cost_at pf t = Half c -> (cells gm < fuel_path)%nat ->
  exists l, reconstructPath fuel_path pf t = Some (rev (cut l)) /\
    is_path gm s t (rev l) /\ sum_steps gm (tl (rev l)) = c /\
    Forall (fun m => m = s \/ passable gm m) l /\
    Forall (in_bounds gm) l.
Proof.
  intros T Hc Hf.
  destruct (tree_chain pf T t c Hgoal Hc) as (l & Hch & Hall & Hnd & Hp & Hsum & Hpw).
  assert (Hin : Forall (in_bounds gm) l).
  { eapply List.Forall_impl; [|exact Hall]. simpl. tauto. }
  exists l. conjs; auto.
  unfold reconstructPath.
  rewrite (follow_parents_chain pf t l (tree_start_parent T) Hch).
  - reflexivity.
  - pose proof (chain_fits l Hnd Hin). lia.
Qed.

(** Every cost the engine records is a multiple of 0.5 between 0 and twice
    the number of cells: doubles of that kind add and compare exactly. *)
Lemma sum_steps_bound l : (sum_steps gm l <= 4 * Z.of_nat (length l))%Z.
Proof.
  unfold sum_steps. induction l as [|q l IH]; cbn [fold_right length]; [lia|].
  assert (step gm q <= 4)%Z by (unfold step; destruct (cell gm q); simpl; lia).
  lia.
Qed.

Lemma recorded_cost_bounded pf n c :
  tree pf -> in_bounds gm n -> cost_at pf n = Half c ->
  (0 <= c <= 4 * Z.of_nat (cells gm))%Z.
Proof.
  intros T Hn Hc. split; [eapply tree_nonneg; eauto|].
  destruct (tree_chain pf T n c Hn Hc) as (l & _ & Hall & Hnd & _ & Hsum & _).
  assert (Hin : Forall (in_bounds gm) l).
  { eapply List.Forall_impl; [|exact Hall]. simpl. tauto. }
  pose proof (chain_fits l Hnd Hin) as Hlen.
  pose proof (sum_steps_bound (tl (rev l))) as Hb. rewrite Hsum in Hb.
  assert (length (tl (rev l)) <= length l)%nat.
  { rewrite <- (length_rev l). destruct (rev l); simpl; lia. }
  lia.
Qed.

(** *** findPath on a fresh engine, with both tracked rows other than 101 *)

Lemma measure_seeded pf :
  m_model pf = gm -> m_queue pf = [] ->
  measure (seeded pf) = (1 + 4 * cells gm)%nat.
Proof.
  intros E Eq. unfold measure, seeded, initialize, rowCount, colCount. simpl.
  rewrite E, Eq, unvisited_make2. reflexivity.
Qed.

Lemma findPath_fuel_searches fuel fuel_path pf :
  m_model pf = gm -> m_queue pf = [] ->
  fst s <> 101 -> fst t <> 101 ->
  (1 + 4 * cells gm < fuel)%nat -> (cells gm < fuel_path)%nat ->
  (exists pf',
     findPath_fuel fuel fuel_path pf
       = (Return {| path := []; totalCost := Half (-2) |}, pf') /\
     forall k, ~ walk gm s t k) \/
  (exists r pf' c l,
     findPath_fuel fuel fuel_path pf = (Return r, pf') /\
     totalCost r = Half c /\ walk gm s t c /\
     (forall k, walk gm s t k -> (c <= k)%Z) /\
     path r = rev (cut l) /\
     is_path gm s t (rev l) /\ sum_steps gm (tl (rev l)) = c /\
     Forall (fun m => m = s \/ passable gm m) l /\
     Forall (in_bounds gm) l).
Proof.
  intros E Eq Hs Ht Hf Hfp. unfold findPath_fuel.
  unfold startPosition, goalPosition. rewrite E.
  destruct (N.eqb_spec (fst s) 101); [contradiction|].
  destruct (N.eqb_spec (fst t) 101); [contradiction|]. cbn [orb].
  pose proof (while_queue_spec fuel_path fuel (seeded pf) (seeded_inv pf E Eq)) as H.
  rewrite (measure_seeded pf E Eq) in H. specialize (H Hf).
  destruct (while_queue fuel fuel_path t (seeded pf)) as [[|r|e|] pf'].
  - left. exists pf'. split; [reflexivity|].
    intros k. apply (exhausted_unreachable pf'); apply H.
  - right. destruct H as (T & c & Hc & Hr & Hmin & Hrec).
    destruct (reconstructPath_chain pf' fuel_path c T Hc Hfp)
      as (l & Hrec' & Hp & Hsum & Hpw & Hin).
    rewrite Hrec in Hrec'. injection Hrec' as Hpath.
    exists r, pf', c, l. conjs; auto.
    eapply tree_walk; eauto.
  - contradiction.
  - exfalso. destruct H as (T & (c & Hc) & Hrec).
    destruct (reconstructPath_chain pf' fuel_path c T Hc Hfp) as (l & Hrec' & _).
    congruence.
Qed.

(** *** The states in which the loop condition is evaluated *)

Lemma loop_head_inv fuel_path pf pf' :
  loop_inv pf -> loop_head fuel_path pf pf' -> loop_inv pf'.
Proof.
  intros I. induction 1 as [|pf' cur rest pf'' _ IH Hpop Hbody]; [assumption|].
  pose proof (loop_body_step fuel_path pf' cur rest IH Hpop) as H.
  rewrite Hbody in H. apply H.
Qed.

Lemma queue_passable pf e :
  loop_inv pf -> In e (m_queue pf) ->
  in_bounds gm (pos_of e) /\ (pos_of e = s \/ passable gm (pos_of e)).
Proof.
  intros I He.
  destruct (inv_queue I e He) as (Hb & ge & c & _ & _ & Hc & _).
  split; [assumption|].
  destruct (position_eq_dec (pos_of e) s) as [?|Hne]; [left; assumption|right].
  apply (tree_parent (inv_tree I) _ c Hb Hc Hne).
Qed.

(** Every cell ever marked visited was taken from the queue. *)
Lemma visited_passable pf n :
  loop_inv pf -> in_bounds gm n -> visited_at pf n = true ->
  n = s \/ passable gm n.
Proof.
  intros I Hb V.
  destruct (inv_optimal I n Hb V) as (c & Hc & _).
  destruct (position_eq_dec n s) as [?|Hne]; [left; assumption|right].
  apply (tree_parent (inv_tree I) _ c Hb Hc Hne).
Qed.
End Search.

(** Without walls every cell can be walked to from every cell. *)
Lemma connected gm a b :
  (forall n, in_bounds gm n -> cell gm n <> Wall) ->
  in_bounds gm a -> in_bounds gm b -> exists k, walk gm a b k.
Proof.
  intros Hfree Ha. remember (Z.to_nat (manhattan a b)) as d eqn:Ed.
  revert b Ed. induction d as [|d IH]; intros b Ed Hb.
  - exists 0%Z. replace b with a; [constructor|].
    unfold manhattan in Ed. destruct a, b. simpl in *. f_equal; lia.
  - assert (Hstep : exists b', in_bounds gm b' /\ adjacent b' b /\
                      d = Z.to_nat (manhattan a b')).
    { unfold manhattan, adjacent, in_bounds in *.
      destruct a as [ar ac], b as [br bc]. simpl in *.
      destruct (N.lt_trichotomy ar br) as [H|[H|H]].
      - exists (br - 1, bc). simpl. conjs; lia.
      - destruct (N.lt_trichotomy ac bc) as [H'|[H'|H']].
        + exists (br, bc - 1). simpl. conjs; lia.
        + lia.
        + exists (br, bc + 1). simpl. conjs; lia.
      - exists (br + 1, bc). simpl. conjs; lia. }
    destruct Hstep as (b' & Hb' & Hadj & Hd).
    destruct (IH b' Hd Hb') as (k & W).
    exists (k + step gm b)%Z. econstructor; eauto. split; auto.
Qed.

(** ** findPath on a freshly constructed engine *)

Lemma walk_zero gm a b : walk gm a b 0 -> a = b.
Proof.
  intros W. inversion W as [|p q k W' Hadj [_ Hq] Hk]; [reflexivity|].
  pose proof (walk_nonneg _ _ _ _ W'). pose proof (step_passable gm b Hq). lia.
Qed.

Lemma tracked_in_bounds gm :
  well_formed gm ->
  (fst (m_start gm) <> 101 -> in_bounds gm (m_start gm)) /\
  (fst (m_goal gm) <> 101 -> in_bounds gm (m_goal gm)).
Proof.
  intros (_ & _ & _ & [Es|Hs] & [Eg|Hg]); split; intros H; try assumption;
    exfalso; apply H; first [rewrite Es|rewrite Eg]; reflexivity.
Qed.

(** The two ways a search can end, for any budgets that cover the bounds. *)
Lemma search_outcome (PQ : PriorityQueue) gm fuel fuel_path :
  well_formed gm ->
  fst (m_start gm) <> 101 -> fst (m_goal gm) <> 101 ->
  (1 + 4 * cells gm < fuel)%nat -> (cells gm < fuel_path)%nat ->
  (fst (findPath_fuel fuel fuel_path (Pathfinder_new gm))
     = Return {| path := []; totalCost := Half (-2) |} /\
   forall k, ~ walk gm (m_start gm) (m_goal gm) k) \/
  (exists r c l,
     fst (findPath_fuel fuel fuel_path (Pathfinder_new gm)) = Return r /\
     totalCost r = Half c /\ walk gm (m_start gm) (m_goal gm) c /\
     (forall k, walk gm (m_start gm) (m_goal gm) k -> (c <= k)%Z) /\
     path r = rev (cut l) /\
     is_path gm (m_start gm) (m_goal gm) (rev l) /\
     sum_steps gm (tl (rev l)) = c /\
     Forall (fun m => m = m_start gm \/ passable gm m) l /\
     Forall (in_bounds gm) l).
Proof.
  intros Hwf Hs Ht Hf Hfp.
  destruct (tracked_in_bounds gm Hwf) as [Hsb Htb].
  destruct Hwf as (Hr & Hc & Hsh & _).
  destruct (findPath_fuel_searches gm Hr Hc (Hsb Hs) (Htb Ht) fuel fuel_path
              (Pathfinder_new gm) eq_refl eq_refl Hs Ht Hf Hfp)
    as [(pf' & E & Hno)|(r & pf' & c & l & E & H)].
  - left. rewrite E. auto.
  - right. exists r, c, l. rewrite E. auto.
Qed.

Lemma find_outcome (PQ : PriorityQueue) gm :
  well_formed gm ->
  fst (m_start gm) <> 101 -> fst (m_goal gm) <> 101 ->
  (find PQ gm = Return {| path := []; totalCost := Half (-2) |} /\
   forall k, ~ walk gm (m_start gm) (m_goal gm) k) \/
  (exists r c l,
     find PQ gm = Return r /\
     totalCost r = Half c /\ walk gm (m_start gm) (m_goal gm) c /\
     (forall k, walk gm (m_start gm) (m_goal gm) k -> (c <= k)%Z) /\
     path r = rev (cut l) /\
     is_path gm (m_start gm) (m_goal gm) (rev l) /\
     sum_steps gm (tl (rev l)) = c /\
     Forall (fun m => m = m_start gm \/ passable gm m) l /\
     Forall (in_bounds gm) l).
Proof.
  intros Hwf Hs Ht. unfold find, findPath.
  apply search_outcome; simpl; auto; lia.
Qed.

Lemma find_unset (PQ : PriorityQueue) gm :
  fst (m_start gm) = 101 \/ fst (m_goal gm) = 101 ->
  find PQ gm = Return {| path := []; totalCost := Half 0 |}.
Proof.
  intros H. unfold find. rewrite findPath_row_101; [reflexivity|exact H].
Qed.

Lemma wall_free_cells gm n : wall_free gm = true -> cell gm n <> Wall.
Proof.
  unfold wall_free, cell, get2, at2. intros H.
  destruct (m_grid gm !! N.to_nat (fst n)) as [line|] eqn:E1; [|discriminate].
  destruct (line !! N.to_nat (snd n)) as [c|] eqn:E2; [|discriminate].
  simpl. rewrite forallb_forall in H.
  apply list_elem_of_lookup_2, list_elem_of_In in E1.
  apply list_elem_of_lookup_2, list_elem_of_In in E2.
  specialize (H _ E1). rewrite forallb_forall in H. specialize (H _ E2).
  unfold CellType_eqb in H. intros ->. discriminate.
Qed.

Lemma signal_eq_Timeout (sig : signal) : sig = Timeout \/ sig <> Timeout.
Proof. destruct sig; [right|right|right|left]; congruence. Qed.

(** A larger budget does not change a result that a smaller one gave. *)
Lemma follow_parents_mono fuel : forall fuel' pf cur acc l,
  follow_parents fuel pf cur acc = Some l -> (fuel <= fuel')%nat ->
  follow_parents fuel' pf cur acc = Some l.
Proof.
  induction fuel as [|fuel IH]; intros fuel' pf cur acc l H Hle; [discriminate|].
  destruct fuel' as [|fuel']; [lia|]. simpl in *.
  destruct (negb (fst cur =? 101)); [|exact H].
  apply IH; [exact H|lia].
Qed.

Lemma loop_body_mono (PQ : PriorityQueue) fp fp' goal cur pf sig pf' :
  loop_body fp goal cur pf = (sig, pf') -> sig <> Timeout -> (fp <= fp')%nat ->
  loop_body fp' goal cur pf = (sig, pf').
Proof.
  unfold loop_body. intros H Hsig Hle.
  destruct (get2 false (m_visited pf) (Node.row cur) (Node.col cur)); [exact H|].
  destruct ((Node.row cur =? fst goal) && (Node.col cur =? snd goal)); [|exact H].
  unfold reconstructPath in *.
  destruct (follow_parents fp _ goal []) as [l|] eqn:E; simpl in H.
  - rewrite (follow_parents_mono _ _ _ _ _ _ E Hle). exact H.
  - injection H as <- _. contradiction.
Qed.

Lemma while_queue_mono (PQ : PriorityQueue) fuel : forall fuel' fp fp' goal pf sig pf',
  while_queue fuel fp goal pf = (sig, pf') -> sig <> Timeout ->
  (fuel <= fuel')%nat -> (fp <= fp')%nat ->
  while_queue fuel' fp' goal pf = (sig, pf').
Proof.
  induction fuel as [|fuel IH]; intros fuel' fp fp' goal pf sig pf' H Hsig Hle Hle'.
  - simpl in H. injection H as <- _. contradiction.
  - destruct fuel' as [|fuel']; [lia|]. cbn [while_queue] in *.
    destruct (top_pop (m_queue pf)) as [[cur rest]|]; [|exact H].
    destruct (loop_body fp goal cur (with_queue rest pf)) as [sig1 pf1] eqn:B.
    destruct (signal_eq_Timeout sig1) as [->|Hne].
    + injection H as <- _. contradiction.
    + rewrite (loop_body_mono PQ _ _ _ _ _ _ _ B Hne Hle').
      destruct sig1; try exact H. eapply IH; eauto. lia.
Qed.

Lemma findPath_fuel_mono (PQ : PriorityQueue) fuel fuel' fp fp' pf r pf' :
  findPath_fuel fuel fp pf = (Return r, pf') ->
  (fuel <= fuel')%nat -> (fp <= fp')%nat ->
  findPath_fuel fuel' fp' pf = (Return r, pf').
Proof.
  unfold findPath_fuel. intros H Hle Hle'.
  destruct ((fst (startPosition (m_model pf)) =? 101)
            || (fst (goalPosition (m_model pf)) =? 101)); [exact H|].
  destruct (while_queue fuel fp _ (seeded pf)) as [sig1 pf1] eqn:W.
  assert (Hne : sig1 <> Timeout) by (intros ->; discriminate).
  rewrite (while_queue_mono PQ _ _ _ _ _ _ _ _ W Hne Hle Hle'). exact H.
Qed.

(** ** Following the loop pop by pop, under every queue policy *)

(** Where one entry has a priority strictly below all others, every policy
    hands out that entry. *)
Lemma top_pop_strict_least (PQ : PriorityQueue) q e L :
  extract_min q = Some (e, L) ->
  forallb (fun m => dlt (Node.f e) (Node.f m)) L = true ->
  exists q', top_pop q = Some (e, q') /\ Permutation q' L.
Proof.
  intros Hm Hall. apply extract_min_perm in Hm.
  rewrite forallb_forall in Hall.
  destruct (top_pop q) as [[n q']|] eqn:E.
  - pose proof (top_pop_perm _ _ _ E) as Hp.
    assert (Hn : In n (e :: L)).
    { eapply Permutation_in; [exact Hm|].
      eapply Permutation_in; [symmetry; exact Hp|]. left. reflexivity. }
    assert (He : In e (n :: q')).
    { eapply Permutation_in; [exact Hp|].
      eapply Permutation_in; [symmetry; exact Hm|]. left. reflexivity. }
    assert (n = e) as ->.
    { destruct Hn as [<-|Hn]; [reflexivity|]. exfalso.
      specialize (Hall _ Hn). destruct He as [->|He].
      - rewrite dlt_irrefl in Hall. discriminate.
      - pose proof (top_pop_least _ _ _ E e He) as Hl.
        unfold Node.gt in Hl. congruence. }
    exists q'. split; [reflexivity|].
    apply (Permutation_cons_inv (a := e)). rewrite <- Hp. exact Hm.
  - exfalso. apply (top_pop_nonempty q); [|exact E].
    intros ->. exact (Permutation_nil_cons Hm).
Qed.

Lemma while_queue_pops (PQ : PriorityQueue) fuel fuel_path goal pf e L :
  extract_min (m_queue pf) = Some (e, L) ->
  forallb (fun m => dlt (Node.f e) (Node.f m)) L = true ->
  exists q', Permutation L q' /\
    while_queue (S fuel) fuel_path goal pf
    = match loop_body fuel_path goal e (with_queue q' pf) with
      | (Fallthrough, pf') => while_queue fuel fuel_path goal pf'
      | stop => stop
      end.
Proof.
  intros Hm Hall.
  destruct (top_pop_strict_least PQ _ _ _ Hm Hall) as (q' & E & Hp).
  exists q'. split; [symmetry; exact Hp|]. cbn [while_queue]. rewrite E. reflexivity.
Qed.

Lemma findPath_fuel_search (PQ : PriorityQueue) fuel fuel_path pf :
  fst (startPosition (m_model pf)) <> 101 ->
  fst (goalPosition (m_model pf)) <> 101 ->
  findPath_fuel fuel fuel_path pf
  = match while_queue fuel fuel_path (goalPosition (m_model pf)) (seeded pf) with
    | (Fallthrough, pf') => (Return {| path := []; totalCost := Half (-2) |}, pf')
    | stop => stop
    end.
Proof.
  intros Hs Hg. unfold findPath_fuel.
  destruct (N.eqb_spec (fst (startPosition (m_model pf))) 101); [contradiction|].
  destruct (N.eqb_spec (fst (goalPosition (m_model pf))) 101); [contradiction|].
  reflexivity.
Qed.

(** Two cells that are each other's parent: the loop of [reconstructPath]
    never leaves them. *)
Lemma follow_parents_cycle pf a b :
  fst a <> 101 -> fst b <> 101 -> parent_at pf a = b -> parent_at pf b = a ->
  forall n acc, follow_parents n pf a acc = None /\ follow_parents n pf b acc = None.
Proof.
  intros Ha Hb Eab Eba. unfold parent_at in *.
  induction n as [|n IH]; intros acc; [split; reflexivity|].
  cbn [follow_parents].
  destruct (N.eqb_spec (fst a) 101); [contradiction|].
  destruct (N.eqb_spec (fst b) 101); [contradiction|]. cbn [negb].
  rewrite Eab, Eba. split; apply IH.
Qed.

Lemma follow_parents_towards pf c :
  fst c <> 101 ->
  (forall n acc, follow_parents n pf (parent_at pf c) acc = None) ->
  forall n acc, follow_parents n pf c acc = None.
Proof.
  intros Hc H n acc. destruct n as [|n]; [reflexivity|]. cbn [follow_parents].
  destruct (N.eqb_spec (fst c) 101); [contradiction|]. apply H.
Qed.

(** The goal is popped, and its parent chain has no end. *)
Lemma goal_popped_without_end (PQ : PriorityQueue) fuel fuel_path goal cur pf :
  get2 false (m_visited pf) (Node.row cur) (Node.col cur) = false ->
  (Node.row cur =? fst goal) && (Node.col cur =? snd goal) = true ->
  (forall n acc,
     follow_parents n
       (with_visited (set2 (m_visited pf) (Node.row cur) (Node.col cur) true) pf)
       goal acc = None) ->
  fst (match
         match loop_body fuel_path goal cur pf with
         | (Fallthrough, pf') => while_queue fuel fuel_path goal pf'
         | stop => stop
         end
       with
       | (Fallthrough, pf') =>
           (Return {| path := []; totalCost := Half (-2) |}, pf')
       | stop => stop
       end) = Timeout.
Proof.
  intros V G H. unfold loop_body, reconstructPath. rewrite V, G, H. reflexivity.
Qed.

(** One iteration of the loop on a state that is known: the entry every
    policy pops, and the body run on it. *)
Ltac run_loop_body :=
  match goal with
  | |- context [loop_body ?a ?b ?c ?d] =>
      let v := eval vm_compute in (loop_body a b c d) in
      change (loop_body a b c d) with v; cbv iota beta
  end.

Ltac pop PQ :=
  match goal with
  | |- context [@while_queue PQ (S ?fuel) ?fp ?goal ?pf] =>
      let q' := fresh "q" in let Hq := fresh "Hq" in let E := fresh "E" in
      edestruct (while_queue_pops PQ fuel fp goal pf) as (q' & Hq & E);
      [reflexivity | reflexivity | rewrite E; clear E]
  end.

Ltac parent_step :=
  apply follow_parents_towards; [vm_compute; congruence|];
  match goal with
  | |- context [parent_at ?pf ?c] =>
      let v := eval vm_compute in (parent_at pf c) in
      change (parent_at pf c) with v
  end.

Ltac known_search :=
  rewrite findPath_fuel_search by (vm_compute; congruence);
  match goal with
  | |- context [seeded ?pf] =>
      let v := eval vm_compute in (seeded pf) in change (seeded pf) with v
  end;
  match goal with
  | |- context [goalPosition ?gm] =>
      let v := eval vm_compute in (goalPosition gm) in
      change (goalPosition gm) with v
  end.

(** ** The claims about findPath *)

(** C10 (confirmed): [findPath] tells an unset position by the row alone.
    A start or goal that really is on the grid, in row 101 (whatever its
    column), makes [findPath] return what it returns when that position is
    unset, without searching; and when both rows differ from 101 the search
    is run, also for a position in column 101: on a 1 by 103 grid with the
    start at (0,101) and the goal at (0,102) the path between them is
    found. *)
Theorem C10_unset_is_told_by_row_101 (PQ : PriorityQueue) (gm : GridModel) :
  (start_set gm /\ fst (m_start gm) = 101) \/
  (goal_set gm /\ fst (m_goal gm) = 101) ->
  101 < m_rows gm /\
  findPath (Pathfinder_new gm)
    = (Return {| path := []; totalCost := Half 0 |}, Pathfinder_new gm) /\
  find PQ gm = find PQ (with_start no_position gm) /\
  find PQ gm = find PQ (with_goal no_position gm) /\
  (forall pf : Pathfinder,
     fst (startPosition (m_model pf)) <> 101 ->
     fst (goalPosition (m_model pf)) <> 101 ->
     forall fuel fuel_path,
     findPath_fuel fuel fuel_path pf
     = match while_queue fuel fuel_path (goalPosition (m_model pf)) (seeded pf) with
       | (Fallthrough, pf') =>
           (Return {| path := []; totalCost := Half (-2) |}, pf')
       | stop => stop
       end) /\
  find last_pushed_first
       (run_calls [(0, 101, Start); (0, 102, Goal)] (GridModel_new 1 103))
    = Return {| path := [(0, 101); (0, 102)]; totalCost := Half 2 |}.
Proof.
  intros H.
  assert (H101 : fst (m_start gm) = 101 \/ fst (m_goal gm) = 101) by tauto.
  conjs.
  - destruct H as [[[[Hr _] _] E]|[[[Hr _] _] E]]; rewrite E in Hr; exact Hr.
  - apply findPath_row_101. exact H101.
  - rewrite (find_unset PQ gm H101).
    rewrite (find_unset PQ (with_start no_position gm)); [reflexivity|].
    left. reflexivity.
  - rewrite (find_unset PQ gm H101).
    rewrite (find_unset PQ (with_goal no_position gm)); [reflexivity|].
    right. reflexivity.
  - intros pf Hs Hg fuel fuel_path. unfold findPath_fuel.
    destruct (N.eqb_spec (fst (startPosition (m_model pf))) 101); [contradiction|].
    destruct (N.eqb_spec (fst (goalPosition (m_model pf))) 101); [contradiction|].
    reflexivity.
  - vm_compute. reflexivity.
Qed.

Lemma C10_unset_is_told_by_row_101_witness :
  let gm := run_calls [(101, 0, Start); (0, 0, Goal)] (GridModel_new 102 1) in
  101 < m_rows gm /\
  find last_pushed_first gm = find last_pushed_first (with_start no_position gm).
Proof.
  intros gm.
  assert (H : (start_set gm /\ fst (m_start gm) = 101) \/
              (goal_set gm /\ fst (m_goal gm) = 101)).
  { left. vm_compute. auto. }
  destruct (C10_unset_is_told_by_row_101 last_pushed_first gm H)
    as (H1 & _ & H2 & _).
  split; assumption.
Defined.

(** C7 (amended): for [findPath] called on a newly constructed
    [Pathfinder], on a grid whose start and goal are set in rows other than
    101 (so that the search is run): when the queue runs empty without the
    goal having been popped, [findPath] returns an empty path and the cost
    -1; in particular it does so whenever no path leads from the start to
    the goal, as when walls separate them. *)
Theorem C7_exhausted_frontier_gives_minus_one (PQ : PriorityQueue) (gm : GridModel) :
  well_formed gm ->
  fst (m_start gm) <> 101 -> fst (m_goal gm) <> 101 ->
  (forall fuel fuel_path pf',
     while_queue fuel fuel_path (m_goal gm) (seeded (Pathfinder_new gm))
       = (Fallthrough, pf') ->
     findPath_fuel fuel fuel_path (Pathfinder_new gm)
       = (Return {| path := []; totalCost := Half (-2) |}, pf')) /\
  ((forall p, ~ is_path gm (m_start gm) (m_goal gm) p) ->
   find PQ gm = Return {| path := []; totalCost := Half (-2) |}).
Proof.
  intros Hwf Hs Hg. split.
  - intros fuel fuel_path pf' E. unfold findPath_fuel.
    unfold startPosition, goalPosition. simpl m_model.
    destruct (N.eqb_spec (fst (m_start gm)) 101); [contradiction|].
    destruct (N.eqb_spec (fst (m_goal gm)) 101); [contradiction|].
    cbn [orb]. rewrite E. reflexivity.
  - intros Hno.
    destruct (find_outcome PQ gm Hwf Hs Hg) as [[E _]|(r & c & l & _ & _ & W & _)];
      [exact E|].
    exfalso. destruct (walk_is_path _ _ _ _ W) as (p & Hp & _).
    exact (Hno p Hp).
Qed.

Lemma C7_exhausted_frontier_gives_minus_one_witness :
  let gm := run_calls [(0, 0, Start); (0, 2, Goal); (0, 1, Wall)] (GridModel_new 1 3) in
  find last_pushed_first gm = Return {| path := []; totalCost := Half (-2) |}.
Proof.
  intros gm.
  assert (Hwf : well_formed gm) by (apply well_formed_run_calls; lia).
  assert (H1 : fst (m_start gm) <> 101) by (vm_compute; discriminate).
  assert (H2 : fst (m_goal gm) <> 101) by (vm_compute; discriminate).
  apply (C7_exhausted_frontier_gives_minus_one last_pushed_first gm Hwf H1 H2).
  intros p Hp. apply is_path_walk in Hp.
  assert (Hstay : forall n k, walk gm (0, 0) n k -> n = (0, 0)).
  { clear. intros n k W. induction W as [|p q k _ IH Hadj [[Hr Hc] Hq]]; [reflexivity|].
    subst p. destruct q as [qr qc]. unfold adjacent in Hadj. simpl in *.
    change (m_rows gm) with 1 in Hr. change (m_cols gm) with 3 in Hc.
    assert (qr = 0) by lia. subst qr.
    assert (qc = 1) by lia. subst qc.
    exfalso. apply Hq. vm_compute. reflexivity. }
  change (m_start gm) with (0, 0) in Hp. change (m_goal gm) with (0, 2) in Hp.
  apply Hstay in Hp. discriminate.
Defined.

(** C7 as the specification words it fails on a 102 by 1 grid whose start is
    the cell (101,0), whose goal is the cell (0,0), and whose cell (50,0) is
    a wall: the wall separates the start from the goal, no path leads from
    one to the other, and [findPath] returns the cost 0.0, not -1, under
    every queue policy. *)
Lemma C7_counterexample :
  let gm := run_calls [(101, 0, Start); (0, 0, Goal); (50, 0, Wall)]
                      (GridModel_new 102 1) in
  well_formed gm /\ start_set gm /\ goal_set gm /\
  cell gm (50, 0) = Wall /\
  (forall p, ~ is_path gm (m_start gm) (m_goal gm) p) /\
  (forall PQ, find PQ gm = Return {| path := []; totalCost := Half 0 |}) /\
  Half 0 <> Half (-2).
Proof.
  intros gm.
  assert (Hstay : forall n k, walk gm (101, 0) n k -> 50 < fst n).
  { intros n k W. induction W as [|p q k _ IH Hadj [[Hr Hc] Hq]]; [simpl; lia|].
    destruct p as [pr pc], q as [qr qc]. unfold adjacent in Hadj. simpl in *.
    change (m_rows gm) with 102 in Hr. change (m_cols gm) with 1 in Hc.
    destruct (N.eq_dec qr 50) as [->|Hne]; [|lia].
    assert (qc = 0) by lia. subst qc.
    exfalso. apply Hq. vm_compute. reflexivity. }
  refine (conj _ (conj _ (conj _ (conj _ (conj _ (conj _ _)))))).
  - apply (well_formed_run_calls 102 1); lia.
  - vm_compute. auto.
  - vm_compute. auto.
  - vm_compute. reflexivity.
  - intros p Hp. apply is_path_walk in Hp.
    change (m_start gm) with (101, 0) in Hp. change (m_goal gm) with (0, 0) in Hp.
    apply Hstay in Hp. simpl in Hp. lia.
  - intros PQ. apply find_unset. left. reflexivity.
  - discriminate.
Qed.

(** X21: on a well-formed grid where the cell at the tracked start has type
    [Start] and the cell at the tracked goal has type [Goal], for
    [findPath] called on a newly constructed [Pathfinder]: no cell of the
    path it returns is a wall; and in every state in which the loop
    condition is evaluated, no entry of the queue and no visited cell is a
    wall, so no wall is ever pushed or popped. *)
Theorem walls_are_never_entered_from_a_Start_cell (PQ : PriorityQueue) (gm : GridModel) :
  well_formed gm -> start_set gm -> goal_set gm ->
  (forall r, find PQ gm = Return r ->
     forall p, In p (path r) -> in_bounds gm p /\ cell gm p <> Wall) /\
  (forall fuel_path pf',
     loop_head gm fuel_path (seeded (Pathfinder_new gm)) pf' ->
     (forall e, In e (m_queue pf') ->
        in_bounds gm (pos_of e) /\ cell gm (pos_of e) <> Wall) /\
     (forall n, in_bounds gm n -> visited_at pf' n = true -> cell gm n <> Wall)).
Proof.
  intros Hwf [Hsb Hsc] [Hgb Hgc].
  assert (Hok : forall m, m = m_start gm \/ passable gm m -> cell gm m <> Wall).
  { intros m [->|[_ H]]; [congruence|assumption]. }
  split.
  - intros r Hr p Hp.
    destruct (N.eq_dec (fst (m_start gm)) 101) as [E|Hs];
      [rewrite find_unset in Hr by auto; injection Hr as <-; destruct Hp|].
    destruct (N.eq_dec (fst (m_goal gm)) 101) as [E|Hg];
      [rewrite find_unset in Hr by auto; injection Hr as <-; destruct Hp|].
    destruct (find_outcome PQ gm Hwf Hs Hg)
      as [[E _]|(r' & c & l & E & _ & _ & _ & Hpath & _ & _ & Hpw & Hin)];
      rewrite E in Hr; injection Hr as <-; [destruct Hp|].
    rewrite Hpath in Hp. apply in_rev, cut_incl in Hp.
    rewrite List.Forall_forall in Hpw, Hin. split; [apply Hin|apply Hok, Hpw]; exact Hp.
  - intros fuel_path pf' Hhead.
    destruct Hwf as (Hr & Hc & Hsh & _).
    assert (I : loop_inv gm pf').
    { eapply loop_head_inv; eauto. apply seeded_inv; auto. }
    split.
    + intros e He. destruct (queue_passable gm pf' e I He) as [Hb Hp].
      split; [assumption|apply Hok, Hp].
    + intros n Hn V. apply Hok. eapply visited_passable; eauto.
Qed.

Lemma walls_are_never_entered_from_a_Start_cell_witness :
  let gm := run_calls [(0, 0, Start); (2, 2, Goal); (1, 1, Wall); (0, 1, Wall)]
                      (GridModel_new 3 3) in
  Forall (fun p => in_bounds gm p /\ cell gm p <> Wall)
         [(0, 0); (1, 0); (2, 0); (2, 1); (2, 2)].
Proof.
  intros gm.
  assert (Hwf : well_formed gm) by (apply well_formed_run_calls; lia).
  assert (Hs : start_set gm) by (vm_compute; auto).
  assert (Hg : goal_set gm) by (vm_compute; auto).
  apply List.Forall_forall.
  refine (proj1 (walls_are_never_entered_from_a_Start_cell last_pushed_first gm Hwf Hs Hg)
            {| path := [(0, 0); (1, 0); (2, 0); (2, 1); (2, 2)];
               totalCost := Half 8 |} _).
  vm_compute. reflexivity.
Defined.

(** C6 (the code departs from the claim): on a 1 by 2 grid, after
    [setCellState(0, 0, Start)], [setCellState(0, 1, Goal)] and
    [setCellState(0, 0, Wall)], the start and the goal are set as
    [findPath] tests it (their rows are not 101) and the cell (0,0) is a
    wall (the tracked start is stale, see C3).  [findPath] never looks at
    the type of the start cell: it puts that wall on the queue, pops it,
    and returns the path (0,0), (0,1) that begins on it, under every queue
    policy. *)
Theorem C6_path_begins_on_a_wall (PQ : PriorityQueue) :
  let gm := run_calls [(0, 0, Start); (0, 1, Goal); (0, 0, Wall)] (GridModel_new 1 2) in
  well_formed gm /\
  fst (startPosition gm) <> 101 /\ fst (goalPosition gm) <> 101 /\
  cell gm (0, 0) = Wall /\
  m_queue (seeded (Pathfinder_new gm)) = [Node.mk 0 0 (Half 0) (Half 1)] /\
  find PQ gm = Return {| path := [(0, 0); (0, 1)]; totalCost := Half 2 |}.
Proof.
  intros gm. refine (conj _ (conj _ (conj _ (conj _ (conj _ _))))).
  - apply (well_formed_run_calls 1 2); lia.
  - vm_compute. congruence.
  - vm_compute. congruence.
  - vm_compute. reflexivity.
  - vm_compute. reflexivity.
  - unfold find, findPath. known_search.
    set (F := S (S _ + _)%nat). vm_compute in F.
    set (FP := S (cells _)). vm_compute in FP. subst F FP.
    pop PQ. apply Permutation_nil in Hq. subst q. run_loop_body.
    pop PQ. apply Permutation_nil in Hq. subst q. run_loop_body.
    reflexivity.
Qed.

(** X22: on every well-formed grid, [findPath] called on a newly
    constructed [Pathfinder] returns, under every queue policy.  Each
    iteration of the loop that goes on to the next one lowers the number of
    queue entries plus four times the number of unvisited cells, so the
    loop ends within that many iterations, and the parent chain that
    [reconstructPath] follows has no more cells than the grid; any budgets
    above these bounds give the same result. *)
Theorem findPath_returns_on_a_new_engine (PQ : PriorityQueue) (gm : GridModel) :
  well_formed gm ->
  (exists r, find PQ gm = Return r /\
     forall fuel fuel_path,
       (1 + 4 * cells gm < fuel)%nat -> (cells gm < fuel_path)%nat ->
       fst (findPath_fuel fuel fuel_path (Pathfinder_new gm)) = Return r) /\
  (in_bounds gm (m_start gm) -> in_bounds gm (m_goal gm) ->
   forall fuel_path pf' cur rest pf'',
     loop_head gm fuel_path (seeded (Pathfinder_new gm)) pf' ->
     top_pop (m_queue pf') = Some (cur, rest) ->
     loop_body fuel_path (m_goal gm) cur (with_queue rest pf') = (Fallthrough, pf'') ->
     (measure pf'' < measure pf')%nat).
Proof.
  intros Hwf.
  assert (Hfuel : forall fuel fuel_path,
     (1 + 4 * cells gm < fuel)%nat -> (cells gm < fuel_path)%nat ->
     exists r, fst (findPath_fuel fuel fuel_path (Pathfinder_new gm)) = Return r).
  { intros fuel fuel_path Hf Hfp.
    destruct (N.eq_dec (fst (m_start gm)) 101) as [E|Hs].
    { eexists. unfold findPath_fuel, startPosition. simpl m_model.
      rewrite E. reflexivity. }
    destruct (N.eq_dec (fst (m_goal gm)) 101) as [E|Hg].
    { eexists. unfold findPath_fuel, goalPosition. simpl m_model.
      rewrite E, orb_true_r. reflexivity. }
    destruct (search_outcome PQ gm fuel fuel_path Hwf Hs Hg Hf Hfp)
      as [[E _]|(r & c & l & E & _)]; eauto. }
  split.
  - destruct (Hfuel (S (S 0 + 4 * cells gm)) (S (cells gm))) as [r Hr]; [lia..|].
    exists r. split; [exact Hr|].
    intros fuel fuel_path Hf Hfp.
    destruct (findPath_fuel (S (S 0 + 4 * cells gm)) (S (cells gm)) (Pathfinder_new gm))
      as [sig pf'] eqn:E.
    simpl in Hr. subst sig.
    rewrite (findPath_fuel_mono PQ _ fuel _ fuel_path _ _ _ E); [reflexivity|lia..].
  - intros Hsb Hgb fuel_path pf' cur rest pf'' Hhead Hpop Hbody.
    destruct Hwf as (Hr & Hc & Hsh & _).
    assert (I : loop_inv gm pf').
    { eapply loop_head_inv; eauto. apply seeded_inv; auto. }
    pose proof (loop_body_step gm Hr Hc Hsb fuel_path pf' cur rest I Hpop) as H.
    rewrite Hbody in H. apply H.
Qed.

Lemma findPath_returns_on_a_new_engine_witness :
  exists r,
    find last_pushed_first
         (run_calls [(0, 0, Start); (2, 2, Goal); (1, 1, Wall)] (GridModel_new 3 3))
    = Return r.
Proof.
  destruct (findPath_returns_on_a_new_engine last_pushed_first
              (run_calls [(0, 0, Start); (2, 2, Goal); (1, 1, Wall)] (GridModel_new 3 3)))
    as [(r & Hr & _) _].
  - apply well_formed_run_calls; lia.
  - exists r. exact Hr.
Defined.

(** C9 (the code departs from the claim): a [Pathfinder] that is used a
    second time may never return.  [initialize()] leaves [m_queue] as the
    last search left it.  On a 1 by 10 grid with the start at (0,2) and the
    goal at (0,0), a first [findPath] returns the path (0,2), (0,1), (0,0)
    and leaves the entry for (0,3) in the queue.  After the start is moved
    to (0,9) and a wall is put at (0,4), a second [findPath] on the same
    object pops that entry, makes (0,3) the parent of (0,2), then (0,2) the
    parent of (0,3), reaches the goal from (0,2), and [reconstructPath]
    goes round the two cells for ever: whatever the budgets of the two
    loops, the call does not come to an end, under every queue policy. *)
Theorem C9_second_search_never_returns (PQ : PriorityQueue) :
  let gm1 := run_calls [(0, 2, Start); (0, 0, Goal)] (GridModel_new 1 10) in
  let gm2 := run_calls [(0, 9, Start); (0, 4, Wall)] gm1 in
  exists pf,
    findPath (Pathfinder_new gm1)
      = (Return {| path := [(0, 2); (0, 1); (0, 0)]; totalCost := Half 4 |}, pf) /\
    m_queue pf = [Node.mk 0 3 (Half 2) (Half 5)] /\
    m_queue (initialize pf) = m_queue pf /\
    well_formed gm2 /\
    forall fuel fuel_path,
      fst (findPath_fuel fuel fuel_path (with_model gm2 pf)) = Timeout.
Proof.
  intros gm1 gm2. eexists. split; [|split; [|split; [|split]]].
  - unfold findPath. known_search.
    set (F := S (S _ + _)%nat). vm_compute in F.
    set (FP := S (cells _)). vm_compute in FP. subst F FP.
    pop PQ. apply Permutation_nil in Hq. subst q. run_loop_body.
    pop PQ. apply Permutation_length_1_inv in Hq. subst q. run_loop_body.
    pop PQ. apply Permutation_length_1_inv in Hq. subst q. run_loop_body.
    reflexivity.
  - reflexivity.
  - reflexivity.
  - apply (run_calls_keeps well_formed);
      [intros; apply well_formed_setCellState; assumption|].
    apply (well_formed_run_calls 1 10); lia.
  - intros fuel fuel_path. known_search.
    destruct fuel as [|fuel]; [reflexivity|].
    pop PQ. apply Permutation_length_1_inv in Hq. subst q. run_loop_body.
    destruct fuel as [|fuel]; [reflexivity|].
    pop PQ. apply Permutation_length_1_inv in Hq. subst q. run_loop_body.
    destruct fuel as [|fuel]; [reflexivity|].
    pop PQ. apply Permutation_length_2_inv in Hq.
    destruct Hq as [->| ->]; run_loop_body;
      (destruct fuel as [|fuel]; [reflexivity|]);
      pop PQ;
      (apply goal_popped_without_end; [reflexivity|reflexivity|]);
      parent_step; parent_step; intros n acc;
      apply (follow_parents_cycle _ (0, 2) (0, 3));
      solve [vm_compute; congruence | reflexivity].
Qed.

(** An engine that is used again, on a grid without walls: with the start
    at (0,2) and the goal at (0,0) of a 1 by 6 grid, a first search leaves
    the entry for (0,3); after the start is moved to (0,5), a second search
    on the same object returns the cost 4.0 for a path of six cells, whose
    steps cost 5.0, the cost that a new engine returns. *)
Example reused_engine_returns_a_lower_cost :
  let gm1 := run_calls [(0, 2, Start); (0, 0, Goal)] (GridModel_new 1 6) in
  let gm2 := run_calls [(0, 5, Start)] gm1 in
  let pf := snd (findPath (PQ := last_pushed_first) (Pathfinder_new gm1)) in
  fst (findPath (PQ := last_pushed_first) (with_model gm2 pf))
    = Return {| path := [(0, 5); (0, 4); (0, 3); (0, 2); (0, 1); (0, 0)];
                totalCost := Half 8 |} /\
  find last_pushed_first gm2
    = Return {| path := [(0, 5); (0, 4); (0, 3); (0, 2); (0, 1); (0, 0)];
                totalCost := Half 10 |} /\
  wall_free gm2 = true.
Proof. vm_compute. auto. Qed.

(** C4 (amended): on a grid without walls, with its start and goal set in
    rows other than 101, [findPath] called on a newly constructed
    [Pathfinder] returns the least cost of a four-directionally connected
    path from the start to the goal: some path has exactly the returned
    cost and no path costs less.  ([find] is [findPath] on
    [Pathfinder_new]; an engine that is used again keeps the queue of its
    last search, see [reused_engine_returns_a_lower_cost].) *)
Theorem C4_total_cost_is_least (PQ : PriorityQueue) (gm : GridModel) :
  well_formed gm -> start_set gm -> goal_set gm ->
  (forall n, in_bounds gm n -> cell gm n <> Wall) ->
  fst (m_start gm) <> 101 -> fst (m_goal gm) <> 101 ->
  exists r p,
    find PQ gm = Return r /\
    is_path gm (m_start gm) (m_goal gm) p /\
    path_cost gm p = totalCost r /\
    forall p', is_path gm (m_start gm) (m_goal gm) p' ->
               dlt (path_cost gm p') (totalCost r) = false.
Proof.
  intros Hwf [Hsb _] [Hgb _] Hfree Hs Hg.
  destruct (find_outcome PQ gm Hwf Hs Hg)
    as [[_ Hno]|(r & c & l & E & Hc & W & Hmin & _)].
  - destruct (connected gm _ _ Hfree Hsb Hgb) as (k & W). destruct (Hno k W).
  - destruct (walk_is_path _ _ _ _ W) as (p & Hp & Hpc).
    exists r, p. conjs; auto; [congruence|].
    intros p' Hp'. apply is_path_walk, Hmin in Hp'.
    rewrite Hc. unfold path_cost in *. rewrite sum_costs_steps in *. simpl in *.
    apply Z.ltb_ge. exact Hp'.
Qed.

Lemma C4_total_cost_is_least_witness :
  let gm := run_calls [(0, 0, Start); (2, 2, Goal); (1, 1, Boost); (0, 1, Rough)]
                      (GridModel_new 3 3) in
  exists r p,
    find last_pushed_first gm = Return r /\
    is_path gm (m_start gm) (m_goal gm) p /\
    path_cost gm p = totalCost r /\
    forall p', is_path gm (m_start gm) (m_goal gm) p' ->
               dlt (path_cost gm p') (totalCost r) = false.
Proof.
  intros gm.
  apply (C4_total_cost_is_least last_pushed_first gm).
  - apply well_formed_run_calls; lia.
  - vm_compute. auto.
  - vm_compute. auto.
  - intros n _. apply wall_free_cells. vm_compute. reflexivity.
  - vm_compute. discriminate.
  - vm_compute. discriminate.
Defined.

(** C4 as the specification words it fails on a 102 by 1 grid without
    walls whose start is the cell (101,0) and whose goal is the cell (0,0):
    [findPath] returns the cost 0.0, while paths from the start to the goal
    exist and none of them costs 0.0. *)
Lemma C4_counterexample :
  let gm := run_calls [(101, 0, Start); (0, 0, Goal)] (GridModel_new 102 1) in
  start_set gm /\ goal_set gm /\
  (forall n, in_bounds gm n -> cell gm n <> Wall) /\
  (forall PQ, find PQ gm = Return {| path := []; totalCost := Half 0 |}) /\
  (exists p, is_path gm (m_start gm) (m_goal gm) p) /\
  (forall p, is_path gm (m_start gm) (m_goal gm) p -> path_cost gm p <> Half 0).
Proof.
  intros gm.
  assert (Hs : start_set gm) by (vm_compute; auto).
  assert (Hg : goal_set gm) by (vm_compute; auto).
  assert (Hfree : forall n, in_bounds gm n -> cell gm n <> Wall).
  { intros n _. apply wall_free_cells. vm_compute. reflexivity. }
  conjs; auto.
  - destruct (connected gm _ _ Hfree (proj1 Hs) (proj1 Hg)) as (k & W).
    destruct (walk_is_path _ _ _ _ W) as (p & Hp & _). eauto.
  - intros p Hp E. apply is_path_walk in Hp. rewrite E in Hp. simpl in Hp.
    apply walk_zero in Hp. vm_compute in Hp. discriminate.
Qed.

(** C5 (amended): on a grid of at most 101 rows, whenever [findPath]
    called on a newly constructed [Pathfinder] returns a non-empty path
    p0, ..., pn, the returned cost is the sum over
    i = 1..n of the step cost of p_i, keyed by the type of that cell (Rough
    2.0, Boost 0.5, Normal, Start and Goal 1.0), and the path leads from
    the start to the goal. *)
Theorem C5_total_cost_is_sum_of_steps (PQ : PriorityQueue) (gm : GridModel)
    (r : PathResult) :
  well_formed gm -> m_rows gm <= 101 ->
  find PQ gm = Return r -> path r <> [] ->
  totalCost r = sum_costs gm (tl (path r)) /\
  is_path gm (m_start gm) (m_goal gm) (path r) /\
  getCost Rough = Half 4 /\ getCost Boost = Half 1 /\
  getCost Normal = Half 2 /\ getCost Start = Half 2 /\ getCost Goal = Half 2.
Proof.
  intros Hwf Hrows Hr Hne.
  destruct (N.eq_dec (fst (m_start gm)) 101) as [E|Hs];
    [rewrite find_unset in Hr by auto; injection Hr as <-; contradiction|].
  destruct (N.eq_dec (fst (m_goal gm)) 101) as [E|Hg];
    [rewrite find_unset in Hr by auto; injection Hr as <-; contradiction|].
  destruct (find_outcome PQ gm Hwf Hs Hg)
    as [[E _]|(r' & c & l & E & Hc & _ & _ & Hpath & Hp & Hsum & _ & Hin)];
    rewrite E in Hr; injection Hr as <-; [contradiction|].
  assert (Hcut : cut l = l).
  { apply cut_all. eapply List.Forall_impl; [|exact Hin].
    intros m [Hm _]. lia. }
  rewrite Hcut in Hpath. rewrite Hpath, Hc, sum_costs_steps, Hsum.
  conjs; auto.
Qed.

Lemma C5_total_cost_is_sum_of_steps_witness :
  let gm := run_calls [(0, 0, Start); (2, 2, Goal); (1, 1, Boost)]
                      (GridModel_new 3 3) in
  Half 7 = sum_costs gm [(0, 1); (1, 1); (1, 2); (2, 2)].
Proof.
  intros gm.
  refine (proj1 (C5_total_cost_is_sum_of_steps last_pushed_first gm
            {| path := [(0, 0); (0, 1); (1, 1); (1, 2); (2, 2)];
               totalCost := Half 7 |} _ _ _ _)).
  - apply well_formed_run_calls; lia.
  - vm_compute. discriminate.
  - vm_compute. reflexivity.
  - discriminate.
Defined.

(** C5 as the specification words it fails on a 103 by 1 grid with the
    start at (100,0) and the goal at (102,0): the parent chain runs through
    the cell (101,0), whose row [reconstructPath] takes for "no parent", so
    the returned path is the goal alone, with no step in it, and the
    returned cost is 2.0. *)
Lemma C5_counterexample :
  let gm := run_calls [(100, 0, Start); (102, 0, Goal)] (GridModel_new 103 1) in
  exists r,
    find last_pushed_first gm = Return r /\
    path r = [(102, 0)] /\ totalCost r = Half 4 /\
    sum_costs gm (tl (path r)) = Half 0 /\
    totalCost r <> sum_costs gm (tl (path r)).
Proof.
  intros gm. eexists. split; [vm_compute; reflexivity|].
  simpl. conjs; auto.
Qed.

(** * Further properties *)

(** ** GridModel *)

(** Two tables of the same shape with the same entries are equal. *)
Lemma ext2 {A} rows cols (v w : list (list A)) :
  shape rows cols v -> shape rows cols w ->
  (forall r c, r < rows -> c < cols -> at2 v r c = at2 w r c) ->
  v = w.
Proof.
  intros [Hlv Hrv] [Hlw Hrw] H. apply list_eq. intros i.
  destruct (v !! i) as [lv|] eqn:Ev.
  - pose proof (lookup_lt_Some _ _ _ Ev) as Hi.
    destruct (lookup_lt_is_Some_2 w i) as [lw Ew]; [lia|]. rewrite Ew. f_equal.
    apply list_eq. intros j.
    destruct (lv !! j) as [x|] eqn:Ex.
    + pose proof (lookup_lt_Some _ _ _ Ex) as Hj. rewrite (Hrv _ _ Ev) in Hj.
      specialize (H (N.of_nat i) (N.of_nat j) ltac:(lia) ltac:(lia)).
      unfold at2 in H. rewrite !Nat2N.id, Ev, Ew, Ex in H. exact H.
    + apply lookup_ge_None in Ex. symmetry. apply lookup_ge_None.
      rewrite (Hrw _ _ Ew). rewrite (Hrv _ _ Ev) in Ex. exact Ex.
  - apply lookup_ge_None in Ev. symmetry. apply lookup_ge_None. lia.
Qed.

Lemma at2_clear (v : list (list CellType)) r c x :
  at2 v r c = Some x ->
  at2 (map (map (fun _ : CellType => Normal)) v) r c = Some Normal.
Proof.
  unfold at2. change map with (@fmap list _). rewrite list_lookup_fmap.
  destruct (v !! N.to_nat r) as [line|]; [|discriminate]. simpl.
  change map with (@fmap list _). rewrite list_lookup_fmap.
  intros ->. reflexivity.
Qed.

Lemma clearGrid_new gm :
  shape (m_rows gm) (m_cols gm) (m_grid gm) ->
  clearGrid gm = (inr tt, GridModel_new (m_rows gm) (m_cols gm)).
Proof.
  intros Hs. unfold clearGrid, modify, GridModel_new. do 2 f_equal.
  apply (ext2 (m_rows gm) (m_cols gm)).
  - apply shape_clear. assumption.
  - apply shape_make2.
  - intros r c Hr Hc. rewrite at2_make2 by assumption.
    destruct (at2_inside _ _ _ _ _ Hs Hr Hc) as [x Hx].
    eapply at2_clear; eauto.
Qed.

(** X1: on a grid whose table has the dimensions of the model, [clearGrid]
    does not throw and leaves exactly the model that the constructor builds
    for these dimensions: every cell [Normal], both positions unset. *)
Theorem clearGrid_is_fresh (gm : GridModel) :
  shape (m_rows gm) (m_cols gm) (m_grid gm) ->
  clearGrid gm = (inr tt, GridModel_new (m_rows gm) (m_cols gm)).
Proof. apply clearGrid_new. Qed.

Lemma clearGrid_is_fresh_witness :
  clearGrid (run_calls [(0, 0, Start); (1, 1, Wall); (0, 0, Rough)] (GridModel_new 2 3))
  = (inr tt, GridModel_new 2 3).
Proof.
  apply (clearGrid_is_fresh
           (run_calls [(0, 0, Start); (1, 1, Wall); (0, 0, Rough)] (GridModel_new 2 3))).
  apply (well_formed_run_calls 2 3); lia.
Defined.

Lemma moved_effect pos r c t gm :
  pos = ref_m_start \/ pos = ref_m_goal ->
  well_formed gm -> r < m_rows gm -> c < m_cols gm ->
  m_rows (moved pos r c t gm) = m_rows gm /\
  m_cols (moved pos r c t gm) = m_cols gm /\
  ref_read pos (moved pos r c t gm) = (r, c) /\
  forall p, cell (moved pos r c t gm) p =
    if decide (p = (r, c)) then t
    else if decide (ref_read pos gm <> no_position /\ p = ref_read pos gm)
         then Normal else cell gm p.
Proof.
  intros Hpos (_ & _ & Hs & Hst & Hgo) Hr Hc. unfold moved.
  set (old := ref_read pos gm).
  assert (Hold : old = no_position \/ in_bounds gm old).
  { subst old. destruct Hpos as [-> | ->]; assumption. }
  set (g1 := if decide (old = no_position) then gm
             else write_cell (fst old) (snd old) Normal gm).
  assert (Hc1 : forall p, cell g1 p =
            if decide (old <> no_position /\ p = old) then Normal else cell gm p).
  { intros p. apply cell_cleared; assumption. }
  assert (Hd : m_rows g1 = m_rows gm /\ m_cols g1 = m_cols gm /\
               shape (m_rows gm) (m_cols gm) (m_grid g1)).
  { subst g1. destruct (decide (old = no_position)); simpl; auto using shape_set2. }
  destruct Hd as (Hd1 & Hd2 & Hd3).
  assert (Hw : m_rows (ref_write pos (r, c) g1) = m_rows gm /\
               m_cols (ref_write pos (r, c) g1) = m_cols gm /\
               m_grid (ref_write pos (r, c) g1) = m_grid g1 /\
               ref_read pos (write_cell r c t (ref_write pos (r, c) g1)) = (r, c)).
  { destruct Hpos as [-> | ->]; simpl; auto. }
  destruct Hw as (Hw1 & Hw2 & Hw3 & Hw4).
  conjs; try assumption.
  intros p. rewrite cell_write_cell; [|rewrite Hw1, Hw2, Hw3; assumption|lia..].
  destruct (decide (p = (r, c))); [reflexivity|].
  rewrite <- Hc1. unfold cell. rewrite Hw3. reflexivity.
Qed.

Lemma setCellState_does gm row col type :
  well_formed gm -> row < m_rows gm -> col < m_cols gm ->
  exists gm', setCellState row col type gm = (inr tt, gm') /\
    m_rows gm' = m_rows gm /\ m_cols gm' = m_cols gm /\
    m_start gm' = (if decide (type = Start) then (row, col) else m_start gm) /\
    m_goal gm' = (if decide (type = Goal) then (row, col) else m_goal gm) /\
    forall p, cell gm' p = after_set gm row col type p.
Proof.
  intros Hwf Hr Hc.
  destruct (setCellState_inside gm row col type Hr Hc) as [gm' E].
  exists gm'. split; [exact E|].
  assert (E' : gm' = exec (setCellState row col type) gm)
    by (unfold exec; rewrite E; reflexivity).
  rewrite exec_setCellState in E'.
  destruct (decide (row < m_rows gm /\ col < m_cols gm)) as [_|Hn]; [|tauto].
  unfold after_set.
  destruct type; subst gm';
    try (simpl; conjs; try reflexivity; intros p;
         rewrite cell_write_cell by (try apply Hwf; assumption);
         destruct (decide (p = (row, col))); [reflexivity|];
         repeat (case_decide; [intuition congruence|]); reflexivity).
  - destruct (moved_effect ref_m_start row col Start gm (or_introl eq_refl) Hwf Hr Hc)
      as (H1 & H2 & H3 & H4).
    conjs; try assumption.
    + unfold moved. simpl. destruct (decide (m_start gm = no_position)); reflexivity.
    + intros p. rewrite H4. simpl ref_read.
      repeat case_decide; first [reflexivity | exfalso; intuition congruence].
  - destruct (moved_effect ref_m_goal row col Goal gm (or_intror eq_refl) Hwf Hr Hc)
      as (H1 & H2 & H3 & H4).
    conjs; try assumption.
    + unfold moved. simpl. destruct (decide (m_goal gm = no_position)); reflexivity.
    + intros p. rewrite H4. simpl ref_read.
      repeat case_decide; first [reflexivity | exfalso; intuition congruence].
Qed.



Lemma exec_effect gm row col type :
  well_formed gm -> row < m_rows gm -> col < m_cols gm ->
  let gm' := exec (setCellState row col type) gm in
  m_rows gm' = m_rows gm /\ m_cols gm' = m_cols gm /\
  m_start gm' = (if decide (type = Start) then (row, col) else m_start gm) /\
  m_goal gm' = (if decide (type = Goal) then (row, col) else m_goal gm) /\
  forall p, cell gm' p = after_set gm row col type p.
Proof.
  intros Hwf Hr Hc gm'.
  destruct (setCellState_does gm row col type Hwf Hr Hc) as (g & E & H).
  subst gm'. unfold exec. rewrite E. exact H.
Qed.

(** X3: on a well-formed grid, what [setCellState] wrote at a cell inside
    the bounds is what [cellState] reads there afterwards, for every type,
    [Start] and [Goal] included. *)
Theorem setCellState_then_cellState (gm : GridModel) (row col : N) (type : CellType) :
  well_formed gm -> row < m_rows gm -> col < m_cols gm ->
  fst (cellState row col (exec (setCellState row col type) gm)) = inr type.
Proof.
  intros Hwf Hr Hc.
  destruct (exec_effect gm row col type Hwf Hr Hc) as (H1 & H2 & _ & _ & H).
  rewrite cellState_inside by (rewrite ?H1, ?H2; assumption).
  simpl. rewrite H. unfold after_set.
  rewrite decide_True by reflexivity. reflexivity.
Qed.

Lemma setCellState_then_cellState_witness :
  fst (cellState 1 2 (exec (setCellState 1 2 Goal)
                          (run_calls [(1, 2, Start); (0, 0, Goal)] (GridModel_new 2 3))))
  = inr Goal.
Proof.
  apply setCellState_then_cellState.
  - apply (well_formed_run_calls 2 3); lia.
  - vm_compute. reflexivity.
  - vm_compute. reflexivity.
Defined.

(** Two well-formed models with the same fields and the same cells are the
    same model. *)
Lemma GridModel_ext gm gm' :
  shape (m_rows gm) (m_cols gm) (m_grid gm) ->
  shape (m_rows gm) (m_cols gm) (m_grid gm') ->
  m_rows gm' = m_rows gm -> m_cols gm' = m_cols gm ->
  m_start gm' = m_start gm -> m_goal gm' = m_goal gm ->
  (forall p, in_bounds gm p -> cell gm' p = cell gm p) ->
  gm' = gm.
Proof.
  intros Hs Hs' E1 E2 E3 E4 H.
  assert (Eg : m_grid gm' = m_grid gm).
  { apply (ext2 (m_rows gm) (m_cols gm)); try assumption.
    intros r c Hr Hc.
    rewrite (get2_at2 _ _ Normal _ _ _ Hs' Hr Hc), (get2_at2 _ _ Normal _ _ _ Hs Hr Hc).
    f_equal. apply (H (r, c)). split; assumption. }
  destruct gm, gm'. simpl in *. congruence.
Qed.

(** X4: on a well-formed grid, repeating a call of [setCellState] changes
    nothing more: the second of two identical calls leaves the model as the
    first left it. *)
Theorem setCellState_idempotent (gm : GridModel) (row col : N) (type : CellType) :
  well_formed gm ->
  exec (setCellState row col type) (exec (setCellState row col type) gm)
  = exec (setCellState row col type) gm.
Proof.
  intros Hwf.
  destruct (decide (row < m_rows gm /\ col < m_cols gm)) as [[Hr Hc]|Hn].
  2:{ assert (E : exec (setCellState row col type) gm = gm).
      { rewrite exec_setCellState. destruct (decide _); tauto. }
      rewrite !E. reflexivity. }
  pose proof (well_formed_setCellState gm row col type Hwf) as Hwf1.
  destruct (exec_effect gm row col type Hwf Hr Hc) as (H1 & H2 & H3 & H4 & H5).
  set (g1 := exec (setCellState row col type) gm) in *.
  assert (Hr1 : row < m_rows g1) by (rewrite H1; assumption).
  assert (Hc1 : col < m_cols g1) by (rewrite H2; assumption).
  pose proof (well_formed_setCellState g1 row col type Hwf1) as Hwf2.
  destruct (exec_effect g1 row col type Hwf1 Hr1 Hc1) as (K1 & K2 & K3 & K4 & K5).
  apply GridModel_ext; try assumption.
  - apply Hwf1.
  - rewrite <- K1, <- K2. apply Hwf2.
  - rewrite K3, H3. destruct (decide (type = Start)); reflexivity.
  - rewrite K4, H4. destruct (decide (type = Goal)); reflexivity.
  - intros p _. rewrite K5. unfold after_set at 1. rewrite H3, H4.
    destruct (decide (p = (row, col))) as [->|Hp].
    + rewrite H5. unfold after_set.
      rewrite decide_True by reflexivity. reflexivity.
    + repeat case_decide; first [reflexivity | exfalso; intuition congruence].
Qed.

Lemma setCellState_idempotent_witness :
  let gm := run_calls [(0, 0, Start); (1, 1, Goal)] (GridModel_new 2 2) in
  exec (setCellState 1 0 Start) (exec (setCellState 1 0 Start) gm)
  = exec (setCellState 1 0 Start) gm.
Proof.
  intros gm. apply setCellState_idempotent.
  apply (well_formed_run_calls 2 2); lia.
Defined.

Lemma tracked_inv_well_formed gm :
  m_rows gm < 256 -> m_cols gm < 256 -> tracked_inv gm -> well_formed gm.
Proof. intros Hr Hc (Hs & Hst & Hgo & _). unfold well_formed. auto. Qed.

Lemma agreeing_setCellState gm row col type :
  m_rows gm < 256 -> m_cols gm < 256 ->
  agreeing gm -> spares_special gm (row, col, type) ->
  agreeing (exec (setCellState row col type) gm).
Proof.
  intros Hrows Hcols (Hinv & HS & HG) Hsp.
  pose proof (tracked_inv_setCellState gm row col type Hinv) as Hinv'.
  split; [exact Hinv'|].
  destruct (decide (row < m_rows gm /\ col < m_cols gm)) as [[Hr Hc]|Hn].
  2:{ assert (E : exec (setCellState row col type) gm = gm).
      { rewrite exec_setCellState. destruct (decide _); tauto. }
      rewrite E. auto. }
  destruct (exec_effect gm row col type
              (tracked_inv_well_formed gm Hrows Hcols Hinv) Hr Hc)
    as (_ & _ & H3 & H4 & H5).
  rewrite H3, H4, !H5. unfold after_set. simpl in Hsp.
  split; intros Hne.
  - destruct type; simpl in *;
      repeat case_decide; try reflexivity; try congruence;
      try (exfalso; intuition congruence);
      try (apply HS; intuition congruence).
  - destruct type; simpl in *;
      repeat case_decide; try reflexivity; try congruence;
      try (exfalso; intuition congruence);
      try (apply HG; intuition congruence).
Qed.

Lemma agreeing_consistent gm : agreeing gm -> special_positions_consistent gm.
Proof.
  intros ((Hs & Hst & Hgo & Hout & HS & HG) & HcS & HcG).
  assert (Hno : ~ in_bounds gm no_position).
  { unfold in_bounds, no_position, sentinel_outside in *. simpl. lia. }
  unfold special_positions_consistent, tracks, startPosition, goalPosition in *.
  refine (conj _ (conj _ (conj (conj (conj _ _) _) (conj (conj _ _) _)))).
  - intros p q Hp Hq Hcp Hcq. rewrite (HS p), (HS q); auto.
  - intros p q Hp Hq Hcp Hcq. rewrite (HG p), (HG q); auto.
  - intros E p Hp Hc. apply HS in Hc; [|assumption]. rewrite E in Hc. subst p. auto.
  - intros Hnone. destruct (decide (m_start gm = no_position)) as [E|E]; [exact E|].
    destruct Hst as [?|Hb]; [assumption|]. destruct (Hnone _ Hb (HcS E)).
  - intros E. destruct Hst as [?|Hb]; [contradiction|]. auto.
  - intros E p Hp Hc. apply HG in Hc; [|assumption]. rewrite E in Hc. subst p. auto.
  - intros Hnone. destruct (decide (m_goal gm = no_position)) as [E|E]; [exact E|].
    destruct Hgo as [?|Hb]; [assumption|]. destruct (Hnone _ Hb (HcG E)).
  - intros E. destruct Hgo as [?|Hb]; [contradiction|]. auto.
Qed.

Lemma agreeing_new rows cols :
  rows <= 101 \/ cols <= 101 -> agreeing (GridModel_new rows cols).
Proof.
  intros H. split; [apply tracked_inv_new; assumption|].
  simpl. split; intros E; contradiction.
Qed.

Lemma dims_run_calls cs : forall gm,
  shape (m_rows gm) (m_cols gm) (m_grid gm) ->
  m_rows (run_calls cs gm) = m_rows gm /\ m_cols (run_calls cs gm) = m_cols gm.
Proof.
  induction cs as [|[[r c] t] cs IH]; intros gm Hs; [auto|]. simpl.
  assert (Hd : m_rows (exec (setCellState r c t) gm) = m_rows gm /\
               m_cols (exec (setCellState r c t) gm) = m_cols gm /\
               shape (m_rows gm) (m_cols gm) (m_grid (exec (setCellState r c t) gm))).
  { rewrite exec_setCellState. destruct (decide _); [|auto].
    unfold moved. destruct t; simpl; try case_decide; simpl; auto 10 using shape_set2. }
  destruct Hd as (E1 & E2 & Hs').
  destruct (IH (exec (setCellState r c t) gm)) as [K1 K2].
  - rewrite E1, E2. exact Hs'.
  - rewrite K1, K2. auto.
Qed.

(** X5: on a grid without a cell at [{101, 101}] and of dimensions that fit
    [uint8_t], a sequence of [setCellState] calls from a freshly
    constructed grid that never paints over a special cell with another
    type leaves the tracked positions and the cells in full agreement: at
    most one [Start] and one [Goal] cell, each tracked position unset
    exactly when no cell has its type, and otherwise at a cell of that
    type. *)
Theorem sparing_calls_keep_positions_consistent (rows cols : N) (cs : list call) :
  rows < 256 -> cols < 256 -> rows <= 101 \/ cols <= 101 ->
  sparing cs (GridModel_new rows cols) ->
  special_positions_consistent (run_calls cs (GridModel_new rows cols)).
Proof.
  intros Hr Hc Hout Hsp. apply agreeing_consistent.
  assert (H : forall gm, m_rows gm < 256 -> m_cols gm < 256 ->
              agreeing gm -> sparing cs gm -> agreeing (run_calls cs gm)).
  { clear. induction cs as [|[[r c] t] cs IH]; intros gm Hr Hc Ha Hsp; [exact Ha|].
    destruct Hsp as [H1 H2]. simpl.
    destruct (dims_run_calls [(r, c, t)] gm) as [E1 E2]; [apply Ha|]. simpl in E1, E2.
    apply IH; try assumption; try (rewrite ?E1, ?E2; assumption).
    apply agreeing_setCellState; assumption. }
  apply H; simpl; auto using agreeing_new.
Qed.

Lemma sparing_calls_keep_positions_consistent_witness :
  special_positions_consistent
    (run_calls [(0, 0, Start); (1, 1, Goal); (0, 1, Wall); (1, 0, Start); (0, 0, Goal)]
               (GridModel_new 2 2)).
Proof.
  apply sparing_calls_keep_positions_consistent; try lia.
  vm_compute. repeat split; congruence.
Defined.

(** ** The engine, on every well-formed grid *)

Lemma walk_manhattan gm a b k : walk gm a b k -> (manhattan a b <= k)%Z.
Proof.
  induction 1 as [|p q k _ IH Hadj [_ Hq]].
  - unfold manhattan. lia.
  - pose proof (step_passable gm q Hq). unfold manhattan, adjacent in *. lia.
Qed.

Lemma path_cost_Half gm p : path_cost gm p = Half (halves (path_cost gm p)).
Proof. unfold path_cost. rewrite sum_costs_steps. reflexivity. Qed.

(** X6: the heuristic never overestimates: for every cell, every path from
    it to the goal costs at least the heuristic of the cell (half the
    Manhattan distance; the cheapest step, onto [Boost], costs 0.5). *)
Theorem heuristic_never_overestimates (pf : Pathfinder) (a : position)
    (p : list position) :
  is_path (m_model pf) a (goalPosition (m_model pf)) p ->
  dlt (path_cost (m_model pf) p) (heuristic pf (fst a) (snd a)) = false.
Proof.
  intros Hp. apply is_path_walk, walk_manhattan in Hp.
  rewrite path_cost_Half, (heuristic_manhattan (m_model pf)) by reflexivity.
  rewrite <- surjective_pairing. simpl. apply Z.ltb_ge. exact Hp.
Qed.

Lemma heuristic_never_overestimates_witness :
  let gm := run_calls [(0, 0, Start); (1, 1, Boost); (2, 2, Goal)] (GridModel_new 3 3) in
  dlt (path_cost gm [(0, 1); (1, 1); (2, 1); (2, 2)])
      (heuristic (Pathfinder_new gm) 0 1) = false.
Proof.
  intros gm.
  apply (heuristic_never_overestimates (Pathfinder_new gm) (0, 1)
           [(0, 1); (1, 1); (2, 1); (2, 2)]).
  exists [(1, 1); (2, 1); (2, 2)]. vm_compute.
  repeat split; congruence.
Defined.

(** X7: the heuristic is consistent: it drops by no more than the cost of
    the step along every step onto a passable neighbour, and it is 0.0 at
    the goal. *)
Theorem heuristic_consistent (pf : Pathfinder) (a b : position) :
  adjacent a b -> passable (m_model pf) b ->
  dlt (dadd (getCost (cell (m_model pf) b)) (heuristic pf (fst b) (snd b)))
      (heuristic pf (fst a) (snd a)) = false /\
  heuristic pf (fst (goalPosition (m_model pf))) (snd (goalPosition (m_model pf)))
    = Half 0.
Proof.
  intros Hadj [_ Hb]. pose proof (step_passable _ _ Hb) as Hst.
  rewrite !(heuristic_manhattan (m_model pf)) by reflexivity.
  rewrite <- !surjective_pairing, getCost_Half. fold (step (m_model pf) b).
  pose proof (manhattan_adjacent a b (m_goal (m_model pf)) Hadj).
  split.
  - simpl. apply Z.ltb_ge. lia.
  - f_equal. unfold goalPosition, manhattan. lia.
Qed.

Lemma heuristic_consistent_witness :
  let gm := run_calls [(0, 0, Start); (1, 1, Boost); (2, 2, Goal)] (GridModel_new 3 3) in
  dlt (dadd (getCost (cell gm (1, 1))) (heuristic (Pathfinder_new gm) 1 1))
      (heuristic (Pathfinder_new gm) 0 1) = false.
Proof.
  intros gm.
  apply (heuristic_consistent (Pathfinder_new gm) (0, 1) (1, 1)).
  - vm_compute. reflexivity.
  - vm_compute. repeat split; congruence.
Defined.

(** X8: for [findPath] called on a newly constructed [Pathfinder], also on
    grids with walls, and under every queue policy: when both tracked rows
    differ from 101 and some path leads from the start to the goal, the
    cost returned is the cost of such a path, and no path from the start to
    the goal costs less. *)
Theorem findPath_cost_is_least_among_walls (PQ : PriorityQueue) (gm : GridModel)
    (r : PathResult) (p : list position) :
  well_formed gm -> fst (m_start gm) <> 101 -> fst (m_goal gm) <> 101 ->
  find PQ gm = Return r ->
  is_path gm (m_start gm) (m_goal gm) p ->
  (exists q, is_path gm (m_start gm) (m_goal gm) q /\ path_cost gm q = totalCost r) /\
  dlt (path_cost gm p) (totalCost r) = false.
Proof.
  intros Hwf Hs Hg Hr Hp. apply is_path_walk in Hp.
  destruct (find_outcome PQ gm Hwf Hs Hg)
    as [[_ Hno]|(r' & c & l & E & Hc & W & Hmin & _)].
  - destruct (Hno _ Hp).
  - rewrite E in Hr. injection Hr as <-. split.
    + destruct (walk_is_path _ _ _ _ W) as (q & Hq & Hqc).
      exists q. split; [assumption|congruence].
    + rewrite Hc, path_cost_Half. simpl. apply Z.ltb_ge, Hmin, Hp.
Qed.

Lemma findPath_cost_is_least_among_walls_witness :
  let gm := run_calls [(0, 0, Start); (0, 2, Goal); (0, 1, Wall); (1, 1, Rough)]
                      (GridModel_new 2 3) in
  dlt (path_cost gm [(0, 0); (1, 0); (1, 1); (1, 2); (0, 2)])
      (totalCost {| path := [(0, 0); (1, 0); (1, 1); (1, 2); (0, 2)];
                    totalCost := Half 10 |}) = false.
Proof.
  intros gm.
  apply (findPath_cost_is_least_among_walls last_pushed_first gm).
  - apply (well_formed_run_calls 2 3); lia.
  - vm_compute. congruence.
  - vm_compute. congruence.
  - vm_compute. reflexivity.
  - exists [(1, 0); (1, 1); (1, 2); (0, 2)]. vm_compute.
    repeat split; congruence.
Defined.

(** X9: when both tracked rows differ from 101, [findPath] called on a
    newly constructed [Pathfinder] answers with the empty path and the cost
    -1.0 exactly when no path leads from the start to the goal; and the
    returned cost is negative in that case only. *)
Theorem no_path_answer_is_exact (PQ : PriorityQueue) (gm : GridModel)
    (r : PathResult) :
  well_formed gm -> fst (m_start gm) <> 101 -> fst (m_goal gm) <> 101 ->
  find PQ gm = Return r ->
  (r = {| path := []; totalCost := Half (-2) |}
     <-> forall p, ~ is_path gm (m_start gm) (m_goal gm) p) /\
  (dlt (totalCost r) (Half 0) = true
     <-> forall p, ~ is_path gm (m_start gm) (m_goal gm) p).
Proof.
  intros Hwf Hs Hg Hr.
  destruct (find_outcome PQ gm Hwf Hs Hg)
    as [[E Hno]|(r' & c & l & E & Hc & W & Hmin & _)];
    rewrite E in Hr; injection Hr as <-.
  - assert (Hnone : forall p, ~ is_path gm (m_start gm) (m_goal gm) p).
    { intros p Hp. apply is_path_walk in Hp. exact (Hno _ Hp). }
    split; split; auto.
  - pose proof (walk_nonneg _ _ _ _ W) as H0.
    destruct (walk_is_path _ _ _ _ W) as (q & Hq & _).
    split; split.
    + intros ->. simpl in Hc. injection Hc as <-. lia.
    + intros Hnone. destruct (Hnone q Hq).
    + rewrite Hc. simpl. intros Hlt. apply Z.ltb_lt in Hlt. lia.
    + intros Hnone. destruct (Hnone q Hq).
Qed.

Lemma no_path_answer_is_exact_witness :
  let gm := run_calls [(0, 0, Start); (0, 2, Goal); (0, 1, Wall)] (GridModel_new 1 3) in
  ~ is_path gm (m_start gm) (m_goal gm) [(0, 0); (0, 1); (0, 2)].
Proof.
  intros gm.
  apply (no_path_answer_is_exact last_pushed_first gm
           {| path := []; totalCost := Half (-2) |}).
  - apply (well_formed_run_calls 1 3); lia.
  - vm_compute. congruence.
  - vm_compute. congruence.
  - vm_compute. reflexivity.
  - reflexivity.
Defined.

(** X10: the cost that [findPath] called on a newly constructed
    [Pathfinder] returns does not depend on the order in which the priority
    queue hands out entries of equal priority: under any two queue policies
    the call returns, and with the same cost. *)
Theorem totalCost_independent_of_queue_policy (PQ1 PQ2 : PriorityQueue)
    (gm : GridModel) :
  well_formed gm ->
  exists r1 r2, find PQ1 gm = Return r1 /\ find PQ2 gm = Return r2 /\
                totalCost r1 = totalCost r2.
Proof.
  intros Hwf.
  destruct (N.eq_dec (fst (m_start gm)) 101) as [E|Hs];
    [do 2 eexists; rewrite !find_unset by auto; eauto|].
  destruct (N.eq_dec (fst (m_goal gm)) 101) as [E|Hg];
    [do 2 eexists; rewrite !find_unset by auto; eauto|].
  destruct (find_outcome PQ1 gm Hwf Hs Hg)
    as [[E1 Hno1]|(r1 & c1 & l1 & E1 & Hc1 & W1 & Hmin1 & _)];
  destruct (find_outcome PQ2 gm Hwf Hs Hg)
    as [[E2 Hno2]|(r2 & c2 & l2 & E2 & Hc2 & W2 & Hmin2 & _)].
  - do 2 eexists. eauto.
  - destruct (Hno1 _ W2).
  - destruct (Hno2 _ W1).
  - exists r1, r2. conjs; auto.
    rewrite Hc1, Hc2. f_equal.
    pose proof (Hmin1 _ W2). pose proof (Hmin2 _ W1). lia.
Qed.

Lemma extract_min_oldest_perm q n q' :
  extract_min_oldest q = Some (n, q') -> Permutation q (n :: q').
Proof.
  unfold extract_min_oldest.
  destruct (extract_min (rev q)) as [[m rest]|] eqn:E; [|discriminate].
  intros [= <- <-]. apply extract_min_perm in E.
  rewrite <- (Permutation_rev rest), <- E. apply Permutation_rev.
Qed.

Definition first_pushed_first : PriorityQueue.
Proof.
  refine {| top_pop := extract_min_oldest;
            top_pop_empty := eq_refl;
            top_pop_perm := extract_min_oldest_perm |}.
  - intros q Hq. unfold extract_min_oldest.
    destruct (extract_min (rev q)) as [[m rest]|] eqn:E; [discriminate|].
    apply extract_min_none in E. intros _. apply Hq.
    rewrite <- (rev_involutive q), E. reflexivity.
  - intros q n q'. unfold extract_min_oldest.
    destruct (extract_min (rev q)) as [[m rest]|] eqn:E; [|discriminate].
    intros [= <- <-] x Hx. apply in_rev in Hx.
    eapply extract_min_least; eauto.
Defined.

Lemma totalCost_independent_of_queue_policy_witness :
  let gm := run_calls [(0, 0, Start); (2, 2, Goal); (1, 1, Wall)] (GridModel_new 3 3) in
  exists r1 r2,
    find last_pushed_first gm = Return r1 /\
    find first_pushed_first gm = Return r2 /\
    totalCost r1 = totalCost r2.
Proof.
  intros gm.
  apply (totalCost_independent_of_queue_policy last_pushed_first first_pushed_first).
  apply (well_formed_run_calls 3 3); lia.
Defined.

(** The two policies find different paths of the same cost around a wall
    in the middle of a 3 by 3 grid. *)
Example queue_policies_differ_in_path :
  let gm := run_calls [(0, 0, Start); (2, 2, Goal); (1, 1, Wall)] (GridModel_new 3 3) in
  path_of (find last_pushed_first gm) = [(0, 0); (0, 1); (0, 2); (1, 2); (2, 2)] /\
  path_of (find first_pushed_first gm) = [(0, 0); (1, 0); (2, 0); (2, 1); (2, 2)].
Proof. vm_compute. auto. Qed.

(** ** The shape of the returned path *)

Lemma cut_NoDup l : List.NoDup l -> List.NoDup (cut l).
Proof.
  induction 1 as [|m l Hm _ IH]; simpl; [constructor|].
  destruct (fst m =? 101); constructor; [|assumption].
  intros Hin. apply Hm, cut_incl, Hin.
Qed.

Lemma cut_length l : (length (cut l) <= length l)%nat.
Proof.
  induction l as [|m l IH]; simpl; [lia|].
  destruct (fst m =? 101); simpl; lia.
Qed.

(** What a search returns, with the parent chain it was read from. *)
Lemma search_path (PQ : PriorityQueue) gm fuel fuel_path r :
  well_formed gm -> fst (m_start gm) <> 101 -> fst (m_goal gm) <> 101 ->
  (1 + 4 * cells gm < fuel)%nat -> (cells gm < fuel_path)%nat ->
  fst (findPath_fuel fuel fuel_path (Pathfinder_new gm)) = Return r ->
  r = {| path := []; totalCost := Half (-2) |} \/
  exists c l, totalCost r = Half c /\ (0 <= c <= 4 * Z.of_nat (cells gm))%Z /\
    walk gm (m_start gm) (m_goal gm) c /\
    path r = rev (cut l) /\ List.NoDup l /\ Forall (in_bounds gm) l /\
    (length l <= cells gm)%nat.
Proof.
  intros Hwf Hs Ht Hf Hfp.
  destruct (tracked_in_bounds gm Hwf) as [Hsb Htb].
  specialize (Hsb Hs). specialize (Htb Ht).
  destruct Hwf as (Hr & Hc & Hsh & _).
  unfold findPath_fuel, startPosition, goalPosition. simpl m_model.
  destruct (N.eqb_spec (fst (m_start gm)) 101); [contradiction|].
  destruct (N.eqb_spec (fst (m_goal gm)) 101); [contradiction|]. cbn [orb].
  pose proof (while_queue_spec gm Hr Hc Hsb fuel_path fuel (seeded (Pathfinder_new gm))
                (seeded_inv gm Hr Hc Hsb Htb (Pathfinder_new gm) eq_refl eq_refl)) as H.
  rewrite (measure_seeded gm (Pathfinder_new gm) eq_refl eq_refl) in H.
  specialize (H Hf).
  destruct (while_queue fuel fuel_path (m_goal gm) (seeded (Pathfinder_new gm)))
    as [[|r'|e|] pf']; simpl; try discriminate.
  - intros [= <-]. left. reflexivity.
  - intros [= <-]. right. destruct H as (T & c & Hcost & Hrc & Hmin & Hrec).
    destruct (tree_chain gm Hr Hc pf' T _ c Htb Hcost)
      as (l & Hch & Hall & Hnd & Hp & Hsum & _).
    assert (Hin : Forall (in_bounds gm) l).
    { eapply List.Forall_impl; [|exact Hall]. simpl. tauto. }
    pose proof (chain_fits gm Hr Hc l Hnd Hin) as Hlen.
    assert (Hrange : (0 <= c <= 4 * Z.of_nat (cells gm))%Z).
    { eapply recorded_cost_bounded; eauto. }
    assert (W : walk gm (m_start gm) (m_goal gm) c).
    { apply is_path_walk in Hp. unfold path_cost in Hp.
      rewrite sum_costs_steps in Hp. simpl in Hp. rewrite Hsum in Hp. exact Hp. }
    assert (Hpath : path r' = rev (cut l)).
    { unfold reconstructPath in Hrec.
      rewrite (follow_parents_chain gm Hr Hc pf' _ l (tree_start_parent T) Hch) in Hrec
        by lia.
      simpl in Hrec. congruence. }
    exists c, l. auto 10.
Qed.

Lemma find_path (PQ : PriorityQueue) gm r :
  well_formed gm -> find PQ gm = Return r ->
  r = {| path := []; totalCost := Half 0 |} \/
  r = {| path := []; totalCost := Half (-2) |} \/
  fst (m_start gm) <> 101 /\ fst (m_goal gm) <> 101 /\
  exists c l, totalCost r = Half c /\ (0 <= c <= 4 * Z.of_nat (cells gm))%Z /\
    walk gm (m_start gm) (m_goal gm) c /\
    path r = rev (cut l) /\ List.NoDup l /\ Forall (in_bounds gm) l /\
    (length l <= cells gm)%nat.
Proof.
  intros Hwf Hr.
  destruct (N.eq_dec (fst (m_start gm)) 101) as [E|Hs];
    [rewrite find_unset in Hr by auto; injection Hr as <-; auto|].
  destruct (N.eq_dec (fst (m_goal gm)) 101) as [E|Hg];
    [rewrite find_unset in Hr by auto; injection Hr as <-; auto|].
  right. unfold find, findPath in Hr.
  apply search_path in Hr; simpl; auto; try lia.
  destruct Hr as [?|?]; auto.
Qed.

(** X11: on every well-formed grid the path [findPath] returns visits no
    cell twice, and so has no more cells than the grid. *)
Theorem returned_path_is_simple (PQ : PriorityQueue) (gm : GridModel)
    (r : PathResult) :
  well_formed gm -> find PQ gm = Return r ->
  List.NoDup (path r) /\ (length (path r) <= cells gm)%nat.
Proof.
  intros Hwf Hr.
  destruct (find_path PQ gm r Hwf Hr)
    as [->|[->|(_ & _ & c & l & _ & _ & _ & -> & Hnd & _ & Hlen)]];
    try (simpl; split; [constructor|lia]).
  split.
  - apply NoDup_rev, cut_NoDup, Hnd.
  - rewrite length_rev. pose proof (cut_length l). lia.
Qed.

Lemma returned_path_is_simple_witness :
  List.NoDup [(0, 0); (0, 1); (0, 2); (1, 2); (2, 2)].
Proof.
  apply (returned_path_is_simple last_pushed_first
           (run_calls [(0, 0, Start); (2, 2, Goal); (1, 1, Wall)] (GridModel_new 3 3))
           {| path := [(0, 0); (0, 1); (0, 2); (1, 2); (2, 2)]; totalCost := Half 8 |}).
  - apply (well_formed_run_calls 3 3); lia.
  - vm_compute. reflexivity.
Defined.

(** X12: the cost that [findPath] called on a newly constructed
    [Pathfinder] returns is never infinite: it is -1.0, or a multiple of
    0.5 between 0.0 and 2.0 times the number of cells; and the cost of a
    path that was found is at least half the Manhattan distance from the
    start to the goal. *)
Theorem returned_cost_range (PQ : PriorityQueue) (gm : GridModel)
    (r : PathResult) :
  well_formed gm -> find PQ gm = Return r ->
  exists c, totalCost r = Half c /\
    (c = -2 \/ 0 <= c <= 4 * Z.of_nat (cells gm))%Z /\
    (path r <> [] -> (manhattan (m_start gm) (m_goal gm) <= c)%Z).
Proof.
  intros Hwf Hr.
  destruct (find_path PQ gm r Hwf Hr)
    as [->|[->|(_ & _ & c & l & Hc & Hrange & W & _)]].
  - exists 0%Z. simpl. conjs; [reflexivity|lia|congruence].
  - exists (-2)%Z. simpl. conjs; [reflexivity|lia|congruence].
  - exists c. conjs; auto. intros _. eapply walk_manhattan; eauto.
Qed.

Lemma returned_cost_range_witness :
  exists c, Half 8 = Half c /\ (c = -2 \/ 0 <= c <= 4 * Z.of_nat 9)%Z.
Proof.
  destruct (returned_cost_range last_pushed_first
              (run_calls [(0, 0, Start); (2, 2, Goal); (1, 1, Wall)] (GridModel_new 3 3))
              {| path := [(0, 0); (0, 1); (0, 2); (1, 2); (2, 2)]; totalCost := Half 8 |})
    as (c & Hc & Hrange & _).
  - apply (well_formed_run_calls 3 3); lia.
  - vm_compute. reflexivity.
  - exists c. split; assumption.
Defined.

Lemma linked_cost gm a l :
  linked gm a l -> l <> [] -> (1 <= sum_steps gm l)%Z.
Proof.
  revert a. induction l as [|q l IH]; intros a Hl Hne; [contradiction|].
  destruct Hl as (_ & [_ Hq] & Hl). pose proof (step_passable gm q Hq).
  unfold sum_steps in *. cbn [fold_right].
  destruct l as [|q' l']; [simpl; lia|].
  specialize (IH q Hl ltac:(discriminate)). lia.
Qed.

(** X13: when the goal is put on the start cell (the tracked start stays
    there), [findPath] returns the path of that single cell and the cost
    0.0. *)
Theorem start_on_goal_gives_single_cell (PQ : PriorityQueue) (gm : GridModel) :
  well_formed gm -> m_start gm = m_goal gm -> fst (m_start gm) <> 101 ->
  find PQ gm = Return {| path := [m_start gm]; totalCost := Half 0 |}.
Proof.
  intros Hwf Eg Hs.
  assert (Hg : fst (m_goal gm) <> 101) by (rewrite <- Eg; exact Hs).
  destruct (find_outcome PQ gm Hwf Hs Hg)
    as [[_ Hno]|(r & c & l & E & Hc & W & Hmin & Hpath & Hp & Hsum & _)].
  - exfalso. apply (Hno 0%Z). rewrite <- Eg. constructor.
  - assert (Ec : c = 0%Z).
    { pose proof (walk_nonneg _ _ _ _ W).
      assert (c <= 0)%Z by (apply Hmin; rewrite <- Eg; constructor). lia. }
    rewrite Ec in *. clear Ec. destruct Hp as (l0 & Hrev & Hl0 & _).
    rewrite Hrev in Hsum. simpl in Hsum.
    assert (l0 = []).
    { destruct l0 as [|q l0]; [reflexivity|].
      pose proof (linked_cost gm _ _ Hl0 ltac:(discriminate)). lia. }
    subst l0. assert (El : l = [m_start gm]).
    { rewrite <- (rev_involutive l), Hrev. reflexivity. }
    subst l. simpl in Hpath.
    destruct (N.eqb_spec (fst (m_start gm)) 101); [contradiction|].
    rewrite E. destruct r as [p tc]. simpl in *. subst. reflexivity.
Qed.

Lemma start_on_goal_gives_single_cell_witness :
  find last_pushed_first (run_calls [(1, 1, Start); (1, 1, Goal)] (GridModel_new 3 3))
  = Return {| path := [(1, 1)]; totalCost := Half 0 |}.
Proof.
  apply (start_on_goal_gives_single_cell last_pushed_first
           (run_calls [(1, 1, Start); (1, 1, Goal)] (GridModel_new 3 3))).
  - apply (well_formed_run_calls 3 3); lia.
  - vm_compute. reflexivity.
  - vm_compute. congruence.
Defined.

(** ** GridView: the animation of the path *)

Lemma line_loop_drop v fuel : forall i,
  (length (m_animatingPath v) <= fuel + i)%nat ->
  line_loop fuel i v
  = map centre (drop i (take (m_currentAnimationStep v) (m_animatingPath v))).
Proof.
  induction fuel as [|fuel IH]; intros i Hlen.
  - simpl. rewrite drop_ge; [reflexivity|].
    rewrite length_take. simpl in Hlen. lia.
  - cbn [line_loop].
    destruct (i <? m_currentAnimationStep v)%nat eqn:E1;
      [destruct (i <? length (m_animatingPath v))%nat eqn:E2|]; cbn [andb].
    + apply Nat.ltb_lt in E1, E2.
      rewrite IH by lia.
      destruct (lookup_lt_is_Some_2 (m_animatingPath v) i E2) as [x Hx].
      rewrite (drop_S _ x i) by (rewrite lookup_take_lt by lia; exact Hx).
      simpl. f_equal. f_equal. rewrite nth_lookup, Hx. reflexivity.
    + apply Nat.ltb_ge in E2. rewrite drop_ge; [reflexivity|].
      rewrite length_take. lia.
    + apply Nat.ltb_ge in E1. rewrite drop_ge; [reflexivity|].
      rewrite length_take. lia.
Qed.

Lemma painted_path_prefix v :
  painted_path v
  = map centre (take (m_currentAnimationStep v) (m_animatingPath v)).
Proof.
  unfold painted_path.
  destruct (m_animatingPath v) as [|first rest] eqn:E.
  - rewrite take_nil. reflexivity.
  - destruct (m_currentAnimationStep v) as [|k] eqn:Ek; [reflexivity|].
    change (0 <? S k)%nat with true. cbv iota.
    rewrite line_loop_drop by (rewrite E; simpl; lia).
    rewrite Ek, E. reflexivity.
Qed.

(** X14: [paintEvent] draws the polyline through the centres of the first
    [m_currentAnimationStep] cells of the path, in order, and nothing else:
    no cell beyond the animation step, none beyond the end of the path. *)
Theorem painted_path_is_animated_prefix (v : GridView) :
  painted_path v
  = map centre (take (m_currentAnimationStep v) (m_animatingPath v)).
Proof. apply painted_path_prefix. Qed.

Lemma animation_state p v n :
  Nat.iter n timeout (setPath p v)
  = {| m_currentPath := p; m_animatingPath := p;
       m_currentAnimationStep := Nat.min n (length p);
       m_animationTimer := (n <=? length p)%nat |}.
Proof.
  induction n as [|n IH]; [reflexivity|].
  rewrite Nat.iter_succ, IH. unfold timeout, advanceAnimation.
  cbn [m_currentPath m_animatingPath m_currentAnimationStep m_animationTimer].
  destruct (Nat.leb_spec n (length p)) as [Hle|Hgt].
  - rewrite (Nat.min_l n) by assumption.
    destruct (Nat.ltb_spec n (length p)) as [Hlt|Hge].
    + rewrite (Nat.min_l (S n)) by lia.
      destruct (Nat.leb_spec (S n) (length p)); [reflexivity|lia].
    + rewrite (Nat.min_r (S n)) by lia.
      destruct (Nat.leb_spec (S n) (length p)); [lia|].
      f_equal. lia.
  - rewrite (Nat.min_r n), (Nat.min_r (S n)) by lia.
    destruct (Nat.leb_spec (S n) (length p)); [lia|reflexivity].
Qed.

(** X15: after [setPath p], the n-th [timeout] of the animation timer
    leaves the first n cells of [p] drawn, for every n up to the length of
    [p]; the timeout after that stops the timer, and the whole of [p] stays
    drawn from then on. *)
Theorem animation_draws_path_step_by_step (p : list position) (v : GridView)
    (n : nat) :
  let v' := Nat.iter n timeout (setPath p v) in
  painted_path v' = map centre (take n p) /\
  m_animationTimer v' = (n <=? length p)%nat /\
  m_currentPath v' = p.
Proof.
  intros v'. unfold v'. rewrite animation_state.
  rewrite painted_path_prefix. simpl. conjs; try reflexivity.
  destruct (Nat.le_ge_cases n (length p)).
  - rewrite Nat.min_l by assumption. reflexivity.
  - rewrite Nat.min_r, !take_ge by lia. reflexivity.
Qed.

(** ** MainWindow: the slots *)

Lemma clicked_cell_on_grid row col gm :
  m_rows gm < 256 -> m_cols gm < 256 ->
  (0 <= row < Z.of_N (m_rows gm))%Z -> (0 <= col < Z.of_N (m_cols gm))%Z ->
  clicked_cell row col gm = Some (Z.to_N row, Z.to_N col).
Proof.
  intros Hr Hc Hrow Hcol. unfold clicked_cell, rowCount, colCount.
  destruct (Z.leb_spec 0 row); [|lia].
  destruct (Z.ltb_spec row (Z.of_N (m_rows gm))); [|lia].
  destruct (Z.leb_spec 0 col); [|lia].
  destruct (Z.ltb_spec col (Z.of_N (m_cols gm))); [|lia].
  simpl. rewrite !u8_small by lia. reflexivity.
Qed.

Lemma clicked_cell_off_grid row col gm :
  ~ ((0 <= row < Z.of_N (m_rows gm))%Z /\ (0 <= col < Z.of_N (m_cols gm))%Z) ->
  clicked_cell row col gm = None.
Proof.
  intros H. unfold clicked_cell, rowCount, colCount.
  destruct (Z.leb_spec 0 row); [|reflexivity].
  destruct (Z.ltb_spec row (Z.of_N (m_rows gm))); [|reflexivity].
  destruct (Z.leb_spec 0 col); [|reflexivity].
  destruct (Z.ltb_spec col (Z.of_N (m_cols gm))); [|reflexivity].
  exfalso. apply H. lia.
Qed.

Lemma clicked_cell_some row col gm r c :
  m_rows gm < 256 -> m_cols gm < 256 ->
  clicked_cell row col gm = Some (r, c) ->
  r = Z.to_N row /\ c = Z.to_N col /\
  (0 <= row < Z.of_N (m_rows gm))%Z /\ (0 <= col < Z.of_N (m_cols gm))%Z.
Proof.
  intros Hr Hc H.
  destruct (Z_le_dec 0 row) as [H1|H1]; [|rewrite clicked_cell_off_grid in H by lia; discriminate].
  destruct (Z_lt_dec row (Z.of_N (m_rows gm))) as [H2|H2];
    [|rewrite clicked_cell_off_grid in H by lia; discriminate].
  destruct (Z_le_dec 0 col) as [H3|H3]; [|rewrite clicked_cell_off_grid in H by lia; discriminate].
  destruct (Z_lt_dec col (Z.of_N (m_cols gm))) as [H4|H4];
    [|rewrite clicked_cell_off_grid in H by lia; discriminate].
  rewrite clicked_cell_on_grid in H by (try assumption; lia).
  injection H as <- <-. conjs; auto.
Qed.

Lemma setCellState_exec gm row col type :
  row < m_rows gm -> col < m_cols gm ->
  setCellState row col type gm = (inr tt, exec (setCellState row col type) gm).
Proof.
  intros Hr Hc. destruct (setCellState_inside gm row col type Hr Hc) as [gm' E].
  unfold exec. rewrite E. reflexivity.
Qed.

Lemma mouse_event_paints (w : MainWindow) (row col : Z) :
  well_formed (mw_model w) ->
  exists w', mouse_event row col w = (inr tt, w') /\
    mw_view w' = mw_view w /\ m_currentTool w' = m_currentTool w /\
    m_costLabel w' = m_costLabel w /\
    ((0 <= row < Z.of_N (m_rows (mw_model w)))%Z /\
     (0 <= col < Z.of_N (m_cols (mw_model w)))%Z ->
     mw_model w'
       = exec (setCellState (Z.to_N row) (Z.to_N col) (m_currentTool w)) (mw_model w) /\
     cell (mw_model w') (Z.to_N row, Z.to_N col) = m_currentTool w) /\
    (~ ((0 <= row < Z.of_N (m_rows (mw_model w)))%Z /\
        (0 <= col < Z.of_N (m_cols (mw_model w)))%Z) -> w' = w).
Proof.
  intros Hwf. pose proof Hwf as (Hr & Hc & _). unfold mouse_event.
  destruct (Z_le_dec 0 row) as [H1|H1];
    [|rewrite clicked_cell_off_grid by lia; exists w; conjs; auto; lia].
  destruct (Z_lt_dec row (Z.of_N (m_rows (mw_model w)))) as [H2|H2];
    [|rewrite clicked_cell_off_grid by lia; exists w; conjs; auto; lia].
  destruct (Z_le_dec 0 col) as [H3|H3];
    [|rewrite clicked_cell_off_grid by lia; exists w; conjs; auto; lia].
  destruct (Z_lt_dec col (Z.of_N (m_cols (mw_model w)))) as [H4|H4];
    [|rewrite clicked_cell_off_grid by lia; exists w; conjs; auto; lia].
  rewrite clicked_cell_on_grid by (try assumption; lia).
  rewrite setCellState_exec by lia.
  eexists. split; [reflexivity|]. cbn [mw_view m_currentTool m_costLabel mw_model].
  conjs; auto; [|tauto]. intros _. split; [reflexivity|].
  destruct (exec_effect (mw_model w) (Z.to_N row) (Z.to_N col) (m_currentTool w) Hwf)
    as (_ & _ & _ & _ & Hcell); [lia..|].
  rewrite Hcell. unfold after_set. rewrite decide_True by reflexivity. reflexivity.
Qed.

Lemma pointer_event_mouse_event x y w row col :
  pointer_cell x y = Some (row, col) ->
  pointer_event x y w = Some (mouse_event row col w).
Proof.
  intros E. unfold pointer_event, handleMouseEvent, mouse_event. rewrite E.
  destruct (clicked_cell row col (mw_model w)) as [[r c]|]; [|reflexivity].
  destruct (setCellState r c (m_currentTool w) (mw_model w)). reflexivity.
Qed.

(** X16: a pointer event at ([x], [y]) on a well-formed model, where the
    conversions of [x / m_cellSize] and [y / m_cellSize] to [int] are
    defined and give [col] and [row]: the event never throws and leaves the
    view, the tool and the cost label as they were; when
    [0 <= row < rowCount()] and [0 <= col < colCount()] it paints the
    current tool at exactly the cell ([row], [col]) (the conversion to
    [uint8_t] loses nothing), as [setCellState] does, and otherwise it
    changes nothing.  The conversion truncates toward zero, so a pointer
    less than one cell left of or above the grid is taken into column or
    row 0 and paints there. *)
Theorem pointer_event_paints_converted_cell (w : MainWindow)
    (x y : PrimFloat.float) (row col : Z) :
  well_formed (mw_model w) ->
  pointer_cell x y = Some (row, col) ->
  exists w', pointer_event x y w = Some (inr tt, w') /\
    mw_view w' = mw_view w /\ m_currentTool w' = m_currentTool w /\
    m_costLabel w' = m_costLabel w /\
    ((0 <= row < Z.of_N (m_rows (mw_model w)))%Z /\
     (0 <= col < Z.of_N (m_cols (mw_model w)))%Z ->
     mw_model w'
       = exec (setCellState (Z.to_N row) (Z.to_N col) (m_currentTool w)) (mw_model w) /\
     cell (mw_model w') (Z.to_N row, Z.to_N col) = m_currentTool w) /\
    (~ ((0 <= row < Z.of_N (m_rows (mw_model w)))%Z /\
        (0 <= col < Z.of_N (m_cols (mw_model w)))%Z) -> w' = w).
Proof.
  intros Hwf E. rewrite (pointer_event_mouse_event x y w row col E).
  destruct (mouse_event_paints w row col Hwf) as (w' & E' & H).
  exists w'. rewrite E'. split; [reflexivity|exact H].
Qed.

(** The witness: a pointer 5 pixels left of the grid, 35 pixels down,
    paints the cell in row 3 of column 0. *)
Lemma pointer_event_paints_converted_cell_witness :
  exists w',
    pointer_event (int_to_double (-5)) (int_to_double 35)
                  (select_tool Wall MainWindow_new) = Some (inr tt, w') /\
    cell (mw_model w') (3, 0) = Wall.
Proof.
  destruct (pointer_event_paints_converted_cell (select_tool Wall MainWindow_new)
              (int_to_double (-5)) (int_to_double 35) 3 0)
    as (w' & E & _ & _ & _ & Hon & _).
  - apply well_formed_new; lia.
  - vm_compute. reflexivity.
  - exists w'. split; [exact E|]. apply Hon. simpl. lia.
Defined.

(** X17: a click on "Find Path" on a well-formed model never leaves the
    slot through an exception and never changes the model.  With the start
    or the goal in row 101 it warns and nothing changes; otherwise a result
    is shown: "No valid path found!" with no path to draw exactly when no
    path leads from the start to the goal, and else "Optimal path cost: c"
    where c is the cost of some path from the start to the goal and no such
    path costs less.  The cost 0.0 that [findPath] returns for an unset
    position never reaches the label. *)
Theorem find_click_shows_least_cost (PQ : PriorityQueue) (w : MainWindow) :
  well_formed (mw_model w) ->
  let gm := mw_model w in
  let w' := snd (on_find_path w) in
  mw_model w' = gm /\
  (((fst (m_start gm) = 101 \/ fst (m_goal gm) = 101) /\
    on_find_path w = (Warned, w)) \/
   (fst (m_start gm) <> 101 /\ fst (m_goal gm) <> 101 /\
    fst (on_find_path w) = Shown /\
    ((m_costLabel w' = NoValidPathFound /\ m_currentPath (mw_view w') = [] /\
      forall p, ~ is_path gm (m_start gm) (m_goal gm) p) \/
     (exists c p, m_costLabel w' = OptimalPathCost (Half c) /\
        is_path gm (m_start gm) (m_goal gm) p /\ path_cost gm p = Half c /\
        forall p', is_path gm (m_start gm) (m_goal gm) p' ->
                   dlt (path_cost gm p') (Half c) = false)))).
Proof.
  intros Hwf gm w'. unfold w', on_find_path, startPosition, goalPosition. fold gm.
  destruct (N.eqb_spec (fst (m_start gm)) 101) as [E|Hs];
    [simpl; split; [reflexivity|left; auto]|].
  destruct (N.eqb_spec (fst (m_goal gm)) 101) as [E|Hg];
    [simpl; split; [reflexivity|left; auto]|].
  cbn [orb]. fold (find PQ gm).
  destruct (find_outcome PQ gm Hwf Hs Hg)
    as [[E Hno]|(r & c & l & E & Hc & W & Hmin & _)]; rewrite E.
  - simpl. split; [reflexivity|]. right. conjs; auto. left. conjs; auto.
    intros p Hp. apply is_path_walk in Hp. exact (Hno _ Hp).
  - pose proof (walk_nonneg _ _ _ _ W) as H0.
    cbn [fst snd mw_model m_costLabel]. rewrite Hc. unfold dge. simpl dlt.
    destruct (Z.ltb_spec c 0); [lia|]. cbn [negb].
    split; [reflexivity|]. right. conjs; auto. right.
    destruct (walk_is_path _ _ _ _ W) as (p & Hp & Hpc).
    exists c, p. conjs; auto.
    intros p' Hp'. rewrite path_cost_Half. simpl.
    apply Z.ltb_ge, Hmin, is_path_walk, Hp'.
Qed.

Lemma find_click_shows_least_cost_witness :
  let w := {| mw_model := run_calls [(0, 0, Start); (0, 2, Goal); (0, 1, Wall)]
                                    (GridModel_new 1 3);
              mw_view := GridView_new; m_currentTool := Normal;
              m_costLabel := PathCostNone |} in
  mw_model (snd (on_find_path (PQ := last_pushed_first) w)) = mw_model w.
Proof.
  intros w.
  apply (find_click_shows_least_cost last_pushed_first w).
  apply (well_formed_run_calls 1 3); lia.
Defined.

(** X18: "Clear Grid" on a model whose table has the dimensions of the
    model leaves the model that the constructor builds, nothing of the path
    to draw, the cost label at "Path cost: --" and the tool as it was; a
    click on "Find Path" right after it warns that start and goal are not
    set. *)
Theorem clear_resets_window (PQ : PriorityQueue) (w : MainWindow) :
  shape (m_rows (mw_model w)) (m_cols (mw_model w)) (m_grid (mw_model w)) ->
  let w' := on_clear w in
  mw_model w' = GridModel_new (m_rows (mw_model w)) (m_cols (mw_model w)) /\
  painted_path (mw_view w') = [] /\
  m_costLabel w' = PathCostNone /\
  m_currentTool w' = m_currentTool w /\
  on_find_path w' = (Warned, w').
Proof.
  intros Hs w'.
  assert (E : mw_model w' = GridModel_new (m_rows (mw_model w)) (m_cols (mw_model w))).
  { unfold w', on_clear. cbn [mw_model]. unfold exec.
    rewrite clearGrid_new by assumption. reflexivity. }
  conjs; auto.
Qed.

Lemma clear_resets_window_witness :
  let w := {| mw_model := run_calls [(0, 0, Start); (0, 2, Goal); (0, 1, Wall)]
                                    (GridModel_new 1 3);
              mw_view := setPath [(0, 0)] GridView_new; m_currentTool := Wall;
              m_costLabel := NoValidPathFound |} in
  mw_model (on_clear w) = GridModel_new 1 3.
Proof.
  intros w.
  apply (clear_resets_window last_pushed_first w).
  apply (well_formed_run_calls 1 3); lia.
Defined.

(** ** The application: every sequence of events *)

Lemma tracked_inv_at_most_one gm :
  tracked_inv gm -> at_most_one gm Start /\ at_most_one gm Goal.
Proof.
  intros (_ & _ & _ & _ & HS & HG). split.
  - intros p q Hp Hq Hcp Hcq. rewrite (HS p), (HS q); auto.
  - intros p q Hp Hq Hcp Hcq. rewrite (HG p), (HG q); auto.
Qed.

Lemma dims_setCellState gm r c t :
  shape (m_rows gm) (m_cols gm) (m_grid gm) ->
  m_rows (exec (setCellState r c t) gm) = m_rows gm /\
  m_cols (exec (setCellState r c t) gm) = m_cols gm.
Proof. intros Hs. apply (dims_run_calls [(r, c, t)] gm Hs). Qed.

(** What every slot keeps, for the window as [MainWindow] constructs it. *)
Lemma handle_keeps (PQ : PriorityQueue) e w :
  m_rows (mw_model w) = 100 -> m_cols (mw_model w) = 100 ->
  tracked_inv (mw_model w) ->
  exists w', handle e w = Some w' /\
    m_rows (mw_model w') = 100 /\ m_cols (mw_model w') = 100 /\
    tracked_inv (mw_model w').
Proof.
  intros Hr Hc Ht.
  assert (Hwf : well_formed (mw_model w)).
  { apply tracked_inv_well_formed; [rewrite Hr|rewrite Hc|assumption]; reflexivity. }
  destruct e as [row col|type| | |]; cbn [handle].
  - unfold mouse_event.
    destruct (clicked_cell row col (mw_model w)) as [[r c]|] eqn:E;
      [|exists w; auto].
    apply clicked_cell_some in E as (-> & -> & Hrow & Hcol); try apply Hwf.
    rewrite setCellState_exec by lia.
    eexists. split; [reflexivity|]. cbn [mw_model].
    destruct (dims_setCellState (mw_model w) (Z.to_N row) (Z.to_N col) (m_currentTool w))
      as [E1 E2]; [apply Hwf|].
    rewrite E1, E2. conjs; auto. apply tracked_inv_setCellState, Ht.
  - eexists. split; [reflexivity|]. auto.
  - eexists. split; [reflexivity|]. unfold on_clear. cbn [mw_model]. unfold exec.
    rewrite clearGrid_new by apply Hwf. cbn [snd]. rewrite Hr, Hc.
    conjs; try reflexivity. apply tracked_inv_new. left. lia.
  - unfold on_find_path, startPosition, goalPosition.
    destruct (N.eqb_spec (fst (m_start (mw_model w))) 101) as [E|Hs];
      [exists w; auto|].
    destruct (N.eqb_spec (fst (m_goal (mw_model w))) 101) as [E|Hg];
      [exists w; auto|].
    cbn [orb]. fold (find PQ (mw_model w)).
    destruct (find_outcome PQ (mw_model w) Hwf Hs Hg)
      as [[E _]|(r & c & l & E & _)]; rewrite E;
      (eexists; split; [reflexivity|]; auto).
  - eexists. split; [reflexivity|]. auto.
Qed.

(** X19: the application as it is built (a 100 by 100 grid), under every
    queue policy and whatever the user does, in any order: no exception
    leaves a slot, every search returns, the grid keeps its dimensions, and
    at no time does the grid hold more than one [Start] or more than one
    [Goal] cell. *)
Theorem application_never_fails (PQ : PriorityQueue) (es : list event) :
  exists w, run_events es MainWindow_new = Some w /\
    rowCount (mw_model w) = 100 /\ colCount (mw_model w) = 100 /\
    well_formed (mw_model w) /\
    at_most_one (mw_model w) Start /\ at_most_one (mw_model w) Goal.
Proof.
  assert (H : forall w0,
    m_rows (mw_model w0) = 100 -> m_cols (mw_model w0) = 100 ->
    tracked_inv (mw_model w0) ->
    exists w, run_events es w0 = Some w /\
      m_rows (mw_model w) = 100 /\ m_cols (mw_model w) = 100 /\
      tracked_inv (mw_model w)).
  { induction es as [|e es IH]; intros w0 Hr Hc Ht; [exists w0; auto|].
    destruct (handle_keeps PQ e w0 Hr Hc Ht) as (w1 & E & Hr1 & Hc1 & Ht1).
    cbn [run_events]. rewrite E. apply IH; assumption. }
  destruct (H MainWindow_new) as (w & E & Hr & Hc & Ht);
    [reflexivity..|apply tracked_inv_new; left; simpl; lia|].
  exists w. unfold rowCount, colCount.
  destruct (tracked_inv_at_most_one _ Ht) as [HS HG].
  conjs; auto.
  apply tracked_inv_well_formed; [rewrite Hr|rewrite Hc|assumption]; reflexivity.
Qed.

(** ** GridView: the cells *)

Lemma for_int_pure {S A} (body : Z -> M S A) (f : Z -> A) (s : S) n : forall i,
  (forall j, (i <= j < i + Z.of_nat n)%Z -> body j s = (inr (f j), s)) ->
  for_int n i body s = (inr (map (fun k => f (i + Z.of_nat k)%Z) (seq 0 n)), s).
Proof.
  induction n as [|n IH]; intros i H; [reflexivity|].
  cbn [for_int]. unfold bind at 1. rewrite (H i) by lia.
  unfold bind at 1. rewrite (IH (i + 1)%Z) by (intros j Hj; apply H; lia).
  unfold ret. cbn [seq map]. rewrite <- seq_shift, map_map.
  rewrite Z.add_0_r. do 3 f_equal.
  apply map_ext. intros k. f_equal. lia.
Qed.

Lemma fill_cell_inside gm row col :
  m_rows gm < 256 -> m_cols gm < 256 ->
  (0 <= row < Z.of_N (m_rows gm))%Z -> (0 <= col < Z.of_N (m_cols gm))%Z ->
  fill_cell row col gm
  = (inr ((col * m_cellSize, row * m_cellSize, m_cellSize, m_cellSize)%Z,
          match find_color (cell gm (Z.to_N row, Z.to_N col)) color_map with
          | Some c => c
          | None => Qt_white
          end), gm).
Proof.
  intros Hr Hc Hrow Hcol. unfold fill_cell, bind.
  rewrite !u8_small by lia. rewrite cellState_inside by lia. reflexivity.
Qed.

(** X20: on a well-formed model the loops of [paintEvent] over the cells
    never throw and leave the model as it is; they fill, row by row and
    once each, the square of every cell with the colour that [color_map]
    holds for the type of that cell.  Every type has a colour in
    [color_map], so the default is never used, and no two types share a
    colour. *)
Theorem paintEvent_fills_every_cell_once (gm : GridModel) :
  well_formed gm ->
  paint_cells gm
  = (inr (map (fun r =>
            map (fun c =>
                   ((Z.of_nat c * m_cellSize, Z.of_nat r * m_cellSize,
                     m_cellSize, m_cellSize)%Z,
                    default Qt_white
                      (find_color (cell gm (N.of_nat r, N.of_nat c)) color_map)))
                (seq 0 (N.to_nat (m_cols gm))))
            (seq 0 (N.to_nat (m_rows gm)))), gm) /\
  (forall type, find_color type color_map <> None) /\
  (forall type type',
     find_color type color_map = find_color type' color_map -> type = type').
Proof.
  intros (Hr & Hc & _). conjs.
  - unfold paint_cells, rowCount, colCount.
    rewrite (for_int_pure _
      (fun row => map (fun c =>
         ((Z.of_nat c * m_cellSize, row * m_cellSize, m_cellSize, m_cellSize)%Z,
          default Qt_white
            (find_color (cell gm (Z.to_N row, N.of_nat c)) color_map)))
         (seq 0 (N.to_nat (m_cols gm))))).
    + do 2 f_equal. apply map_ext. intros r. apply map_ext. intros c.
      rewrite Z.add_0_l.
      replace (Z.to_N (Z.of_nat r)) with (N.of_nat r) by lia. reflexivity.
    + intros row Hrow.
      rewrite (for_int_pure _
        (fun col =>
           ((col * m_cellSize, row * m_cellSize, m_cellSize, m_cellSize)%Z,
            default Qt_white
              (find_color (cell gm (Z.to_N row, Z.to_N col)) color_map)))).
      * do 2 f_equal. apply map_ext. intros c.
        rewrite Z.add_0_l.
        replace (Z.to_N (Z.of_nat c)) with (N.of_nat c) by lia. reflexivity.
      * intros col Hcol. rewrite fill_cell_inside by lia.
        destruct (find_color _ color_map); reflexivity.
  - intros []; discriminate.
  - intros [] []; simpl; congruence.
Qed.

Lemma paintEvent_fills_every_cell_once_witness :
  fst (paint_cells (run_calls [(0, 1, Wall)] (GridModel_new 1 2)))
  = inr [[((0, 0, 10, 10)%Z, Qt_white); ((10, 0, 10, 10)%Z, Qt_darkGray)]].
Proof.
  destruct (paintEvent_fills_every_cell_once
              (run_calls [(0, 1, Wall)] (GridModel_new 1 2))) as (E & _).
  - apply (well_formed_run_calls 1 2); lia.
  - rewrite E. reflexivity.
Defined.
